(** * transformerlab.question_answering: feature building and span decoding

    A shallow embedding of [src/transformerlab/question_answering.py]:
    [prepare_train_features], [prepare_validation_features] and
    [QuestionAnsweringTrainer._postprocess_qa_predictions].

    Conventions.
    - Python exceptions are the [Raise] results of the [result] monad.
    - Logits and scores are exact rationals [Q] (no rounding, no NaN); the
      [np.exp] of the softmax step is taken over the real numbers.
    - Character offsets and token positions that the code only counts upward
      are [nat]; positions the code decrements are [Z], with Python's
      negative-index wrap-around written out in [py_get].
    - The tokenizer, [np.argsort] and [sorted] are external: the tokenizer is
      a record of functions, the two sorts are stable insertion sorts. *)

From Stdlib Require Import QArith Reals Lra Lia Sorted.
From stdpp Require Import base decidable option list gmap strings pretty.

Local Open Scope string_scope.
Local Open Scope list_scope.
Local Open Scope nat_scope.

(** ** Exceptions and the result monad *)

Inductive exn : Type :=
| AssertionError (msg : string)
| IndexError
| KeyError
| TypeError
| ValueError
| UnboundLocalError.

Inductive result (A : Type) : Type :=
| Ok (a : A)
| Raise (e : exn).
Arguments Ok {A} a.
Arguments Raise {A} e.

Definition result_bind {A B : Type} (f : A → result B) (m : result A) : result B :=
  match m with
  | Ok a => f a
  | Raise e => Raise e
  end.

#[export] Instance result_ret : MRet result := @Ok.
#[export] Instance result_mbind : MBind result := @result_bind.

(** [for x in xs: acc = body(acc, x)], stopping at the first exception. *)
Fixpoint for_each {A S : Type} (body : S → A → result S) (xs : list A) (acc : S)
  : result S :=
  match xs with
  | [] => Ok acc
  | x :: xs' => acc' ← body acc x; for_each body xs' acc'
  end.

(** ** Python primitives *)

(** [l[i]] for an index known to be non-negative. *)
Definition index {A : Type} (l : list A) (i : nat) : result A :=
  match l !! i with
  | Some x => Ok x
  | None => Raise IndexError
  end.

(** [l[z]] for a signed index: negative indexes count from the end. *)
Definition py_get {A : Type} (l : list A) (z : Z) : result A :=
  let n := Z.of_nat (length l) in
  if (0 <=? z)%Z then index l (Z.to_nat z)
  else if (- n <=? z)%Z then index l (Z.to_nat (n + z))
  else Raise IndexError.

(** [s[a:b]] on a string, for non-negative [a] and [b]. *)
Definition py_slice (s : string) (a b : nat) : string :=
  String.substring a (b - a) s.

(** [x < y] on scores. *)
Definition Qltb (x y : Q) : bool := negb (Qle_bool y x).

(** Stable insertion sort: [before x y] says that [x] must come strictly
    before [y]. An element is put in front of the first element that does not
    have to come strictly before it, so equal elements keep their order. *)
Fixpoint insert_by {A : Type} (before : A → A → bool) (x : A) (l : list A) : list A :=
  match l with
  | [] => [x]
  | y :: l' => if before y x then y :: insert_by before x l' else x :: y :: l'
  end.

Definition stable_sort {A : Type} (before : A → A → bool) (l : list A) : list A :=
  foldr (insert_by before) [] l.

(** [np.argsort(v)]: the indexes of [v] by ascending value. *)
Definition argsort (v : list Q) : list nat :=
  (stable_sort (λ a b, Qltb a.2 b.2) (imap (λ i x, (i, x)) v)).*1.

(** [np.argsort(v)[-1 : -n - 1 : -1].tolist()]: the last [n] entries of the
    argsort, last one first. *)
Definition top_indexes (v : list Q) (n : nat) : list nat :=
  take n (reverse (argsort v)).

(** ** Data model of the decoder *)

Record Answers : Type := {
  answer_start : list nat;
  answer_text : list string
}.

Record Example : Type := {
  ex_id : string;
  question : string;
  context : string;
  answers : Answers
}.

(** A window of the evaluation set, as a row of the encoded dataset. *)
Record Feature : Type := {
  example_id : string;
  offset_mapping : list (option (nat * nat));
  token_is_max_context : option (gmap string bool)
}.

(** [self.args], the fields of [QuestionAnsweringTrainingArguments] that the
    decoder reads. *)
Record Args : Type := {
  version_2_with_negative : bool;
  null_score_diff_threshold : Q;
  n_best_size : nat;
  max_answer_length : nat
}.

(** A preliminary prediction: the dict with the key ["offsets"]. *)
Record Candidate : Type := {
  offsets : nat * nat;
  score : Q;
  start_logit : Q;
  end_logit : Q
}.

(** A prediction after ["offsets"] has been replaced by ["text"]. *)
Record Prediction : Type := {
  text : string;
  pred_start_logit : Q;
  pred_end_logit : Q;
  pred_score : Q
}.

(** ** Candidate spans of one window (source lines 259-294) *)

(** Line 264-270: the running minimum of the null scores. *)
Definition update_min_null (min_null_prediction : option Candidate)
    (start_logits end_logits : list Q) : result (option Candidate) :=
  s0 ← index start_logits 0;
  e0 ← index end_logits 0;
  let feature_null_score := (s0 + e0)%Q in
  let fresh := {| offsets := (0, 0); score := feature_null_score;
                  start_logit := s0; end_logit := e0 |} in
  match min_null_prediction with
  | None => Ok (Some fresh)
  | Some m => if Qltb feature_null_score (score m) then Ok (Some fresh)
              else Ok min_null_prediction
  end.

(** Lines 276-286: the three [continue] guards; [true] when the pair passes
    all of them. *)
Definition is_absent (om : list (option (nat * nat))) (i : nat) : bool :=
  match om !! i with
  | Some None => true
  | _ => false
  end.

Definition max_context_get (m : gmap string bool) (start_index : nat) : bool :=
  default false (m !! pretty start_index).

Definition span_accepted (args : Args) (f : Feature) (start_index end_index : nat) : bool :=
  let om := offset_mapping f in
  if (length om <=? start_index) || (length om <=? end_index)
     || is_absent om start_index || is_absent om end_index
  then false
  else if (end_index <? start_index)
          || (max_answer_length args <? end_index - start_index + 1)
  then false
  else match token_is_max_context f with
       | Some m => max_context_get m start_index
       | None => true
       end.

(** [o[k]] for an entry of the offset mapping; [None[k]] is a TypeError. *)
Definition offset_of (om : list (option (nat * nat))) (i : nat) : result (nat * nat) :=
  o ← index om i;
  match o with
  | Some p => Ok p
  | None => Raise TypeError
  end.

(** Lines 287-294: the dict appended for an accepted pair. *)
Definition make_candidate (f : Feature) (start_logits end_logits : list Q)
    (start_index end_index : nat) : result Candidate :=
  os ← offset_of (offset_mapping f) start_index;
  oe ← offset_of (offset_mapping f) end_index;
  sl ← index start_logits start_index;
  el ← index end_logits end_index;
  Ok {| offsets := (os.1, oe.2); score := (sl + el)%Q;
        start_logit := sl; end_logit := el |}.

Definition span_step (args : Args) (f : Feature) (start_logits end_logits : list Q)
    (start_index : nat) (prelim : list Candidate) (end_index : nat)
  : result (list Candidate) :=
  if span_accepted args f start_index end_index then
    c ← make_candidate f start_logits end_logits start_index end_index;
    Ok (prelim ++ [c])
  else Ok prelim.

(** Lines 272-294: the double loop over the two top lists. *)
Definition window_candidates (args : Args) (f : Feature) (start_logits end_logits : list Q)
    (prelim : list Candidate) : result (list Candidate) :=
  let start_indexes := top_indexes start_logits (n_best_size args) in
  let end_indexes := top_indexes end_logits (n_best_size args) in
  for_each (λ acc start_index,
              for_each (span_step args f start_logits end_logits start_index)
                       end_indexes acc)
           start_indexes prelim.

(** ** Decoding one example (source lines 254-330) *)

(** Lines 258-294: one window of the example. The state is
    [(min_null_prediction, prelim_predictions)]. *)
Definition feature_step (args : Args) (features : list Feature)
    (all_start_logits all_end_logits : list (list Q))
    (st : option Candidate * list Candidate) (feature_index : nat)
  : result (option Candidate * list Candidate) :=
  start_logits ← index all_start_logits feature_index;
  end_logits ← index all_end_logits feature_index;
  f ← index features feature_index;
  min_null_prediction ← update_min_null st.1 start_logits end_logits;
  prelim ← window_candidates args f start_logits end_logits st.2;
  Ok (min_null_prediction, prelim).

(** [x["score"]] and the like where [x] may be [None]. *)
Definition subscript_null (min_null_prediction : option Candidate) : result Candidate :=
  match min_null_prediction with
  | Some m => Ok m
  | None => Raise TypeError
  end.

(** Line 299: [sorted(prelim, key=score, reverse=True)[:n_best_size]]. *)
Definition rank (args : Args) (prelim : list Candidate) : list Candidate :=
  take (n_best_size args)
       (stable_sort (λ a b, Qltb (score b) (score a)) prelim).

(** Line 300: [any(p["offsets"] == (0, 0) for p in predictions)]. *)
Definition has_null (predictions : list Candidate) : bool :=
  existsb (λ p, bool_decide (offsets p = (0, 0))) predictions.

(** Lines 305-306: pop ["offsets"], set ["text"]. *)
Definition resolve_text (ctx : string) (c : Candidate) : Prediction :=
  {| text := py_slice ctx (offsets c).1 (offsets c).2;
     pred_start_logit := start_logit c;
     pred_end_logit := end_logit c;
     pred_score := score c |}.

(** Line 309: the synthetic entry. *)
Definition placeholder : Prediction :=
  {| text := "empty"; pred_start_logit := 0; pred_end_logit := 0; pred_score := 0 |}.

(** Line 308: the guard of the insertion. *)
Definition needs_placeholder (predictions : list Prediction) : bool :=
  (length predictions =? 0)
  || ((length predictions =? 1)
      && match predictions with
         | p :: _ => String.eqb (text p) ""
         | [] => false
         end).

Definition insert_placeholder (predictions : list Prediction) : list Prediction :=
  if needs_placeholder predictions then placeholder :: predictions else predictions.

(** Lines 254-306: the ranked predictions of one example with their text,
    and the local variable [null_score] ([None] while it is unbound). *)
Definition resolved_predictions (args : Args) (features : list Feature)
    (all_start_logits all_end_logits : list (list Q))
    (feature_indices : list nat) (example : Example)
  : result (list Prediction * option Q) :=
  st ← for_each (feature_step args features all_start_logits all_end_logits)
                feature_indices (None, []);
  let min_null_prediction := st.1 in
  st2 ← (if version_2_with_negative args then
           m ← subscript_null min_null_prediction;
           Ok (st.2 ++ [m], Some (score m))
         else Ok (st.2, None));
  let prelim_predictions := st2.1 in
  let null_score : option Q := st2.2 in
  let predictions := rank args prelim_predictions in
  predictions ← (if version_2_with_negative args && negb (has_null predictions) then
                   m ← subscript_null min_null_prediction;
                   Ok (predictions ++ [m])
                 else Ok predictions);
  Ok (resolve_text (context example) <$> (predictions : list Candidate), null_score).

(** Lines 254-309: the surviving predictions, after the insertion of
    line 308-309. *)
Definition example_predictions (args : Args) (features : list Feature)
    (all_start_logits all_end_logits : list (list Q))
    (feature_indices : list nat) (example : Example)
  : result (list Prediction * option Q) :=
  r ← resolved_predictions args features all_start_logits all_end_logits
                           feature_indices example;
  Ok (insert_placeholder r.1, r.2).

(** Lines 321-323: [i = 0; while predictions[i]["text"] == "": i += 1].
    [rest] is [predictions[i:]]; reading [predictions[i]] past the end is the
    IndexError. *)
Fixpoint skip_empty (rest : list Prediction) (i : nat) : result nat :=
  match rest with
  | [] => Raise IndexError
  | p :: rest' => if String.eqb (text p) "" then skip_empty rest' (S i) else Ok i
  end.

(** Reading a local variable. *)
Definition read_local {A : Type} (v : option A) : result A :=
  match v with
  | Some x => Ok x
  | None => Raise UnboundLocalError
  end.

(** Lines 318-330: the value stored under the example's id. *)
Definition select_answer (args : Args) (predictions : list Prediction)
    (null_score : option Q) : result string :=
  if negb (version_2_with_negative args) then
    p ← index predictions 0;
    Ok (text p)
  else
    i ← skip_empty predictions 0;
    best_non_null_pred ← index predictions i;
    ns ← read_local null_score;
    let score_diff :=
      (ns - pred_start_logit best_non_null_pred - pred_end_logit best_non_null_pred)%Q in
    if Qltb (null_score_diff_threshold args) score_diff then Ok ""
    else Ok (text best_non_null_pred).

(** ** Softmax (source lines 311-316) over the reals

    The decoding of an example needs of this step only whether it raises,
    and [np.max] raises on an empty array whatever the arithmetic is: the
    exact version below is the one that [decode_example] runs. The values
    of the probabilities are those of the floating-point version after
    it. *)

Definition Rsum (l : list R) : R := foldr Rplus 0%R l.

(** [np.max]: a ValueError on an empty array. *)
Definition np_max (l : list R) : result R :=
  match l with
  | [] => Raise ValueError
  | x :: l' => Ok (foldl Rmax x l')
  end.

Definition softmax (scores : list R) : result (list R) :=
  m ← np_max scores;
  let exp_scores := (λ s, exp (s - m)%R) <$> scores in
  Ok ((λ e, (e / Rsum exp_scores)%R) <$> exp_scores).

(** Line 311, 315-316: the probabilities, in the order of the predictions. *)
Definition probabilities (predictions : list Prediction) : result (list R) :=
  softmax ((λ p, Q2R (pred_score p)) <$> predictions).

(** ** Softmax in floating point (source lines 311-313) *)

(** A floating-point number: not a number, an infinity with its sign, or a
    finite number of the format. A zero stands for both signed zeros; they
    differ only as divisors, and the divisor of line 313 is a sum of
    exponentials, which is never the negative zero. *)
Inductive float : Type :=
| NaN
| Inf (negative : bool)
| Num (x : R).

(** The format of the array [scores] (binary64 for an array of Python
    floats): [round] takes a real number to the number of the format that
    the rounding mode picks for it, were the exponent unbounded above, and
    [largest] is the largest finite number of the format. *)
Record FloatFormat : Type := {
  round : R → R;
  largest : R
}.

(** What NumPy computes by its own routines: [exp_finite] is the value of
    [np.exp] at a finite argument, before it is rounded into the format,
    and [array_sum] is [ndarray.sum], which adds the entries up in the
    order that NumPy chooses. *)
Record Numpy : Type := {
  exp_finite : R → R;
  array_sum : list float → float
}.

Definition Rltb (x y : R) : bool := if Rlt_dec x y then true else false.

(** The result of an operation whose exact value is [x]: [x] rounded, or an
    infinity when that is beyond the largest finite number. *)
Definition fl (F : FloatFormat) (x : R) : float :=
  let r := round F x in
  if Rltb (largest F) (Rabs r) then Inf (Rltb r 0) else Num r.

Definition fneg (a : float) : float :=
  match a with
  | NaN => NaN
  | Inf s => Inf (negb s)
  | Num x => Num (- x)
  end.

(** [a + b]: infinities of opposite signs give NaN. *)
Definition fadd (F : FloatFormat) (a b : float) : float :=
  match a, b with
  | NaN, _ | _, NaN => NaN
  | Inf s, Inf t => if Bool.eqb s t then Inf s else NaN
  | Inf s, Num _ | Num _, Inf s => Inf s
  | Num x, Num y => fl F (x + y)
  end.

Definition fsub (F : FloatFormat) (a b : float) : float := fadd F a (fneg b).

(** [a / b] as NumPy divides: no exception, [0 / 0] and [inf / inf] are
    NaN, another number over zero is an infinity. *)
Definition fdiv (F : FloatFormat) (a b : float) : float :=
  match a, b with
  | NaN, _ | _, NaN => NaN
  | Inf _, Inf _ => NaN
  | Inf s, Num y => Inf (xorb s (Rltb y 0))
  | Num _, Inf _ => Num 0
  | Num x, Num y =>
      if Req_dec_T y 0 then (if Req_dec_T x 0 then NaN else Inf (Rltb x 0))
      else fl F (x / y)
  end.

(** [np.maximum]: NaN when either side is NaN. *)
Definition fmax (a b : float) : float :=
  match a, b with
  | NaN, _ | _, NaN => NaN
  | Inf false, _ | _, Inf false => Inf false
  | Inf true, c | c, Inf true => c
  | Num x, Num y => Num (Rmax x y)
  end.

(** [np.max]: a ValueError on an empty array. *)
Definition np_max_float (l : list float) : result float :=
  match l with
  | [] => Raise ValueError
  | a :: l' => Ok (foldl fmax a l')
  end.

(** [np.exp] on one entry. *)
Definition np_exp (F : FloatFormat) (np : Numpy) (a : float) : float :=
  match a with
  | NaN => NaN
  | Inf false => Inf false
  | Inf true => Num 0
  | Num x => fl F (exp_finite np x)
  end.

(** Lines 312-313: [exp_scores = np.exp(scores - np.max(scores))] and
    [probs = exp_scores / exp_scores.sum()]. *)
Definition softmax_float (F : FloatFormat) (np : Numpy) (scores : list float)
  : result (list float) :=
  m ← np_max_float scores;
  let exp_scores := (λ s, np_exp F np (fsub F s m)) <$> scores in
  let total := array_sum np exp_scores in
  Ok ((λ e, fdiv F e total) <$> exp_scores).

(** Line 311: the array of the scores. A score is the sum of two logits;
    the sum that [Q] holds exactly is rounded into the format here. *)
Definition float_scores (F : FloatFormat) (predictions : list Prediction) : list float :=
  (λ p, fl F (Q2R (pred_score p))) <$> predictions.

Definition probabilities_float (F : FloatFormat) (np : Numpy)
    (predictions : list Prediction) : result (list float) :=
  softmax_float F np (float_scores F predictions).

(** ** The decoder (source lines 229-332) *)

(** [d[k] = v] on an [OrderedDict]: a new key goes last, an existing key
    keeps its place. *)
Fixpoint od_set (k v : string) (d : list (string * string)) : list (string * string) :=
  match d with
  | [] => [(k, v)]
  | kv :: d' => if String.eqb kv.1 k then (k, v) :: d' else kv :: od_set k v d'
  end.

(** Line 246: the dict comprehension; a later duplicate key overwrites. *)
Definition example_id_to_index (examples : list Example) : gmap string nat :=
  foldl (λ m ik, <[ik.2 := ik.1]> m) ∅ (imap (λ i e, (i, ex_id e)) examples).

(** Lines 247-249: the [defaultdict(list)] of window indexes per example. *)
Definition group_step (ids : gmap string nat) (fpe : gmap nat (list nat))
    (ifeat : nat * Feature) : result (gmap nat (list nat)) :=
  match ids !! example_id ifeat.2 with
  | Some ei => Ok (<[ei := default [] (fpe !! ei) ++ [ifeat.1]]> fpe)
  | None => Raise KeyError
  end.

Definition features_per_example (examples : list Example) (features : list Feature)
  : result (gmap nat (list nat)) :=
  for_each (group_step (example_id_to_index examples))
           (imap (λ i f, (i, f)) features) ∅.

Definition decode_example (args : Args) (features : list Feature)
    (all_start_logits all_end_logits : list (list Q))
    (feature_indices : list nat) (example : Example) : result string :=
  r ← example_predictions args features all_start_logits all_end_logits
                          feature_indices example;
  _ ← probabilities r.1;
  select_answer args r.1 r.2.

Definition example_step (args : Args) (features : list Feature)
    (all_start_logits all_end_logits : list (list Q)) (fpe : gmap nat (list nat))
    (all_predictions : list (string * string)) (iex : nat * Example)
  : result (list (string * string)) :=
  let feature_indices := default [] (fpe !! iex.1) in
  answer ← decode_example args features all_start_logits all_end_logits
                          feature_indices iex.2;
  Ok (od_set (ex_id iex.2) answer all_predictions).

Definition shape_message : string :=
  "`predictions` should be a tuple with two elements (start_logits, end_logits).".

Definition count_message (n_predictions n_features : nat) : string :=
  "Got " +:+ pretty n_predictions +:+ " predictions and "
         +:+ pretty n_features +:+ " features.".

Definition postprocess_qa_predictions (args : Args) (examples : list Example)
    (features : list Feature) (predictions : list (list (list Q)))
  : result (list (string * string)) :=
  match predictions with
  | [all_start_logits; all_end_logits] =>
      if negb (length all_start_logits =? length features) then
        Raise (AssertionError (count_message (length all_start_logits) (length features)))
      else
        fpe ← features_per_example examples features;
        for_each (example_step args features all_start_logits all_end_logits fpe)
                 (imap (λ i e, (i, e)) examples) []
  | _ => Raise (AssertionError shape_message)
  end.

(** ** Feature building (source lines 17-92) *)

Inductive Truncation : Type := only_first | only_second.

(** What the tokenizer call returns: per window the token ids, the sequence
    role of each token ([None] for special and padding tokens), the character
    offsets, and the example each window was cut from. *)
Record BatchEncoding : Type := {
  input_ids : list (list Z);
  sequence_ids : list (list (option nat));
  enc_offset_mapping : list (list (nat * nat));
  overflow_to_sample_mapping : list nat
}.

Record Tokenizer : Type := {
  cls_token_id : Z;
  encode : list string → list string → Truncation → nat → nat → BatchEncoding
}.

(** Lines 19-28 and 69-78: the tokenizer call. *)
Definition tokenize (tokenizer : Tokenizer) (examples : list Example)
    (pad_on_right : bool) (max_length doc_stride : nat) : BatchEncoding :=
  encode tokenizer
         ((if pad_on_right then question else context) <$> examples)
         ((if pad_on_right then context else question) <$> examples)
         (if pad_on_right then only_second else only_first)
         max_length doc_stride.

(** [l.index(x)]: the first position of [x], a ValueError when absent. *)
Fixpoint list_index (rest : list Z) (x : Z) (i : nat) : result nat :=
  match rest with
  | [] => Raise ValueError
  | y :: rest' => if (y =? x)%Z then Ok i else list_index rest' x (S i)
  end.

(** Lines 48-49: [while sequence_ids[i] != ctx: i += 1]; [rest] is
    [sequence_ids[i:]]. *)
Fixpoint context_start (rest : list (option nat)) (ctx : nat) (i : nat) : result nat :=
  match rest with
  | [] => Raise IndexError
  | r :: rest' => if bool_decide (r ≠ Some ctx) then context_start rest' ctx (S i)
                  else Ok i
  end.

(** [while keep_going(l[z]): z -= 1] on a signed index. Every round lowers
    [z], and [l[z]] raises below [-len(l)], so the [scan_down_fuel] rounds
    are never used up: more fuel gives the same result (lemma
    [scan_down_fuel_enough]). *)
Fixpoint scan_down_loop {A : Type} (fuel : nat) (l : list A) (keep_going : A → bool)
    (z : Z) : result Z :=
  match fuel with
  | O => Raise IndexError
  | S fuel' =>
      x ← py_get l z;
      if keep_going x then scan_down_loop fuel' l keep_going (z - 1) else Ok z
  end.

Definition scan_down_fuel {A : Type} (l : list A) (z : Z) : nat :=
  Z.to_nat (z + Z.of_nat (length l) + 1) + 1.

Definition scan_down {A : Type} (l : list A) (keep_going : A → bool) (z : Z) : result Z :=
  scan_down_loop (scan_down_fuel l z) l keep_going z.

(** Lines 57-58: [while i < len(offsets) and offsets[i][0] <= start_char:
    i += 1]; [rest] is [offsets[i:]]. *)
Fixpoint scan_start (rest : list (nat * nat)) (start_char : nat) (i : nat) : nat :=
  match rest with
  | [] => i
  | o :: rest' => if o.1 <=? start_char then scan_start rest' start_char (S i) else i
  end.

(** Lines 36-62: the labels of window [i]. *)
Definition window_labels (tokenizer : Tokenizer) (pad_on_right : bool)
    (examples : list Example) (enc : BatchEncoding) (i : nat)
    (offsets : list (nat * nat)) : result (Z * Z) :=
  ids ← index (input_ids enc) i;
  cls_index ← list_index ids (cls_token_id tokenizer) 0;
  seq_ids ← index (sequence_ids enc) i;
  sample_index ← index (overflow_to_sample_mapping enc) i;
  example ← index examples sample_index;
  let ans := answers example in
  if length (answer_start ans) =? 0 then
    Ok (Z.of_nat cls_index, Z.of_nat cls_index)
  else
    start_char ← index (answer_start ans) 0;
    txt ← index (answer_text ans) 0;
    let end_char := start_char + String.length txt in
    let ctx := if pad_on_right then 1 else 0 in
    token_start_index ← context_start seq_ids ctx 0;
    token_end_index ← scan_down seq_ids (λ r, bool_decide (r ≠ Some ctx))
                                (Z.of_nat (length ids) - 1);
    o_start ← index offsets token_start_index;
    inside ← (if o_start.1 <=? start_char then
                o_end ← py_get offsets token_end_index;
                Ok (end_char <=? o_end.2)
              else Ok false);
    if negb inside then
      Ok (Z.of_nat cls_index, Z.of_nat cls_index)
    else
      let token_start_index :=
        scan_start (drop token_start_index offsets) start_char token_start_index in
      token_end_index ← scan_down offsets (λ o, end_char <=? o.2) token_end_index;
      Ok ((Z.of_nat token_start_index - 1)%Z, (token_end_index + 1)%Z).

(** The encoding with its two label columns. *)
Record TrainFeatures : Type := {
  train_input_ids : list (list Z);
  start_positions : list Z;
  end_positions : list Z
}.

Definition prepare_train_features (examples : list Example) (tokenizer : Tokenizer)
    (pad_on_right : bool) (max_length doc_stride : nat) : result TrainFeatures :=
  let enc := tokenize tokenizer examples pad_on_right max_length doc_stride in
  labels ← for_each (λ acc io,
                       lab ← window_labels tokenizer pad_on_right examples enc io.1 io.2;
                       Ok (acc.1 ++ [lab.1], acc.2 ++ [lab.2]))
                    (imap (λ i o, (i, o)) (enc_offset_mapping enc)) ([], []);
  Ok {| train_input_ids := input_ids enc;
        start_positions := labels.1;
        end_positions := labels.2 |}.

(** Lines 87-90: the offsets of one window with the entries of the other
    tokens replaced by [None]. *)
Definition mask_step (seq_ids : list (option nat)) (context_index : nat)
    (acc : list (option (nat * nat))) (ko : nat * (nat * nat))
  : result (list (option (nat * nat))) :=
  r ← index seq_ids ko.1;
  Ok (acc ++ [if bool_decide (r = Some context_index) then Some ko.2 else None]).

Definition mask_offsets (seq_ids : list (option nat)) (context_index : nat)
    (offs : list (nat * nat)) : result (list (option (nat * nat))) :=
  for_each (mask_step seq_ids context_index) (imap (λ k o, (k, o)) offs) [].

(** The encoding with the column ["example_id"] and the rewritten offsets. *)
Record ValidationFeatures : Type := {
  val_input_ids : list (list Z);
  val_example_id : list string;
  val_offset_mapping : list (list (option (nat * nat)))
}.

(** Lines 83-90: window [i]; the state is the column ["example_id"] and the
    column ["offset_mapping"]. *)
Definition validation_step (pad_on_right : bool) (examples : list Example)
    (enc : BatchEncoding)
    (st : list string * list (list (option (nat * nat)))) (i : nat)
  : result (list string * list (list (option (nat * nat)))) :=
  seq_ids ← index (sequence_ids enc) i;
  let context_index := if pad_on_right then 1 else 0 in
  sample_index ← index (overflow_to_sample_mapping enc) i;
  example ← index examples sample_index;
  offs ← index (enc_offset_mapping enc) i;
  masked ← mask_offsets seq_ids context_index offs;
  Ok (st.1 ++ [ex_id example], <[i := masked]> st.2).

Definition prepare_validation_features (examples : list Example) (tokenizer : Tokenizer)
    (pad_on_right : bool) (max_length doc_stride : nat) : result ValidationFeatures :=
  let enc := tokenize tokenizer examples pad_on_right max_length doc_stride in
  st ← for_each (validation_step pad_on_right examples enc)
                (seq 0 (length (input_ids enc)))
                ([], (λ offs : list (nat * nat), Some <$> offs) <$> enc_offset_mapping enc);
  Ok {| val_input_ids := input_ids enc;
        val_example_id := st.1;
        val_offset_mapping := st.2 |}.

(** The rows of the encoded evaluation set, as the decoder reads them. *)
Definition feature_rows (v : ValidationFeatures) : list Feature :=
  zip_with (λ k om, {| example_id := k; offset_mapping := om;
                       token_is_max_context := None |})
           (val_example_id v) (val_offset_mapping v).

(** ** The trainer (source lines 141-226) *)

(** A Python dict with string keys, in insertion order. *)
Fixpoint dict_get {V : Type} (k : string) (d : list (string * V)) : option V :=
  match d with
  | [] => None
  | kv :: d' => if String.eqb kv.1 k then Some kv.2 else dict_get k d'
  end.

(** [d[k] = v]. *)
Fixpoint dict_set {V : Type} (k : string) (v : V) (d : list (string * V))
  : list (string * V) :=
  match d with
  | [] => [(k, v)]
  | kv :: d' => if String.eqb kv.1 k then (k, v) :: d' else kv :: dict_set k v d'
  end.

(** [d.pop(k)]: the value and the dict without the key; KeyError when the
    key is absent. *)
Fixpoint dict_pop {V : Type} (k : string) (d : list (string * V))
  : result (V * list (string * V)) :=
  match d with
  | [] => Raise KeyError
  | kv :: d' =>
      if String.eqb kv.1 k then Ok (kv.2, d')
      else r ← dict_pop k d'; Ok (r.1, kv :: r.2)
  end.

(** A metric is a number, or the text that line 170 stores. *)
Inductive MetricValue : Type :=
| MetricNumber (x : Q)
| MetricText (s : string).

(** Lines 176-178: [for key in list(metrics.keys()): if not
    key.startswith("eval_"): metrics["eval_" + key] = metrics.pop(key)]. *)
Definition prefix_step {V : Type} (metrics : list (string * V)) (key : string)
  : result (list (string * V)) :=
  if negb (String.prefix "eval_" key) then
    r ← dict_pop key metrics;
    Ok (dict_set ("eval_" ++ key)%string r.1 r.2)
  else Ok metrics.

Definition prefix_keys {V : Type} (metrics : list (string * V))
  : result (list (string * V)) :=
  for_each prefix_step metrics.*1 metrics.

(** The entries of [EvalPrediction.predictions]; the key
    ["no_answer_probability"] is only there in version-2 mode. *)
Record FormattedPrediction : Type := {
  fp_id : string;
  prediction_text : string;
  no_answer_probability : option Q
}.

Record Reference : Type := {
  ref_id : string;
  ref_answers : Answers
}.

Record EvalPrediction : Type := {
  ep_predictions : list FormattedPrediction;
  ep_label_ids : list Reference
}.

(** The fields of the trainer that the methods read; [compute_metrics] is the
    caller's function. *)
Record Trainer : Type := {
  trainer_args : Args;
  trainer_eval_dataset : option (list Feature);
  trainer_eval_examples : option (list Example);
  compute_metrics : option (EvalPrediction → list (string * MetricValue))
}.

(** [_postprocess_qa_predictions] on examples that may be [None]: the two
    assertions come first, then [examples["id"]] is a TypeError. *)
Definition postprocess_examples (args : Args) (examples : option (list Example))
    (features : list Feature) (predictions : list (list (list Q)))
  : result (list (string * string)) :=
  match examples with
  | Some exs => postprocess_qa_predictions args exs features predictions
  | None =>
      match predictions with
      | [all_start_logits; all_end_logits] =>
          if negb (length all_start_logits =? length features) then
            Raise (AssertionError
                     (count_message (length all_start_logits) (length features)))
          else Raise TypeError
      | _ => Raise (AssertionError shape_message)
      end
  end.

(** Lines 207-226. The references are built from [self.eval_examples]. *)
Definition post_process_function (self : Trainer) (examples : option (list Example))
    (features : list Feature) (predictions : list (list (list Q)))
  : result EvalPrediction :=
  answers_by_id ← postprocess_examples (trainer_args self) examples features predictions;
  let formatted_predictions :=
    if version_2_with_negative (trainer_args self) then
      (λ kv, {| fp_id := kv.1; prediction_text := kv.2;
                no_answer_probability := Some 0%Q |}) <$> answers_by_id
    else
      (λ kv, {| fp_id := kv.1; prediction_text := kv.2;
                no_answer_probability := None |}) <$> answers_by_id in
  eval_examples ← match trainer_eval_examples self with
                  | Some exs => Ok exs
                  | None => Raise TypeError
                  end;
  let references :=
    (λ ex, {| ref_id := ex_id ex; ref_answers := answers ex |}) <$> eval_examples in
  Ok {| ep_predictions := formatted_predictions; ep_label_ids := references |}.

(** [a if b is None else b]. *)
Definition or_default {A : Type} (given fallback : option A) : option A :=
  match given with
  | None => fallback
  | Some _ => given
  end.

(** Lines 146-181: the metrics that [evaluate] returns. The framework is a
    parameter: [prediction_loop] gives [output.predictions], [log] is
    [self.log] of line 172 and [on_evaluate] the callback handler of
    line 180. Both are handed the dict [metrics] itself and may change it
    (the framework's [log] writes an ["epoch"] entry into it, a callback may
    pop entries), so each is a function from the dict that is handed over to
    the dict as it is left, or an exception. [get_eval_dataloader] raises
    ValueError without a dataset. *)
Definition evaluate (self : Trainer)
    (prediction_loop : list Feature → result (list (list (list Q))))
    (log on_evaluate : list (string * MetricValue) → result (list (string * MetricValue)))
    (eval_dataset : option (list Feature)) (eval_examples : option (list Example))
  : result (list (string * MetricValue)) :=
  eval_dataset ← match or_default eval_dataset (trainer_eval_dataset self) with
                 | Some d => Ok d
                 | None => Raise ValueError
                 end;
  let eval_examples := or_default eval_examples (trainer_eval_examples self) in
  output ← prediction_loop eval_dataset;
  metrics ← match compute_metrics self with
            | Some compute =>
                eval_preds ← post_process_function self eval_examples eval_dataset output;
                log (dict_set "eval_loss" (MetricText "No log") (compute eval_preds))
            | None => Ok []
            end;
  metrics ← prefix_keys metrics;
  on_evaluate metrics.

(** What [predict] returns: the raw output of the prediction loop, or the
    processed predictions with their metrics. *)
Inductive PredictionOutput : Type :=
| RawOutput (predictions : list (list (list Q)))
| ProcessedOutput (predictions : list FormattedPrediction)
                  (label_ids : list Reference)
                  (metrics : list (string * MetricValue)).

(** Lines 183-204. *)
Definition predict (self : Trainer)
    (prediction_loop : list Feature → result (list (list (list Q))))
    (test_dataset : list Feature) (test_examples : option (list Example))
  : result PredictionOutput :=
  output ← prediction_loop test_dataset;
  match compute_metrics self with
  | None => Ok (RawOutput output)
  | Some compute =>
      eval_preds ← post_process_function self test_examples test_dataset output;
      Ok (ProcessedOutput (ep_predictions eval_preds) (ep_label_ids eval_preds)
                          (compute eval_preds))
  end.

(** * Concrete inputs *)

(** One example and its single window [[CLS] Paris is big [SEP]], whose
    offsets align tokens with characters; the logits peak at ["Paris"]. *)
Definition no_answers : Answers := {| answer_start := []; answer_text := [] |}.

Definition paris_example : Example :=
  {| ex_id := "q1"; question := "What is big?"; context := "Paris is big";
     answers := no_answers |}.

Definition paris_window : Feature :=
  {| example_id := "q1";
     offset_mapping := [None; Some (0, 5); Some (6, 8); Some (9, 12); None];
     token_is_max_context := None |}.

Definition paris_start_logits : list Q := [0; 5; 1; 1; 0]%Q.
Definition paris_end_logits : list Q := [0; 5; 1; 2; 0]%Q.

Definition default_args (v2 : bool) (threshold : Q) : Args :=
  {| version_2_with_negative := v2; null_score_diff_threshold := threshold;
     n_best_size := 20; max_answer_length := 30 |}.

(** The surviving predictions of the scenario, in version-2 mode and
    outside it. *)
Definition paris_predictions_v2 : list Prediction :=
  Eval vm_compute in
    match example_predictions (default_args true 0) [paris_window]
            [paris_start_logits] [paris_end_logits] [0] paris_example with
    | Ok r => r.1
    | Raise _ => []
    end.

Definition paris_predictions_v1 : list Prediction :=
  Eval vm_compute in
    match example_predictions (default_args false 0) [paris_window]
            [paris_start_logits] [paris_end_logits] [0] paris_example with
    | Ok r => r.1
    | Raise _ => []
    end.

(** The candidate spans of the window, in the order of the double loop. *)
Definition paris_candidates : list Candidate :=
  Eval vm_compute in
    match window_candidates (default_args false 0) paris_window
            paris_start_logits paris_end_logits [] with
    | Ok r => r
    | Raise _ => []
    end.

(** A second example, ["Rome is old"], cut into two windows: the first,
    [[CLS] Rome is [SEP]], and a second one, [[CLS] is old [SEP]], whose
    logits peak at ["old"] with a higher score. *)
Definition rome_example : Example :=
  {| ex_id := "q2"; question := "What is old?"; context := "Rome is old";
     answers := no_answers |}.

Definition rome_window : Feature :=
  {| example_id := "q2";
     offset_mapping := [None; Some (0, 4); Some (5, 7); None];
     token_is_max_context := None |}.

Definition rome_margin : Feature :=
  {| example_id := "q2";
     offset_mapping := [None; Some (5, 7); Some (8, 11); None];
     token_is_max_context := None |}.

Definition rome_start_logits : list Q := [0; 4; 1; 0]%Q.
Definition rome_end_logits : list Q := [0; 4; 1; 0]%Q.
Definition margin_logits : list Q := [0; 1; 6; 0]%Q.

(** A window [[CLS] t [SEP]] whose only context token [t] covers no
    character. *)
Definition zero_width_example : Example :=
  {| ex_id := "q1"; question := "What?"; context := "Paris"; answers := no_answers |}.

Definition zero_width_window : Feature :=
  {| example_id := "q1";
     offset_mapping := [None; Some (0, 0); None];
     token_is_max_context := None |}.

Definition zero_width_args : Args := default_args true 0.

(** A window [[CLS] Who [SEP] Hello world [SEP] [PAD]] of the context
    ["Hello world"], padded to seven tokens; special and padding tokens have
    the offset (0, 0), as fast tokenizers give them. The answer ["world"]
    starts at character 6 and is the last context token, token 4. *)
Definition last_word_encoding : BatchEncoding :=
  {| input_ids := [[101; 2040; 102; 7592; 2088; 102; 0]%Z];
     sequence_ids := [[None; Some 0; None; Some 1; Some 1; None; None]];
     enc_offset_mapping := [[(0, 0); (0, 3); (0, 0); (0, 5); (6, 11); (0, 0); (0, 0)]];
     overflow_to_sample_mapping := [0] |}.

Definition last_word_tokenizer : Tokenizer :=
  {| cls_token_id := 101; encode := λ _ _ _ _ _, last_word_encoding |}.

Definition last_word_example : Example :=
  {| ex_id := "q1"; question := "Who"; context := "Hello world";
     answers := {| answer_start := [6]; answer_text := ["world"] |} |}.

(** The validation windows of that encoding. *)
Definition last_word_validation : ValidationFeatures :=
  {| val_input_ids := [[101; 2040; 102; 7592; 2088; 102; 0]%Z];
     val_example_id := ["q1"];
     val_offset_mapping :=
       [[None; None; None; Some (0, 5); Some (6, 11); None; None]] |}.

(** The same window for an answer at the start of the context. *)
Definition first_word_example : Example :=
  {| ex_id := "q1"; question := "Who"; context := "Hello world";
     answers := {| answer_start := [0]; answer_text := ["Hello"] |} |}.

(** A format that rounds for the softmax step: fixed point with ten binary
    places, rounded to the nearest, and the largest number 1000000. Its
    exponential is the exact one, rounded into the format by [np_exp], and
    its sum adds the entries from left to right. *)
Definition fixed_point : FloatFormat :=
  {| round := λ x, (IZR (Zfloor (x * 1024 + / 2)) / 1024)%R;
     largest := 1000000 |}.

Definition sequential_sum (F : FloatFormat) (l : list float) : float :=
  match l with
  | [] => Num 0
  | a :: l' => foldl (fadd F) a l'
  end.

Definition fixed_point_numpy : Numpy :=
  {| exp_finite := exp; array_sum := sequential_sum fixed_point |}.

(** * Specification predicates *)

(** The conditions a (start, end) pair has to meet in a window: both indexes
    inside the offset mapping, both offsets present, start before end, at
    most [max_answer_length] tokens and, where the window has a max-context
    marker, the marker set for the start token. *)
Definition valid_span (args : Args) (f : Feature) (start_index end_index : nat) : Prop :=
  start_index < length (offset_mapping f)
  ∧ end_index < length (offset_mapping f)
  ∧ (∃ o, offset_mapping f !! start_index = Some (Some o))
  ∧ (∃ o, offset_mapping f !! end_index = Some (Some o))
  ∧ start_index ≤ end_index
  ∧ end_index - start_index + 1 ≤ max_answer_length args
  ∧ (∀ m, token_is_max_context f = Some m → m !! pretty start_index = Some true).

(** The candidate of a pair: the characters from the start of the start token
    to the end of the end token, scored by the sum of the two logits. *)
Definition candidate_of (f : Feature) (start_logits end_logits : list Q)
    (pair : nat * nat) (c : Candidate) : Prop :=
  ∃ o_start o_end sl el,
    offset_mapping f !! pair.1 = Some (Some o_start)
    ∧ offset_mapping f !! pair.2 = Some (Some o_end)
    ∧ start_logits !! pair.1 = Some sl
    ∧ end_logits !! pair.2 = Some el
    ∧ c = {| offsets := (o_start.1, o_end.2); score := (sl + el)%Q;
             start_logit := sl; end_logit := el |}.

(** The same configuration with another [null_score_diff_threshold]. *)
Definition with_threshold (args : Args) (t : Q) : Args :=
  {| version_2_with_negative := version_2_with_negative args;
     null_score_diff_threshold := t;
     n_best_size := n_best_size args;
     max_answer_length := max_answer_length args |}.

(** A result that is not a failed assertion. *)
Definition no_assertion {A : Type} (r : result A) : Prop :=
  ∀ msg, r ≠ Raise (AssertionError msg).

(** Two answer mappings with the same keys in the same order, where every
    non-empty answer of the first is the answer of the second. *)
Definition keeps_answers (m1 m2 : list (string * string)) : Prop :=
  Forall2 (λ kv1 kv2, kv1.1 = kv2.1 ∧ (kv1.2 ≠ "" → kv2.2 = kv1.2)) m1 m2.

(** Line 88 as a function of the position: the offset is kept where the
    sequence role of the token is the context side. *)
Definition mask_entry (seq_ids : list (option nat)) (context_index : nat)
    (k : nat) (o : nat * nat) : option (nat * nat) :=
  if bool_decide (seq_ids !! k = Some (Some context_index)) then Some o else None.

(** The token pair [(s, e)] lies in the context range and covers the
    characters [[start_char, end_char)]. *)
Definition covering_pair (seq_ids : list (option nat)) (ctx : nat)
    (offsets : list (nat * nat)) (start_char end_char s e : nat) : Prop :=
  seq_ids !! s = Some (Some ctx)
  ∧ seq_ids !! e = Some (Some ctx)
  ∧ ∃ o_start o_end,
      offsets !! s = Some o_start ∧ offsets !! e = Some o_end
      ∧ o_start.1 ≤ start_char ∧ end_char ≤ o_end.2.

(** The tightest such pair: every covering pair starts no later and ends no
    earlier. *)
Definition tightest_pair (seq_ids : list (option nat)) (ctx : nat)
    (offsets : list (nat * nat)) (start_char end_char s e : nat) : Prop :=
  covering_pair seq_ids ctx offsets start_char end_char s e
  ∧ ∀ s' e', covering_pair seq_ids ctx offsets start_char end_char s' e' →
             s' ≤ s ∧ e ≤ e'.

(** The caller's contract of the decoder: one row of start logits and one
    of end logits per window, no empty row, and every window cut from one of
    the examples. *)
Definition well_shaped (examples : list Example) (features : list Feature)
    (all_start_logits all_end_logits : list (list Q)) : Prop :=
  length all_start_logits = length features
  ∧ length all_end_logits = length features
  ∧ Forall (λ f, example_id f ∈ ex_id <$> examples) features
  ∧ Forall (λ row, row ≠ []) all_start_logits
  ∧ Forall (λ row, row ≠ []) all_end_logits.

(** What the loop of lines 82-90 has done to window [i]. *)
Definition window_done (pad_on_right : bool) (examples : list Example)
    (enc : BatchEncoding) (ids : list string)
    (oms : list (list (option (nat * nat)))) (i : nat) : Prop :=
  ∃ seq_ids offs sample example masked,
    sequence_ids enc !! i = Some seq_ids
    ∧ enc_offset_mapping enc !! i = Some offs
    ∧ overflow_to_sample_mapping enc !! i = Some sample
    ∧ examples !! sample = Some example
    ∧ ids !! i = Some (ex_id example)
    ∧ oms !! i = Some masked
    ∧ mask_offsets seq_ids (if pad_on_right then 1 else 0) offs = Ok masked.

(** The logits of window [i] at the sentinel position 0. *)
Definition window_null_logits (all_start_logits all_end_logits : list (list Q))
    (i : nat) (s0 e0 : Q) : Prop :=
  ∃ start_logits end_logits,
    all_start_logits !! i = Some start_logits
    ∧ all_end_logits !! i = Some end_logits
    ∧ start_logits !! 0 = Some s0
    ∧ end_logits !! 0 = Some e0.

(** [m] is the null candidate of the windows [feature_indices]: it carries
    the logits of the first window with the least null score. *)
Definition min_null_of (all_start_logits all_end_logits : list (list Q))
    (feature_indices : list nat) (m : Candidate) : Prop :=
  offsets m = (0, 0)
  ∧ score m = (start_logit m + end_logit m)%Q
  ∧ ∃ k i,
      feature_indices !! k = Some i
      ∧ window_null_logits all_start_logits all_end_logits i
                           (start_logit m) (end_logit m)
      ∧ ∀ k' i' s0 e0,
          feature_indices !! k' = Some i' →
          window_null_logits all_start_logits all_end_logits i' s0 e0 →
          (score m <= s0 + e0)%Q ∧ (k' < k → (score m < s0 + e0)%Q).

(** The score of a candidate is the sum of its two logits. *)
Definition score_is_sum (c : Candidate) : Prop :=
  score c = (start_logit c + end_logit c)%Q.

(** The windows of the example at position [ei]: the positions, in
    increasing order, of the windows whose [example_id] the dict of line 246
    sends to [ei]. *)
Definition windows_of (examples : list Example) (features : list Feature)
    (ei : nat) : list nat :=
  filter (λ i, features !! i ≫= (λ f, example_id_to_index examples !! example_id f)
               = Some ei)
         (seq 0 (length features)).

(** The entry [kv] of the returned mapping belongs to the example [ie.2] at
    position [ie.1]: it has the example's id, and its answer is the decoding
    of the example from its own windows. *)
Definition entry_of (args : Args) (examples : list Example) (features : list Feature)
    (all_start_logits all_end_logits : list (list Q))
    (ie : nat * Example) (kv : string * string) : Prop :=
  kv.1 = ex_id ie.2
  ∧ decode_example args features all_start_logits all_end_logits
                   (windows_of examples features ie.1) ie.2 = Ok kv.2.

(** The entries of [l] at the positions [indices], in the order of
    [indices]. *)
Definition rows_at {A : Type} (l : list A) (indices : list nat) : list A :=
  omap (λ i, l !! i) indices.

(** The entry [kv] of the returned mapping is the decoding of the example
    [ie.2] at position [ie.1] from nothing but its own windows and their
    logits: the input of the decoding is cut down to the rows of the
    example's windows, numbered from 0. *)
Definition entry_alone (args : Args) (examples : list Example) (features : list Feature)
    (all_start_logits all_end_logits : list (list Q))
    (ie : nat * Example) (kv : string * string) : Prop :=
  let own := windows_of examples features ie.1 in
  kv.1 = ex_id ie.2
  ∧ decode_example args (rows_at features own) (rows_at all_start_logits own)
                   (rows_at all_end_logits own) (seq 0 (length own)) ie.2
    = Ok kv.2.

(** [c] is the candidate of a valid span of one of the windows
    [feature_indices], whose two ends are among the top [n_best_size] start
    and end positions of that window. *)
Definition span_of (args : Args) (features : list Feature)
    (all_start_logits all_end_logits : list (list Q)) (feature_indices : list nat)
    (c : Candidate) : Prop :=
  ∃ i f start_logits end_logits s e,
    i ∈ feature_indices
    ∧ features !! i = Some f
    ∧ all_start_logits !! i = Some start_logits
    ∧ all_end_logits !! i = Some end_logits
    ∧ s ∈ top_indexes start_logits (n_best_size args)
    ∧ e ∈ top_indexes end_logits (n_best_size args)
    ∧ valid_span args f s e
    ∧ candidate_of f start_logits end_logits (s, e) c.

(** [j] is the first position of [x] in [l]. *)
Definition first_position {A : Type} (l : list A) (x : A) (j : nat) : Prop :=
  l !! j = Some x ∧ ∀ k, k < j → l !! k ≠ Some x.

(** [te] is the first index at or below [top], in Python's signed indexing,
    whose sequence role is the context side. *)
Definition last_context (seq_ids : list (option nat)) (ctx : nat) (top te : Z) : Prop :=
  py_get seq_ids te = Ok (Some ctx)
  ∧ (te <= top)%Z
  ∧ ∀ z, (te < z <= top)%Z → ∃ r, py_get seq_ids z = Ok r ∧ r ≠ Some ctx.

(** The character span [[start_char, end_char)] lies between the start of
    token [ts] and the end of token [te]. *)
Definition answer_inside (offsets : list (nat * nat)) (start_char end_char : nat)
    (ts : nat) (te : Z) : Prop :=
  ∃ o_start o_end,
    offsets !! ts = Some o_start ∧ py_get offsets te = Ok o_end
    ∧ o_start.1 ≤ start_char ∧ end_char ≤ o_end.2.

(** What lines 57-62 label: [s] ends the run of tokens from [ts] on whose
    start offset is at most [start_char], and [e] begins the run of tokens
    down from [te] whose end offset is at least [end_char]. *)
Definition run_labels (offsets : list (nat * nat)) (start_char end_char : nat)
    (ts : nat) (te : Z) (s e : Z) : Prop :=
  (∃ sn : nat,
     s = Z.of_nat sn ∧ ts ≤ sn < length offsets
     ∧ (∀ k o, ts ≤ k ≤ sn → offsets !! k = Some o → o.1 ≤ start_char)
     ∧ (∀ o, offsets !! S sn = Some o → start_char < o.1))
  ∧ (e <= te)%Z
  ∧ (∀ z, (e <= z <= te)%Z → ∃ o, py_get offsets z = Ok o ∧ end_char ≤ o.2)
  ∧ (∃ o, py_get offsets (e - 1) = Ok o ∧ o.2 < end_char).

(** The labels [(s, e)] of a window with token ids [ids], sequence roles
    [seq_ids] and offsets [offsets], cut from [example]: the position of the
    CLS token when the example has no answer or its first answer is not
    inside the context tokens of the window, the ends of the two runs of
    [run_labels] otherwise. *)
Definition labels_of (tokenizer : Tokenizer) (pad_on_right : bool)
    (ids : list Z) (seq_ids : list (option nat)) (offsets : list (nat * nat))
    (example : Example) (s e : Z) : Prop :=
  ∃ cls,
    first_position ids (cls_token_id tokenizer) cls
    ∧ ((answer_start (answers example) = []
        ∧ s = Z.of_nat cls ∧ e = Z.of_nat cls)
       ∨ ∃ start_char txt ts te,
           answer_start (answers example) !! 0 = Some start_char
           ∧ answer_text (answers example) !! 0 = Some txt
           ∧ first_position seq_ids (Some (if pad_on_right then 1 else 0)) ts
           ∧ last_context seq_ids (if pad_on_right then 1 else 0)
                          (Z.of_nat (length ids) - 1) te
           ∧ let end_char := start_char + String.length txt in
             (¬ answer_inside offsets start_char end_char ts te
              ∧ s = Z.of_nat cls ∧ e = Z.of_nat cls)
             ∨ (answer_inside offsets start_char end_char ts te
                ∧ run_labels offsets start_char end_char ts te s e)).

(** The key [k] of the returned metrics comes from the key [k0] of the
    computed ones: [k0] itself when it has the prefix, ["eval_" + k0]
    otherwise. *)
Definition prefixed_key (k0 : string) : string :=
  if String.prefix "eval_" k0 then k0 else ("eval_" ++ k0)%string.

(** Every span of the window, from the start of a present offset to the end
    of a present offset not before it, is a non-empty piece of the context
    [ctx]. *)
Definition spans_nonempty (ctx : string) (f : Feature) : Prop :=
  ∀ s t o_start o_end,
    s ≤ t →
    offset_mapping f !! s = Some (Some o_start) →
    offset_mapping f !! t = Some (Some o_end) →
    py_slice ctx o_start.1 o_end.2 ≠ "".

(** [x] is a number of the format. *)
Definition representable (F : FloatFormat) (x : R) : Prop := round F x = x.

(** An order of additions: the entries at the leaves, one addition at every
    node. *)
Inductive sum_tree : Type :=
| Leaf (a : float)
| Node (l r : sum_tree).

Fixpoint leaves (t : sum_tree) : list float :=
  match t with
  | Leaf a => [a]
  | Node l r => leaves l ++ leaves r
  end.

Fixpoint tree_sum (F : FloatFormat) (t : sum_tree) : float :=
  match t with
  | Leaf a => a
  | Node l r => fadd F (tree_sum F l) (tree_sum F r)
  end.

Fixpoint additions (t : sum_tree) : nat :=
  match t with
  | Leaf _ => 0
  | Node l r => S (additions l + additions r)
  end.

(** The real number that a finite floating-point number is. *)
Definition value (a : float) : R :=
  match a with
  | Num x => x
  | _ => 0%R
  end.

Definition is_finite (a : float) : Prop := ∃ x, a = Num x.

(** A finite number between 0 and 1. *)
Definition unit_float (a : float) : Prop := ∃ x, a = Num x ∧ (0 <= x <= 1)%R.

(** A finite number of the format that is not negative. *)
Definition summand (F : FloatFormat) (a : float) : Prop :=
  ∃ x, a = Num x ∧ (0 <= x)%R ∧ representable F x.

(** How far from 1 the sum of [n] probabilities can be, for the unit
    roundoff [u] and the underflow unit [eta] of the format: about
    [n * u + n * eta]. *)
Definition tolerance (u eta : R) (n : nat) : R :=
  ((1 + u) / (1 - u) ^ (n - 1) - 1 + INR n * eta)%R.

(** * Properties *)

(** ** The result monad and the loops *)

Lemma bind_Ok {A B : Type} (m : result A) (k : A → result B) (b : B) :
  m ≫= k = Ok b ↔ ∃ a, m = Ok a ∧ k a = Ok b.
Proof.
  destruct m as [a|e]; unfold mbind, result_mbind, result_bind; split.
  - intros H. exists a. by split.
  - intros (a' & [= <-] & H). exact H.
  - intros H. discriminate H.
  - intros (a' & H & _). discriminate H.
Qed.

Lemma bind_Raise {A B : Type} (m : result A) (k : A → result B) (e : exn) :
  m ≫= k = Raise e ↔ m = Raise e ∨ ∃ a, m = Ok a ∧ k a = Raise e.
Proof.
  destruct m as [a|e']; unfold mbind, result_mbind, result_bind; split.
  - intros H. right. exists a. by split.
  - intros [H | (a' & Ha & H)]; [discriminate H|].
    injection Ha as <-. exact H.
  - intros [= ->]. by left.
  - intros [[= ->] | (a' & H & _)]; [done | discriminate H].
Qed.

Lemma index_Ok {A : Type} (l : list A) (i : nat) (x : A) :
  index l i = Ok x ↔ l !! i = Some x.
Proof. unfold index. destruct (l !! i); split; congruence. Qed.

Lemma index_lt {A : Type} (l : list A) (i : nat) :
  i < length l → ∃ x, index l i = Ok x ∧ l !! i = Some x.
Proof.
  intros H. destruct (lookup_lt_is_Some_2 l i H) as [x Hx].
  exists x. split; [by apply index_Ok | exact Hx].
Qed.

Lemma for_each_cons {A S : Type} (body : S → A → result S) (x : A) (xs : list A)
    (acc : S) :
  for_each body (x :: xs) acc = body acc x ≫= for_each body xs.
Proof. reflexivity. Qed.

Lemma for_each_app {A S : Type} (body : S → A → result S) (xs ys : list A) (acc : S) :
  for_each body (xs ++ ys) acc = for_each body xs acc ≫= for_each body ys.
Proof.
  revert acc. induction xs as [|x xs IH]; intros acc; simpl; [done|].
  destruct (body acc x) as [acc'|e]; simpl; [apply IH | done].
Qed.

(** A loop invariant that every round keeps holds at the end. *)
Lemma for_each_invariant {A S : Type} (body : S → A → result S) (I : S → Prop)
    (xs : list A) (acc acc' : S) :
  (∀ s x s', x ∈ xs → I s → body s x = Ok s' → I s') →
  I acc → for_each body xs acc = Ok acc' → I acc'.
Proof.
  revert acc. induction xs as [|x xs IH]; intros acc Hstep Hacc Hrun; simpl in Hrun.
  - by injection Hrun as <-.
  - apply bind_Ok in Hrun as (s1 & Hb & Hrest).
    apply (IH s1); [|by eapply Hstep; [left| |]|done].
    intros s y s' Hy. apply Hstep. by right.
Qed.

(** ** The two sorts only permute *)

Lemma insert_by_perm {A : Type} (before : A → A → bool) (x : A) (l : list A) :
  insert_by before x l ≡ₚ x :: l.
Proof.
  induction l as [|y l IH]; simpl; [done|].
  destruct (before y x); [|done].
  rewrite IH. apply Permutation_swap.
Qed.

Lemma stable_sort_perm {A : Type} (before : A → A → bool) (l : list A) :
  stable_sort before l ≡ₚ l.
Proof.
  induction l as [|x l IH]; simpl; [done|].
  unfold stable_sort in *. simpl. by rewrite insert_by_perm, IH.
Qed.

Lemma imap_fst_seq {A : Type} (l : list A) (n : nat) :
  (imap (λ i x, (n + i, x)) l).*1 = seq n (length l).
Proof.
  revert n. induction l as [|x l IH]; intros n; simpl; [done|].
  f_equal; [lia|].
  rewrite <- (IH (S n)). f_equal. apply imap_ext. intros i y _. simpl. f_equal. lia.
Qed.

Lemma argsort_perm (v : list Q) : argsort v ≡ₚ seq 0 (length v).
Proof.
  unfold argsort. rewrite stable_sort_perm. by rewrite <- (imap_fst_seq v 0).
Qed.

Lemma top_indexes_lt (v : list Q) (n i : nat) :
  i ∈ top_indexes v n → i < length v.
Proof.
  unfold top_indexes. intros H.
  apply elem_of_take in H as (k & H & _).
  apply list_elem_of_lookup_2 in H.
  rewrite elem_of_reverse, argsort_perm in H.
  apply elem_of_seq in H. lia.
Qed.

Lemma Qltb_lt (x y : Q) : Qltb x y = true ↔ (x < y)%Q.
Proof.
  unfold Qltb. rewrite negb_true_iff, <- not_true_iff_false, Qle_bool_iff.
  split; [apply Qnot_le_lt | apply Qlt_not_le].
Qed.

(** ** The two sorts sort *)

Section StableSort.
Context {A : Type} (before : A → A → bool).
Hypothesis before_asym : ∀ x y, before x y = true → before y x = false.

(** In the sorted list no element has to come strictly before its
    predecessor. *)
Lemma insert_by_sorted (x : A) (l : list A) :
  Sorted (λ a b, before b a = false) l →
  Sorted (λ a b, before b a = false) (insert_by before x l).
Proof.
  induction 1 as [|y l Hl IH Hhd]; simpl.
  - by repeat constructor.
  - destruct (before y x) eqn:Hyx.
    + constructor; [exact IH|].
      destruct l as [|z l]; simpl.
      * constructor. by apply before_asym.
      * destruct (before z x); constructor.
        -- by inversion Hhd.
        -- by apply before_asym.
    + repeat constructor; done.
Qed.

Lemma stable_sort_sorted (l : list A) :
  Sorted (λ a b, before b a = false) (stable_sort before l).
Proof.
  induction l as [|x l IH]; [constructor|].
  by apply insert_by_sorted.
Qed.
End StableSort.

(** Line 299 before the cut: the scores go down along the list. *)
Lemma ranking_descends (prelim : list Candidate) :
  Sorted (λ a b, (score b <= score a)%Q)
         (stable_sort (λ a b, Qltb (score b) (score a)) prelim).
Proof.
  assert (Hsorted : Sorted (λ a b, Qltb (score a) (score b) = false)
                           (stable_sort (λ a b, Qltb (score b) (score a)) prelim)).
  { apply (stable_sort_sorted (λ a b, Qltb (score b) (score a))).
    intros a b Hab. apply Qltb_lt in Hab. apply not_true_iff_false.
    rewrite Qltb_lt. by apply Qle_not_lt, Qlt_le_weak. }
  assert (Hweak : ∀ a b, Qltb (score a) (score b) = false → (score b <= score a)%Q).
  { intros a b Hab. apply not_true_iff_false in Hab. rewrite Qltb_lt in Hab.
    by apply Qnot_lt_le. }
  induction Hsorted as [|a l _ IH Hhd]; constructor; [exact IH|].
  destruct Hhd; constructor. by apply Hweak.
Qed.

(** ** Candidate spans of a window *)

Lemma is_absent_false (om : list (option (nat * nat))) (i : nat) :
  i < length om → is_absent om i = false → ∃ o, om !! i = Some (Some o).
Proof.
  intros Hlt Habs. unfold is_absent in Habs.
  destruct (lookup_lt_is_Some_2 om i Hlt) as [[o|] Ho]; rewrite Ho in Habs.
  - by exists o.
  - discriminate Habs.
Qed.

Lemma span_accepted_spec (args : Args) (f : Feature) (s e : nat) :
  span_accepted args f s e = true ↔ valid_span args f s e.
Proof.
  unfold span_accepted, valid_span, max_context_get. split.
  - intros H.
    destruct (length (offset_mapping f) <=? s) eqn:Hs; [discriminate H|].
    destruct (length (offset_mapping f) <=? e) eqn:He; [discriminate H|].
    apply Nat.leb_gt in Hs, He.
    destruct (is_absent (offset_mapping f) s) eqn:Has; [discriminate H|].
    destruct (is_absent (offset_mapping f) e) eqn:Hae; [discriminate H|].
    simpl in H.
    destruct (e <? s) eqn:Hes; [discriminate H|].
    destruct (max_answer_length args <? e - s + 1) eqn:Hlen; [discriminate H|].
    apply Nat.ltb_ge in Hes, Hlen. simpl in H.
    repeat split; [done|done|by apply is_absent_false|by apply is_absent_false
                  |done|done|].
    intros m Hm. rewrite Hm in H.
    destruct (m !! pretty s) as [[|]|]; simpl in H; congruence.
  - intros (Hs & He & [os Hos] & [oe Hoe] & Hse & Hlen & Hmax).
    apply Nat.leb_gt in Hs, He. rewrite Hs, He.
    unfold is_absent. rewrite Hos, Hoe. simpl.
    apply Nat.ltb_ge in Hse, Hlen. rewrite Hse, Hlen. simpl.
    destruct (token_is_max_context f) as [m|]; [|done].
    by rewrite (Hmax m eq_refl).
Qed.

Lemma make_candidate_accepted (args : Args) (f : Feature) (sl el : list Q) (s e : nat) :
  span_accepted args f s e = true → s < length sl → e < length el →
  ∃ c, make_candidate f sl el s e = Ok c ∧ candidate_of f sl el (s, e) c.
Proof.
  intros Hacc Hs He.
  apply span_accepted_spec in Hacc as (_ & _ & [os Hos] & [oe Hoe] & _).
  destruct (lookup_lt_is_Some_2 sl s Hs) as [a Ha].
  destruct (lookup_lt_is_Some_2 el e He) as [b Hb].
  unfold make_candidate, offset_of, index. rewrite Hos, Hoe, Ha, Hb. simpl.
  eexists. split; [reflexivity|].
  exists os, oe, a, b. by repeat split.
Qed.

Lemma span_step_accepted (args : Args) (f : Feature) (sl el : list Q) (s e : nat)
    (acc : list Candidate) (c : Candidate) :
  span_accepted args f s e = true → make_candidate f sl el s e = Ok c →
  span_step args f sl el s acc e = Ok (acc ++ [c]).
Proof. intros Hacc Hc. unfold span_step. by rewrite Hacc, Hc. Qed.

Lemma span_step_rejected (args : Args) (f : Feature) (sl el : list Q) (s e : nat)
    (acc : list Candidate) :
  span_accepted args f s e = false → span_step args f sl el s acc e = Ok acc.
Proof. intros Hacc. unfold span_step. by rewrite Hacc. Qed.

(** The pairs that pass the guards, in the order of the double loop. *)
Lemma end_loop_spec (args : Args) (f : Feature) (sl el : list Q) (s : nat)
    (ends : list nat) (acc : list Candidate) :
  s < length sl → Forall (λ e, e < length el) ends →
  ∃ cs,
    for_each (span_step args f sl el s) ends acc = Ok (acc ++ cs)
    ∧ Forall2 (candidate_of f sl el)
              ((λ e, (s, e)) <$> List.filter (span_accepted args f s) ends) cs.
Proof.
  intros Hs Hends. revert acc.
  induction Hends as [|e ends He _ IH]; intros acc.
  - exists []. simpl. split; [by rewrite app_nil_r | constructor].
  - rewrite for_each_cons. simpl List.filter. destruct (span_accepted args f s e) eqn:Hacc.
    + destruct (make_candidate_accepted args f sl el s e Hacc Hs He) as (c & Hc & Hspec).
      rewrite (span_step_accepted args f sl el s e acc c Hacc Hc).
      destruct (IH (acc ++ [c])) as (cs & Hrun & Hall).
      exists (c :: cs). split.
      * simpl. rewrite Hrun. by rewrite <- app_assoc.
      * by constructor.
    + rewrite (span_step_rejected args f sl el s e acc Hacc). apply IH.
Qed.

Lemma start_loop_spec (args : Args) (f : Feature) (sl el : list Q)
    (starts ends : list nat) (acc : list Candidate) :
  Forall (λ s, s < length sl) starts → Forall (λ e, e < length el) ends →
  ∃ cs,
    for_each (λ acc s, for_each (span_step args f sl el s) ends acc) starts acc
    = Ok (acc ++ cs)
    ∧ Forall2 (candidate_of f sl el)
              (s ← starts; (λ e, (s, e)) <$> List.filter (span_accepted args f s) ends)
              cs.
Proof.
  intros Hstarts Hends. revert acc.
  induction Hstarts as [|s starts Hs _ IH]; intros acc; simpl.
  - exists []. split; [by rewrite app_nil_r | constructor].
  - destruct (end_loop_spec args f sl el s ends acc Hs Hends) as (cs1 & Hrun1 & Hall1).
    rewrite Hrun1. simpl. destruct (IH (acc ++ cs1)) as (cs2 & Hrun2 & Hall2).
    exists (cs1 ++ cs2). split.
    + rewrite Hrun2. by rewrite <- app_assoc.
    + by apply Forall2_app.
Qed.

(** C2. Every candidate that the decoder emits for a window comes from a
    (start, end) pair of the two top-[n_best_size] lists that meets all the
    conditions of [valid_span]: both indexes inside the offset mapping, both
    offsets present, start <= end, at most [max_answer_length] tokens, and
    the max-context marker (where the window has one) set for the start
    token. Conversely a pair of the two lists emits a candidate only if it
    meets them all: the pairs that emit are exactly the valid ones. *)
Theorem window_candidates_valid (args : Args) (f : Feature)
    (start_logits end_logits : list Q) (prelim : list Candidate) :
  ∃ (pairs : list (nat * nat)) (emitted : list Candidate),
    window_candidates args f start_logits end_logits prelim = Ok (prelim ++ emitted)
    ∧ Forall2 (candidate_of f start_logits end_logits) pairs emitted
    ∧ ∀ s e, (s, e) ∈ pairs ↔
             s ∈ top_indexes start_logits (n_best_size args)
             ∧ e ∈ top_indexes end_logits (n_best_size args)
             ∧ valid_span args f s e.
Proof.
  unfold window_candidates.
  set (starts := top_indexes start_logits (n_best_size args)).
  set (ends := top_indexes end_logits (n_best_size args)).
  assert (Hstarts : Forall (λ s, s < length start_logits) starts).
  { apply Forall_forall. intros s. apply top_indexes_lt. }
  assert (Hends : Forall (λ e, e < length end_logits) ends).
  { apply Forall_forall. intros e. apply top_indexes_lt. }
  destruct (start_loop_spec args f start_logits end_logits starts ends prelim
              Hstarts Hends) as (cs & Hrun & Hall).
  eexists _, cs. split; [exact Hrun|]. split; [exact Hall|].
  intros s e. rewrite list_elem_of_bind. split.
  - intros (s' & Hin & Hs'). apply list_elem_of_fmap in Hin as (e' & [= -> ->] & He').
    apply list_elem_of_In, filter_In in He' as [He' Hacc].
    split; [done|]. split; [by apply list_elem_of_In|].
    by apply span_accepted_spec.
  - intros (Hs & He & Hvalid). exists s. split; [|done].
    apply list_elem_of_fmap. exists e. split; [done|].
    apply list_elem_of_In, filter_In. split; [by apply list_elem_of_In|].
    by apply span_accepted_spec.
Qed.

(** ** Answer selection *)

Lemma skip_empty_spec (rest : list Prediction) (i : nat) :
  (∃ p, p ∈ rest ∧ text p ≠ "") →
  ∃ k best,
    skip_empty rest i = Ok (i + k)
    ∧ rest !! k = Some best
    ∧ text best ≠ ""
    ∧ ∀ j q, j < k → rest !! j = Some q → text q = "".
Proof.
  revert i. induction rest as [|p rest IH]; intros i (p0 & Hin & Hne).
  - by apply elem_of_nil in Hin.
  - simpl. destruct (String.eqb_spec (text p) "") as [Hp|Hp].
    + apply elem_of_cons in Hin as [->|Hin]; [done|].
      destruct (IH (S i)) as (k & best & Hrun & Hk & Hbest & Hbefore); [by exists p0|].
      exists (S k), best. split; [rewrite Hrun; f_equal; lia|].
      split; [done|]. split; [done|].
      intros [|j] q Hj; simpl; [by intros [= <-]|].
      apply Hbefore. lia.
    + exists 0, p. split; [f_equal; lia|]. split; [done|]. split; [done|].
      intros j q Hj. lia.
Qed.

Lemma skip_empty_all_empty (rest : list Prediction) (i : nat) :
  Forall (λ p, text p = "") rest → skip_empty rest i = Raise IndexError.
Proof.
  intros H. revert i. induction H as [|p rest Hp _ IH]; intros i; simpl; [done|].
  rewrite Hp. simpl. apply IH.
Qed.

Lemma probabilities_Ok (predictions : list Prediction) :
  predictions ≠ [] → ∃ probs, probabilities predictions = Ok probs.
Proof.
  destruct predictions as [|p l]; [done|]. intros _.
  unfold probabilities, softmax. simpl. eauto.
Qed.

(** C1. In version-2 mode, when the surviving predictions of an example hold
    an entry with non-empty text, the decoder takes the first such entry in
    rank order, forms [score_diff = null_score - start_logit - end_logit]
    with that entry's logits, and answers with the empty string when
    [score_diff] exceeds [null_score_diff_threshold] and with the entry's
    text otherwise. *)
Theorem null_answer_selection (args : Args) (features : list Feature)
    (all_start_logits all_end_logits : list (list Q)) (feature_indices : list nat)
    (example : Example) (predictions : list Prediction) (null_score : Q) :
  version_2_with_negative args = true →
  example_predictions args features all_start_logits all_end_logits
                      feature_indices example = Ok (predictions, Some null_score) →
  (∃ p, p ∈ predictions ∧ text p ≠ "") →
  ∃ (i : nat) (best : Prediction) (answer : string),
    predictions !! i = Some best
    ∧ text best ≠ ""
    ∧ (∀ j q, j < i → predictions !! j = Some q → text q = "")
    ∧ decode_example args features all_start_logits all_end_logits
                     feature_indices example = Ok answer
    ∧ let score_diff := (null_score - pred_start_logit best - pred_end_logit best)%Q in
      ((null_score_diff_threshold args < score_diff)%Q → answer = "")
      ∧ (¬ (null_score_diff_threshold args < score_diff)%Q → answer = text best).
Proof.
  intros Hv2 Hpred Hex.
  destruct (skip_empty_spec predictions 0 Hex) as (k & best & Hskip & Hk & Hbest & Hbefore).
  destruct (probabilities_Ok predictions) as [probs Hprobs].
  { destruct Hex as (p & Hin & _). intros ->. by apply elem_of_nil in Hin. }
  assert (Hrun : decode_example args features all_start_logits all_end_logits
                   feature_indices example
                 = if Qltb (null_score_diff_threshold args)
                        (null_score - pred_start_logit best - pred_end_logit best)
                   then Ok "" else Ok (text best)).
  { unfold decode_example. rewrite Hpred. simpl. rewrite Hprobs. simpl.
    unfold select_answer. rewrite Hv2, Hskip. simpl.
    unfold index. by rewrite Hk. }
  destruct (Qltb _ _) eqn:Hcmp in Hrun.
  - exists k, best, "". repeat split; try done.
    intros Hge. by apply Qltb_lt in Hcmp.
  - exists k, best, (text best). repeat split; try done.
    intros Hlt. apply Qltb_lt in Hlt. congruence.
Qed.

(** ** The placeholder *)

Lemma resolved_null_score (args : Args) (features : list Feature)
    (all_start_logits all_end_logits : list (list Q)) (feature_indices : list nat)
    (example : Example) (resolved : list Prediction) (null_score : option Q) :
  resolved_predictions args features all_start_logits all_end_logits
                       feature_indices example = Ok (resolved, null_score) →
  version_2_with_negative args = true → is_Some null_score.
Proof.
  unfold resolved_predictions. intros H Hv2. rewrite Hv2 in H.
  apply bind_Ok in H as (st & _ & H).
  apply bind_Ok in H as (st2 & Hst2 & H).
  apply bind_Ok in Hst2 as (m & _ & [= <-]).
  apply bind_Ok in H as (preds & _ & [= _ <-]).
  by eexists.
Qed.

(** C5. When the ranked predictions of an example, with their text resolved,
    are no prediction at all or a single prediction with empty text, the
    decoder puts the placeholder (text ["empty"], logits and score zero) in
    front of them and goes on to an answer; it does not raise. *)
Theorem placeholder_inserted (args : Args) (features : list Feature)
    (all_start_logits all_end_logits : list (list Q)) (feature_indices : list nat)
    (example : Example) (resolved : list Prediction) (null_score : option Q) :
  resolved_predictions args features all_start_logits all_end_logits
                       feature_indices example = Ok (resolved, null_score) →
  (resolved = [] ∨ ∃ p, resolved = [p] ∧ text p = "") →
  example_predictions args features all_start_logits all_end_logits
                      feature_indices example
  = Ok ({| text := "empty"; pred_start_logit := 0; pred_end_logit := 0;
           pred_score := 0 |} :: resolved, null_score)
  ∧ ∃ answer,
      decode_example args features all_start_logits all_end_logits
                     feature_indices example = Ok answer
      ∧ (answer = "empty" ∨ (version_2_with_negative args = true ∧ answer = "")).
Proof.
  intros Hres Hdeg.
  assert (Hins : insert_placeholder resolved = placeholder :: resolved).
  { unfold insert_placeholder, needs_placeholder.
    destruct Hdeg as [->|(p & -> & Hp)]; simpl; [done|]. by rewrite Hp. }
  assert (Hpred : example_predictions args features all_start_logits all_end_logits
                    feature_indices example = Ok (placeholder :: resolved, null_score)).
  { unfold example_predictions. rewrite Hres. simpl. by rewrite Hins. }
  split; [exact Hpred|].
  unfold decode_example. rewrite Hpred. simpl.
  unfold select_answer. destruct (version_2_with_negative args) eqn:Hv2; simpl.
  - destruct (resolved_null_score _ _ _ _ _ _ _ _ Hres Hv2) as [ns ->]. simpl.
    destruct (Qltb _ _); eauto.
  - eauto.
Qed.

(** C9 (the code departs from it). One window whose only context token has
    the zero-width offset (0, 0): in version-2 mode the surviving list is the
    span candidate and the null candidate, both with empty text, so no
    placeholder is inserted and the loop of lines 322-323 reads past the end
    of the list. *)
Theorem skip_loop_out_of_bounds :
  example_predictions zero_width_args [zero_width_window] [[0; 1; 0]%Q] [[0; 1; 0]%Q]
                      [0] zero_width_example
  = Ok ([ {| text := ""; pred_start_logit := 1; pred_end_logit := 1; pred_score := 2 |};
          {| text := ""; pred_start_logit := 0; pred_end_logit := 0; pred_score := 0 |} ],
        Some 0%Q)
  ∧ postprocess_qa_predictions zero_width_args [zero_width_example] [zero_width_window]
                               [[[0; 1; 0]%Q]; [[0; 1; 0]%Q]]
    = Raise IndexError.
Proof. split; vm_compute; reflexivity. Qed.

(** ** Raising the threshold *)

Lemma for_each_related {A S : Type} (body1 body2 : S → A → result S)
    (R : S → S → Prop) (xs : list A) (a1 a2 r1 : S) :
  (∀ s1 s2 x s1', R s1 s2 → body1 s1 x = Ok s1' →
                  ∃ s2', body2 s2 x = Ok s2' ∧ R s1' s2') →
  R a1 a2 → for_each body1 xs a1 = Ok r1 →
  ∃ r2, for_each body2 xs a2 = Ok r2 ∧ R r1 r2.
Proof.
  intros Hstep. revert a1 a2. induction xs as [|x xs IH]; intros a1 a2 HR Hrun.
  - simpl in Hrun. injection Hrun as <-. by exists a2.
  - rewrite for_each_cons in Hrun. apply bind_Ok in Hrun as (s1 & Hb & Hrest).
    destruct (Hstep a1 a2 x s1 HR Hb) as (s2 & Hb2 & HR2).
    destruct (IH s1 s2 HR2 Hrest) as (r2 & Hrun2 & HR3).
    exists r2. split; [|done]. rewrite for_each_cons, Hb2. exact Hrun2.
Qed.

Lemma od_set_keeps (k v1 v2 : string) (m1 m2 : list (string * string)) :
  keeps_answers m1 m2 → (v1 ≠ "" → v2 = v1) →
  keeps_answers (od_set k v1 m1) (od_set k v2 m2).
Proof.
  intros Hm Hv. unfold keeps_answers in *.
  induction Hm as [|[k1 a1] [k2 a2] m1 m2 [Hk Ha] Hm IH]; simpl.
  - constructor; [by split | constructor].
  - simpl in Hk, Ha. subst k2. destruct (String.eqb k1 k).
    + constructor; [by split | exact Hm].
    + constructor; [by split | exact IH].
Qed.

Lemma select_answer_threshold (args : Args) (t1 t2 : Q)
    (predictions : list Prediction) (null_score : option Q) (answer1 : string) :
  (t1 <= t2)%Q →
  select_answer (with_threshold args t1) predictions null_score = Ok answer1 →
  ∃ answer2,
    select_answer (with_threshold args t2) predictions null_score = Ok answer2
    ∧ (answer1 ≠ "" → answer2 = answer1).
Proof.
  intros Hle. unfold select_answer. simpl.
  destruct (version_2_with_negative args); simpl; [|eauto].
  destruct (skip_empty predictions 0) as [i|]; simpl; [|done].
  destruct (index predictions i) as [best|]; simpl; [|done].
  destruct (read_local null_score) as [ns|]; simpl; [|done].
  set (score_diff := (ns - pred_start_logit best - pred_end_logit best)%Q).
  destruct (Qltb t1 score_diff) eqn:H1; intros [= <-].
  - destruct (Qltb t2 score_diff); eauto. eexists. split; [done|]. by intros [].
  - destruct (Qltb t2 score_diff) eqn:H2; [|eauto].
    apply Qltb_lt in H2. apply not_true_iff_false in H1. exfalso. apply H1.
    apply Qltb_lt. by apply Qle_lt_trans with t2.
Qed.

Lemma decode_example_threshold (args : Args) (t1 t2 : Q) (features : list Feature)
    (all_start_logits all_end_logits : list (list Q)) (feature_indices : list nat)
    (example : Example) (answer1 : string) :
  (t1 <= t2)%Q →
  decode_example (with_threshold args t1) features all_start_logits all_end_logits
                 feature_indices example = Ok answer1 →
  ∃ answer2,
    decode_example (with_threshold args t2) features all_start_logits all_end_logits
                   feature_indices example = Ok answer2
    ∧ (answer1 ≠ "" → answer2 = answer1).
Proof.
  intros Hle. unfold decode_example.
  change (example_predictions (with_threshold args t2))
    with (example_predictions (with_threshold args t1)).
  destruct (example_predictions _ _ _ _ _ _) as [r|]; simpl; [|done].
  destruct (probabilities r.1); simpl; [|done].
  by apply select_answer_threshold.
Qed.

(** C3. In version-2 mode, with examples, windows and logits fixed and
    [t1 <= t2]: when the decoder returns a mapping with threshold [t1], it
    returns one with threshold [t2] as well, with the same keys in the same
    order, and every example whose answer is non-empty under [t1] has the
    same, non-empty, answer under [t2]. Raising the threshold never turns a
    non-empty prediction into the empty one. *)
Theorem threshold_monotone (args : Args) (examples : list Example)
    (features : list Feature) (predictions : list (list (list Q)))
    (t1 t2 : Q) (m1 : list (string * string)) :
  version_2_with_negative args = true →
  (t1 <= t2)%Q →
  postprocess_qa_predictions (with_threshold args t1) examples features predictions
  = Ok m1 →
  ∃ m2,
    postprocess_qa_predictions (with_threshold args t2) examples features predictions
    = Ok m2
    ∧ m2.*1 = m1.*1
    ∧ ∀ i k answer, m1 !! i = Some (k, answer) → answer ≠ "" →
                    m2 !! i = Some (k, answer).
Proof.
  intros _ Hle. unfold postprocess_qa_predictions.
  destruct predictions as [|sl [|el [|]]]; try done.
  destruct (negb _); [done|].
  destruct (features_per_example examples features) as [fpe|]; simpl; [|done].
  intros Hrun.
  destruct (for_each_related
              (example_step (with_threshold args t1) features sl el fpe)
              (example_step (with_threshold args t2) features sl el fpe)
              keeps_answers (imap (λ i e, (i, e)) examples) [] [] m1)
    as (m2 & Hrun2 & Hkeep); [|constructor|exact Hrun|].
  { intros s1 s2 [i ex] s1' HR. unfold example_step. simpl. intros Hstep.
    apply bind_Ok in Hstep as (a1 & Hdec & [= <-]).
    destruct (decode_example_threshold _ _ _ _ _ _ _ _ _ Hle Hdec) as (a2 & Hdec2 & Ha).
    rewrite Hdec2. simpl. eexists. split; [done|]. by apply od_set_keeps. }
  exists m2. split; [done|]. split.
  - clear Hrun Hrun2. induction Hkeep as [|? ? ? ? [Hk _] _ IH]; [done|].
    rewrite !fmap_cons. by f_equal.
  - intros i k answer Hi Hne.
    destruct (Forall2_lookup_l _ _ _ _ _ Hkeep Hi) as ([k2 a2] & Hi2 & Hk & Ha).
    simpl in Hk, Ha. rewrite Hi2. by rewrite <- Hk, (Ha Hne).
Qed.

(** ** The returned mapping *)

Lemma od_set_fresh (k v : string) (d : list (string * string)) :
  k ∉ d.*1 → od_set k v d = d ++ [(k, v)].
Proof.
  induction d as [|[k' v'] d IH]; simpl; intros Hk; [done|].
  apply not_elem_of_cons in Hk as [Hne Hk].
  destruct (String.eqb_spec k' k) as [->|_]; [done|].
  by rewrite IH.
Qed.

Lemma example_loop_keys (args : Args) (features : list Feature)
    (sl el : list (list Q)) (fpe : gmap nat (list nat))
    (rows : list (nat * Example)) (acc m : list (string * string)) :
  NoDup (acc.*1 ++ ((λ r, ex_id r.2) <$> rows)) →
  for_each (example_step args features sl el fpe) rows acc = Ok m →
  m.*1 = acc.*1 ++ ((λ r, ex_id r.2) <$> rows).
Proof.
  revert acc. induction rows as [|[i ex] rows IH]; intros acc Hnd Hrun.
  - simpl in Hrun. injection Hrun as <-. by rewrite app_nil_r.
  - rewrite for_each_cons in Hrun. apply bind_Ok in Hrun as (acc' & Hstep & Hrest).
    unfold example_step in Hstep. simpl in Hstep.
    apply bind_Ok in Hstep as (answer & _ & [= <-]).
    rewrite fmap_cons in Hnd. simpl in Hnd.
    assert (Hfresh : ex_id ex ∉ acc.*1).
    { apply NoDup_app in Hnd as (_ & Hdisj & _). intros Hin.
      apply (Hdisj _ Hin). by left. }
    rewrite (od_set_fresh _ _ _ Hfresh) in Hrest.
    apply IH in Hrest.
    + rewrite Hrest, fmap_app. simpl. by rewrite <- app_assoc.
    + rewrite fmap_app. simpl. by rewrite <- app_assoc.
Qed.

Lemma imap_snd {A : Type} (l : list A) (n : nat) :
  (imap (λ i x, (n + i, x)) l).*2 = l.
Proof.
  revert n. induction l as [|x l IH]; intros n; simpl; [done|].
  f_equal. rewrite <- (IH (S n)) at 2. f_equal. apply imap_ext.
  intros i y _. simpl. f_equal. lia.
Qed.

(** C10. When the ids of the examples are pairwise distinct, the mapping that
    the decoder returns has exactly one entry per example, under the
    example's id, in the order of the examples: nothing is skipped and no
    other key appears. (An example without a window is not skipped either:
    outside version-2 mode it gets the placeholder's text, in version-2 mode
    the call raises and returns nothing.) *)
Theorem one_entry_per_example (args : Args) (examples : list Example)
    (features : list Feature) (predictions : list (list (list Q)))
    (m : list (string * string)) :
  NoDup (ex_id <$> examples) →
  postprocess_qa_predictions args examples features predictions = Ok m →
  m.*1 = ex_id <$> examples.
Proof.
  intros Hnd. unfold postprocess_qa_predictions.
  destruct predictions as [|sl [|el [|]]]; try done.
  destruct (negb _); [done|].
  destruct (features_per_example examples features) as [fpe|]; simpl; [|done].
  intros Hrun.
  assert (Hids : (λ r : nat * Example, ex_id r.2) <$> imap (λ i e, (i, e)) examples
                 = ex_id <$> examples).
  { rewrite <- (imap_snd examples 0) at 2. by rewrite <- list_fmap_compose. }
  apply example_loop_keys in Hrun; simpl in *; by rewrite Hids in *.
Qed.

(** ** Failed assertions *)

Lemma no_assertion_Ok {A : Type} (a : A) : no_assertion (Ok a).
Proof. intros msg H. discriminate H. Qed.

Lemma no_assertion_bind {A B : Type} (m : result A) (k : A → result B) :
  no_assertion m → (∀ a, no_assertion (k a)) → no_assertion (m ≫= k).
Proof.
  intros Hm Hk msg H. apply bind_Raise in H as [H | (a & _ & H)].
  - by apply (Hm msg).
  - by apply (Hk a msg).
Qed.

Lemma no_assertion_for_each {A S : Type} (body : S → A → result S) (xs : list A)
    (acc : S) :
  (∀ s x, no_assertion (body s x)) → no_assertion (for_each body xs acc).
Proof.
  intros Hbody. revert acc. induction xs as [|x xs IH]; intros acc.
  - apply no_assertion_Ok.
  - rewrite for_each_cons. apply no_assertion_bind; [apply Hbody | apply IH].
Qed.

Lemma no_assertion_index {A : Type} (l : list A) (i : nat) : no_assertion (index l i).
Proof. unfold index. intros msg. by destruct (l !! i). Qed.

Lemma no_assertion_skip_empty (rest : list Prediction) (i : nat) :
  no_assertion (skip_empty rest i).
Proof.
  revert i. induction rest as [|p rest IH]; intros i; simpl; [done|].
  destruct (String.eqb _ _); [apply IH | apply no_assertion_Ok].
Qed.

Create HintDb no_assert.
#[local] Hint Resolve no_assertion_Ok no_assertion_index no_assertion_skip_empty
  : no_assert.

(** Walks through binds, loops, conditionals and matches. *)
Ltac no_assert :=
  repeat first
    [ progress intros
    | solve [eauto with no_assert]
    | apply no_assertion_bind
    | apply no_assertion_for_each
    | match goal with
      | |- no_assertion (if ?b then _ else _) => destruct b
      | |- no_assertion (match ?x with _ => _ end) => destruct x
      end
    | by intros ? ].

Lemma no_assertion_window_candidates (args : Args) (f : Feature) (sl el : list Q)
    (prelim : list Candidate) :
  no_assertion (window_candidates args f sl el prelim).
Proof.
  unfold window_candidates, span_step, make_candidate, offset_of. no_assert.
Qed.

Lemma no_assertion_example_predictions (args : Args) (features : list Feature)
    (sl el : list (list Q)) (feature_indices : list nat) (example : Example) :
  no_assertion (example_predictions args features sl el feature_indices example).
Proof.
  pose proof no_assertion_window_candidates.
  unfold example_predictions, resolved_predictions, feature_step, update_min_null,
    subscript_null.
  no_assert.
Qed.

Lemma no_assertion_decode_example (args : Args) (features : list Feature)
    (sl el : list (list Q)) (feature_indices : list nat) (example : Example) :
  no_assertion (decode_example args features sl el feature_indices example).
Proof.
  pose proof no_assertion_example_predictions.
  unfold decode_example, probabilities, softmax, np_max, select_answer, read_local.
  no_assert.
Qed.

Lemma no_assertion_features_per_example (examples : list Example)
    (features : list Feature) :
  no_assertion (features_per_example examples features).
Proof. unfold features_per_example, group_step. no_assert. Qed.

(** C6. The decoder fails an assertion exactly when the predictions are not a
    pair of two arrays or the start-logits array has another length than the
    list of windows. In the first case the message is [shape_message], in the
    second it gives the two counts; with a pair of arrays of the right length
    neither assertion fails. *)
Theorem shape_mismatch_exactly (args : Args) (examples : list Example)
    (features : list Feature) (predictions : list (list (list Q))) :
  ((∃ msg, postprocess_qa_predictions args examples features predictions
           = Raise (AssertionError msg))
   ↔ (length predictions ≠ 2
      ∨ ∃ all_start_logits all_end_logits,
          predictions = [all_start_logits; all_end_logits]
          ∧ length all_start_logits ≠ length features))
  ∧ (length predictions ≠ 2 →
     postprocess_qa_predictions args examples features predictions
     = Raise (AssertionError shape_message))
  ∧ (∀ all_start_logits all_end_logits,
       predictions = [all_start_logits; all_end_logits] →
       length all_start_logits ≠ length features →
       postprocess_qa_predictions args examples features predictions
       = Raise (AssertionError
                  (count_message (length all_start_logits) (length features)))).
Proof.
  assert (Hshape : length predictions ≠ 2 →
                   postprocess_qa_predictions args examples features predictions
                   = Raise (AssertionError shape_message)).
  { intros Hlen. by destruct predictions as [|sl [|el [|]]]. }
  assert (Hcount : ∀ sl el, predictions = [sl; el] → length sl ≠ length features →
                   postprocess_qa_predictions args examples features predictions
                   = Raise (AssertionError
                              (count_message (length sl) (length features)))).
  { intros sl el -> Hlen. simpl.
    apply Nat.eqb_neq in Hlen. by rewrite Hlen. }
  split; [|by split].
  split.
  - intros [msg Hfail].
    destruct (decide (length predictions = 2)) as [Hlen|Hlen]; [|by left].
    right. destruct predictions as [|sl [|el [|]]]; try done.
    exists sl, el. split; [done|]. intros Heq.
    simpl in Hfail. apply Nat.eqb_eq in Heq. rewrite Heq in Hfail. simpl in Hfail.
    revert Hfail. apply no_assertion_bind.
    + apply no_assertion_features_per_example.
    + intros fpe. apply no_assertion_for_each. intros acc [i ex].
      unfold example_step. apply no_assertion_bind.
      * apply no_assertion_decode_example.
      * intros answer. apply no_assertion_Ok.
  - intros [Hlen | (sl & el & Hp & Hlen)]; eauto.
Qed.

(** ** Softmax *)

Lemma foldl_Rmax_spec (l : list R) (x : R) :
  (x <= foldl Rmax x l)%R
  ∧ Forall (λ y, (y <= foldl Rmax x l)%R) l
  ∧ foldl Rmax x l ∈ x :: l.
Proof.
  revert x. induction l as [|y l IH]; intros x; simpl.
  - split; [lra|]. split; [constructor | by left].
  - destruct (IH (Rmax x y)) as (Hge & Hall & Hin).
    pose proof (Rmax_l x y). pose proof (Rmax_r x y).
    split; [lra|]. split; [constructor; [lra | exact Hall]|].
    apply elem_of_cons in Hin as [Hin|Hin]; [|by right; right].
    rewrite Hin. unfold Rmax. destruct (Rle_dec x y); [right; left | left]; done.
Qed.

Lemma foldl_Rmax_ge (l : list R) (x : R) : (x <= foldl Rmax x l)%R.
Proof.
  revert x. induction l as [|y l IH]; intros x; simpl; [lra|].
  pose proof (IH (Rmax x y)). pose proof (Rmax_l x y). lra.
Qed.

Lemma insert_placeholder_nonempty (l : list Prediction) : insert_placeholder l ≠ [].
Proof.
  unfold insert_placeholder. destruct l as [|p l]; [done|].
  by destruct (needs_placeholder _).
Qed.

(** *** Sums and powers of real numbers *)

Lemma Rsum_app (l1 l2 : list R) : Rsum (l1 ++ l2) = (Rsum l1 + Rsum l2)%R.
Proof. induction l1 as [|x l1 IH]; simpl; [lra|]. rewrite IH. lra. Qed.

Lemma Rsum_perm (l1 l2 : list R) : l1 ≡ₚ l2 → Rsum l1 = Rsum l2.
Proof. induction 1; simpl; lra. Qed.

Lemma Rsum_nonneg (l : list R) : Forall (λ x, (0 <= x)%R) l → (0 <= Rsum l)%R.
Proof. induction 1; simpl; lra. Qed.

Lemma Rsum_bound (l : list R) (b : R) :
  Forall (λ x, (x <= b)%R) l → (Rsum l <= INR (length l) * b)%R.
Proof.
  induction 1 as [|x l Hx _ IH]; [simpl; lra|].
  cbn [length Rsum foldr]. rewrite S_INR. fold (Rsum l). lra.
Qed.

Lemma Rsum_elem (l : list R) (x : R) :
  Forall (λ y, (0 <= y)%R) l → x ∈ l → (x <= Rsum l)%R.
Proof.
  induction 1 as [|y l Hy Hl IH]; intros Hx; [by apply elem_of_nil in Hx|].
  simpl. pose proof (Rsum_nonneg l Hl). apply elem_of_cons in Hx as [->|Hx]; [lra|].
  specialize (IH Hx). lra.
Qed.

Lemma Rabs_between (a b : R) : (Rabs a <= b)%R → (- b <= a <= b)%R.
Proof. unfold Rabs. destruct (Rcase_abs a); lra. Qed.

Lemma Rdiv_nonneg (x y : R) : (0 <= x)%R → (0 < y)%R → (0 <= x / y)%R.
Proof.
  intros Hx Hy. unfold Rdiv. apply Rmult_le_pos; [done|].
  apply Rlt_le, Rinv_0_lt_compat, Hy.
Qed.

Lemma pow_le_one (x : R) (n : nat) : (0 <= x <= 1)%R → (0 <= x ^ n <= 1)%R.
Proof.
  intros Hx. induction n as [|n IH]; simpl; [lra|]. nra.
Qed.

Lemma pow_ge_one (x : R) (n : nat) : (1 <= x)%R → (1 <= x ^ n)%R.
Proof. intros Hx. induction n as [|n IH]; simpl; [lra|]. nra. Qed.

Lemma pow_pos (x : R) (n : nat) : (0 < x)%R → (0 < x ^ n)%R.
Proof. intros Hx. induction n as [|n IH]; simpl; [lra|]. nra. Qed.

(** *** The softmax of finite scores

    The format and NumPy's routines are parameters. What is assumed of the
    format: rounding is monotone and keeps the numbers of the format, 0 and
    1 among them; it is off by at most [u] times the number plus [eta];
    the sum of two numbers of the format is rounded with a relative error
    of at most [u], exactly when it underflows; 1 is not beyond the largest
    number. Of [np.exp]: it is 1 at 0 and between 0 and 1 at a negative
    argument. Of [ndarray.sum]: it adds the entries up, each one once, by
    floating-point additions in some order. *)

Section FloatSoftmax.
Context (F : FloatFormat) (np : Numpy) (u eta : R).
Hypothesis round_monotone : ∀ x y, (x <= y)%R → (round F x <= round F y)%R.
Hypothesis round_idempotent : ∀ x, round F (round F x) = round F x.
Hypothesis round_zero : round F 0 = 0%R.
Hypothesis round_one : round F 1 = 1%R.
Hypothesis round_error : ∀ x, (Rabs (round F x - x) <= u * Rabs x + eta)%R.
Hypothesis sum_error : ∀ x y,
  representable F x → representable F y →
  (Rabs (round F (x + y) - (x + y)) <= u * Rabs (x + y))%R.
Hypothesis unit_roundoff : (0 <= u < 1)%R.
Hypothesis one_is_finite : (1 <= largest F)%R.
Hypothesis exp_at_zero : exp_finite np 0 = 1%R.
Hypothesis exp_range : ∀ x, (x <= 0)%R → (0 <= exp_finite np x <= 1)%R.
Hypothesis sum_in_some_order : ∀ l,
  l ≠ [] → ∃ t, leaves t ≡ₚ l ∧ array_sum np l = tree_sum F t.

Lemma fl_in_range (x : R) :
  (Rabs (round F x) <= largest F)%R → fl F x = Num (round F x).
Proof.
  intros H. unfold fl, Rltb. simpl. destruct (Rlt_dec _ _); [lra | done].
Qed.

Lemma fl_unit_interval (x : R) :
  (0 <= x <= 1)%R →
  fl F x = Num (round F x) ∧ (0 <= round F x <= 1)%R ∧ representable F (round F x).
Proof.
  intros [H0 H1].
  pose proof (round_monotone _ _ H0) as Hlo. pose proof (round_monotone _ _ H1) as Hhi.
  rewrite round_zero in Hlo. rewrite round_one in Hhi.
  split; [|split; [lra | apply round_idempotent]].
  apply fl_in_range. rewrite Rabs_pos_eq; lra.
Qed.

(** The exponential of a shifted score. *)
Lemma shifted_exp (s m : R) :
  (s <= m)%R →
  ∃ e, np_exp F np (fsub F (Num s) (Num m)) = Num e
       ∧ (0 <= e <= 1)%R ∧ representable F e ∧ (s = m → e = 1%R).
Proof.
  intros Hsm. unfold fsub, fneg, fadd.
  assert (Hr : (round F (s + - m) <= 0)%R).
  { rewrite <- round_zero. apply round_monotone. lra. }
  unfold fl, Rltb. simpl.
  destruct (Rlt_dec (largest F) (Rabs (round F (s + - m)))) as [Hover|Hfin].
  - destruct (Rlt_dec (round F (s + - m)) 0) as [_|Hnneg].
    + exists 0%R. simpl. split_and!; [done|lra|lra|exact round_zero|].
      intros ->. exfalso. rewrite Rplus_opp_r, round_zero, Rabs_R0 in Hover. lra.
    + exfalso. assert (round F (s + - m) = 0%R) as H0 by lra.
      rewrite H0, Rabs_R0 in Hover. lra.
  - simpl. destruct (fl_unit_interval (exp_finite np (round F (s + - m))))
      as (Hfl & Hrange & Hrep); [by apply exp_range|].
    eexists. split; [exact Hfl|]. split; [exact Hrange|]. split; [exact Hrep|].
    intros ->. by rewrite Rplus_opp_r, round_zero, exp_at_zero, round_one.
Qed.

Lemma additions_leaves (t : sum_tree) : length (leaves t) = S (additions t).
Proof.
  induction t as [a|l IHl r IHr]; simpl; [done|].
  rewrite length_app, IHl, IHr. lia.
Qed.

Lemma upper_step (Ea Eb A B Va Vb V : R) :
  (0 <= Ea → 0 <= Eb → 1 <= A → 1 <= B →
   Va <= Ea * A → Vb <= Eb * B → 0 <= Va + Vb →
   V <= (Va + Vb) * (1 + u) →
   V <= (Ea + Eb) * ((1 + u) * (A * B)))%R.
Proof.
  intros HEa HEb HA HB HVa HVb Hs HV.
  assert (0 <= Ea * A)%R by nra. assert (0 <= Eb * B)%R by nra.
  assert (Ea * A <= Ea * A * B)%R by nra.
  assert (Eb * B <= Eb * B * A)%R by nra.
  assert (Va + Vb <= (Ea + Eb) * (A * B))%R by nra.
  destruct unit_roundoff. nra.
Qed.

Lemma lower_step (Ea Eb A B Va Vb V : R) :
  (0 <= Ea → 0 <= Eb → 0 <= A <= 1 → 0 <= B <= 1 →
   Ea * A <= Va → Eb * B <= Vb →
   (Va + Vb) * (1 - u) <= V →
   (Ea + Eb) * ((1 - u) * (A * B)) <= V)%R.
Proof.
  intros HEa HEb HA HB HVa HVb HV.
  assert (0 <= Ea * A)%R by nra. assert (0 <= Eb * B)%R by nra.
  assert (Ea * A * B <= Ea * A)%R by nra.
  assert (Eb * B * A <= Eb * B)%R by nra.
  assert ((Ea + Eb) * (A * B) <= Va + Vb)%R by nra.
  destruct unit_roundoff. nra.
Qed.

Lemma summand_values (l : list float) :
  Forall (summand F) l → Forall (λ x, (0 <= x)%R) (value <$> l).
Proof.
  induction 1 as [|a l (x & -> & Hx & _) _ IH]; [constructor|].
  rewrite fmap_cons. by constructor.
Qed.

Lemma tree_sum_bounds (t : sum_tree) :
  Forall (summand F) (leaves t) →
  (Rsum (value <$> leaves t) * (1 + u) ^ additions t <= largest F)%R →
  ∃ V, tree_sum F t = Num V
       ∧ representable F V
       ∧ (Rsum (value <$> leaves t) * (1 - u) ^ additions t <= V)%R
       ∧ (V <= Rsum (value <$> leaves t) * (1 + u) ^ additions t)%R
       ∧ Forall (λ a, (value a <= V)%R) (leaves t).
Proof.
  destruct unit_roundoff as [Hu0 Hu1].
  induction t as [a|l IHl r IHr]; intros Hleaves Hbound.
  - apply Forall_singleton in Hleaves as (x & -> & Hx & Hrep).
    exists x. simpl. split_and!; try done; try lra.
    constructor; [simpl; lra | constructor].
  - simpl in Hleaves. apply Forall_app in Hleaves as [Hl Hr].
    pose proof (Rsum_nonneg _ (summand_values _ Hl)) as HEl.
    pose proof (Rsum_nonneg _ (summand_values _ Hr)) as HEr.
    cbn [leaves additions] in *. rewrite fmap_app, Rsum_app in *.
    set (El := Rsum (value <$> leaves l)) in *.
    set (Er := Rsum (value <$> leaves r)) in *.
    rewrite <- !tech_pow_Rmult, !pow_add in *.
    pose proof (pow_ge_one (1 + u) (additions l)) as HAl.
    pose proof (pow_ge_one (1 + u) (additions r)) as HAr.
    pose proof (pow_le_one (1 - u) (additions l)) as Hal.
    pose proof (pow_le_one (1 - u) (additions r)) as Har.
    set (Al := ((1 + u) ^ additions l)%R) in *.
    set (Ar := ((1 + u) ^ additions r)%R) in *.
    set (al := ((1 - u) ^ additions l)%R) in *.
    set (ar := ((1 - u) ^ additions r)%R) in *.
    assert (1 <= Al)%R by (apply HAl; lra).
    assert (1 <= Ar)%R by (apply HAr; lra).
    assert (0 <= al <= 1)%R by (apply Hal; lra).
    assert (0 <= ar <= 1)%R by (apply Har; lra).
    destruct IHl as (Vl & Hl_sum & Hl_rep & Hl_lo & Hl_hi & Hl_leaves); [done| |].
    { assert (0 <= Al * Ar)%R by nra. assert (Al <= Al * Ar)%R by nra.
      assert (Al <= (1 + u) * (Al * Ar))%R by nra.
      eapply Rle_trans; [|exact Hbound]. apply Rmult_le_compat; lra. }
    destruct IHr as (Vr & Hr_sum & Hr_rep & Hr_lo & Hr_hi & Hr_leaves); [done| |].
    { assert (0 <= Al * Ar)%R by nra. assert (Ar <= Al * Ar)%R by nra.
      assert (Ar <= (1 + u) * (Al * Ar))%R by nra.
      eapply Rle_trans; [|exact Hbound]. apply Rmult_le_compat; lra. }
    assert (0 <= Vl)%R by nra. assert (0 <= Vr)%R by nra.
    pose proof (sum_error Vl Vr Hl_rep Hr_rep) as Herr.
    rewrite (Rabs_pos_eq (Vl + Vr)) in Herr by lra.
    apply Rabs_between in Herr.
    set (V := round F (Vl + Vr)) in *.
    assert (HVhi : (V <= (El + Er) * ((1 + u) * (Al * Ar)))%R).
    { apply (upper_step El Er Al Ar Vl Vr V); try done; lra. }
    assert (HVlo : ((El + Er) * ((1 - u) * (al * ar)) <= V)%R).
    { apply (lower_step El Er al ar Vl Vr V); try done; lra. }
    assert (0 <= V)%R by nra.
    exists V. cbn [tree_sum]. rewrite Hl_sum, Hr_sum. split_and!; try done.
    + unfold fadd. apply fl_in_range. fold V. rewrite Rabs_pos_eq; lra.
    + apply round_idempotent.
    + assert (Vl <= V)%R.
      { unfold V. rewrite <- Hl_rep at 1. apply round_monotone. lra. }
      assert (Vr <= V)%R.
      { unfold V. rewrite <- Hr_rep at 1. apply round_monotone. lra. }
      apply Forall_app. split; (eapply Forall_impl; [eassumption|]); simpl; intros; lra.
Qed.

Lemma quotient_sum_error (es : list R) (tot : R) :
  (0 < tot)%R → Forall (λ e, (0 <= e)%R) es →
  (Rabs (Rsum ((λ e, round F (e / tot)) <$> es) - Rsum es / tot)
   <= u * (Rsum es / tot) + INR (length es) * eta)%R.
Proof.
  intros HS. induction 1 as [|e es He _ IH].
  - simpl. unfold Rdiv. rewrite Rmult_0_l, Rminus_0_r, Rabs_R0. lra.
  - rewrite fmap_cons. cbn [Rsum foldr length]. fold (Rsum es).
    fold (Rsum ((λ e, round F (e / tot)) <$> es)). rewrite S_INR, Rdiv_plus_distr.
    assert (Hq : (0 <= e / tot)%R) by (apply Rdiv_nonneg; lra).
    pose proof (round_error (e / tot)) as Herr.
    rewrite (Rabs_pos_eq (e / tot)) in Herr by done.
    apply Rabs_between in Herr. apply Rabs_between in IH. apply Rabs_le. lra.
Qed.

Lemma pow_product_le_one (k : nat) : ((1 - u) ^ k * (1 + u) ^ k <= 1)%R.
Proof.
  destruct unit_roundoff. rewrite <- Rpow_mult_distr.
  apply pow_le_one. nra.
Qed.

Lemma final_bound (E tot a b P c : R) :
  (1 <= E → 0 < a → 1 <= b → a * b <= 1 → E * a <= tot → tot <= E * b →
   Rabs (P - E / tot) <= u * (E / tot) + c →
   Rabs (P - 1) <= (1 + u) / a - 1 + c)%R.
Proof.
  intros HE Ha Hb Hab Hlo Hhi HP. destruct unit_roundoff as [Hu0 Hu1].
  assert (HS : (0 < tot)%R) by nra.
  set (r := (E / tot)%R) in *.
  assert (Hr : (r * tot = E)%R) by (unfold r; field; lra).
  assert (Hr0 : (0 < r)%R) by (unfold r; apply Rdiv_lt_0_compat; lra).
  unfold Rdiv. set (x := (/ a)%R).
  assert (Hx : (x * a = 1)%R) by (unfold x; field; lra).
  assert (Hx0 : (0 < x)%R) by (apply Rinv_0_lt_compat, Ha).
  assert (Hrx : (r <= x)%R).
  { assert (r * a <= 1)%R by nra. nra. }
  assert (Hra : (a <= r)%R).
  { assert (1 <= r * b)%R by nra. assert (a * (r * b) <= r)%R by nra. nra. }
  assert (Hax : (2 <= a + x)%R).
  { assert (0 <= (a - 1) * (a - 1))%R by nra. nra. }
  apply Rabs_between in HP. apply Rabs_le. nra.
Qed.

Lemma foldl_fmax_finite (xs : list R) (x : R) :
  foldl fmax (Num x) (Num <$> xs) = Num (foldl Rmax x xs).
Proof. revert x. induction xs as [|y xs IH]; intros x; simpl; [done | apply IH]. Qed.

Lemma finite_values (l : list float) : Forall is_finite l → l = Num <$> (value <$> l).
Proof.
  induction 1 as [|a l [x ->] _ IH]; [done|]. rewrite !fmap_cons. simpl. by f_equal.
Qed.

Lemma value_Num (xs : list R) : value <$> (Num <$> xs) = xs.
Proof. induction xs as [|x xs IH]; [done|]. rewrite !fmap_cons. simpl. by f_equal. Qed.

Lemma exp_scores_values (xs : list R) (m : R) :
  Forall (λ x, (x <= m)%R) xs →
  ∃ es, (λ s, np_exp F np (fsub F s (Num m))) <$> (Num <$> xs) = Num <$> es
        ∧ Forall (λ e, (0 <= e <= 1)%R ∧ representable F e) es
        ∧ length es = length xs
        ∧ (m ∈ xs → 1%R ∈ es).
Proof.
  induction 1 as [|x xs Hx _ (es & Heq & Hes & Hlen & Hone)].
  - exists []. split_and!; try done. intros H. by apply elem_of_nil in H.
  - destruct (shifted_exp x m Hx) as (e & He & Hrange & Hrep & Hmax).
    exists (e :: es). rewrite !fmap_cons, He, Heq. split_and!; try done.
    + by constructor.
    + simpl. by rewrite Hlen.
    + intros [Hm|Hin]%elem_of_cons; [|right; by apply Hone].
      apply elem_of_cons. left. symmetry. by apply Hmax.
Qed.

Lemma quotients (es : list R) (tot : R) :
  (0 < tot)%R → Forall (λ e, (0 <= e <= tot)%R) es →
  (λ e, fdiv F e (Num tot)) <$> (Num <$> es) = Num <$> ((λ e, round F (e / tot)) <$> es)
  ∧ Forall (λ p, (0 <= p <= 1)%R) ((λ e, round F (e / tot)) <$> es).
Proof.
  intros HS. induction 1 as [|e es He _ [IH1 IH2]]; [by split|].
  rewrite !fmap_cons. 
  destruct (fl_unit_interval (e / tot)) as (Hfl & Hrange & _).
  { split; [apply Rdiv_nonneg; lra|].
    apply Rmult_le_reg_r with tot; [done|]. unfold Rdiv.
    rewrite Rmult_assoc, Rinv_l by lra. lra. }
  split; [|by constructor]. rewrite <- IH1. f_equal.
  unfold fdiv. destruct (Req_dec_T tot 0) as [->|_]; [lra | exact Hfl].
Qed.

Lemma softmax_float_finite (xs : list R) :
  xs ≠ [] →
  (INR (length xs) * (1 + u) ^ (length xs - 1) <= largest F)%R →
  ∃ (m : R) (es ps : list R) (total : R),
    np_max_float (Num <$> xs) = Ok (Num m)
    ∧ m ∈ xs ∧ Forall (λ x, (x <= m)%R) xs
    ∧ (λ s, np_exp F np (fsub F s (Num m))) <$> (Num <$> xs) = Num <$> es
    ∧ Forall (λ e, (0 <= e <= 1)%R) es
    ∧ 1%R ∈ es
    ∧ array_sum np (Num <$> es) = Num total
    ∧ (1 <= total)%R
    ∧ (λ e, fdiv F e (Num total)) <$> (Num <$> es) = Num <$> ps
    ∧ length ps = length xs
    ∧ Forall (λ p, (0 <= p <= 1)%R) ps
    ∧ (Rabs (Rsum ps - 1) <= tolerance u eta (length xs))%R.
Proof.
  intros Hne Hbound. destruct unit_roundoff as [Hu0 Hu1].
  destruct xs as [|x xs']; [done|]. set (xs := x :: xs') in *.
  set (m := foldl Rmax x xs').
  destruct (foldl_Rmax_spec xs' x) as (_ & Hall & Hin). fold m in Hall, Hin.
  assert (Hmax : Forall (λ y, (y <= m)%R) xs).
  { constructor; [|done]. pose proof (foldl_Rmax_ge xs' x). fold m in H. lra. }
  destruct (exp_scores_values xs m Hmax) as (es & Hexp & Hes & Hlen & Hone).
  specialize (Hone Hin).
  assert (Hes_ne : Num <$> es ≠ []) by (destruct es; [by apply elem_of_nil in Hone | done]).
  destruct (sum_in_some_order _ Hes_ne) as (t & Hperm & Hsum).
  assert (Hleaves : Forall (summand F) (leaves t)).
  { rewrite Hperm. apply Forall_fmap. eapply Forall_impl; [exact Hes|].
    intros e [[He0 _] Hrep]. by exists e. }
  assert (Hvalues : Rsum (value <$> leaves t) = Rsum es).
  { rewrite <- (value_Num es). apply Rsum_perm. by apply fmap_Permutation. }
  assert (Hadds : additions t = length xs - 1).
  { pose proof (additions_leaves t) as Hl. rewrite Hperm, length_fmap, Hlen in Hl. lia. }
  assert (Hes0 : Forall (λ e, (0 <= e)%R) es).
  { eapply Forall_impl; [exact Hes|]. intros e [[? _] _]. done. }
  assert (HE1 : (1 <= Rsum es)%R) by by apply Rsum_elem.
  assert (HEn : (Rsum es <= INR (length xs))%R).
  { pose proof (Rsum_bound es 1) as Hb. rewrite Hlen, Rmult_1_r in Hb. apply Hb.
    eapply Forall_impl; [exact Hes|]. intros e [[_ ?] _]. done. }
  pose proof (pow_ge_one (1 + u) (length xs - 1)) as Hhi.
  destruct (tree_sum_bounds t Hleaves) as (total & Htotal & _ & Hlo & Hup & Hle).
  { rewrite Hvalues, Hadds. eapply Rle_trans; [|exact Hbound].
    apply Rmult_le_compat_r; [|done]. assert (1 <= (1 + u) ^ (length xs - 1))%R by (apply Hhi; lra). lra. }
  rewrite Hvalues, Hadds in Hlo, Hup.
  assert (Hes_le : Forall (λ e, (0 <= e <= total)%R) es).
  { rewrite Hperm in Hle. rewrite Forall_fmap in Hle.
    apply Forall_forall. intros e He. split.
    - rewrite Forall_forall in Hes0. by apply Hes0.
    - rewrite Forall_forall in Hle. by apply (Hle e He). }
  assert (Htotal1 : (1 <= total)%R).
  { rewrite Forall_forall in Hes_le. by apply (Hes_le 1%R Hone). }
  destruct (quotients es total) as [Hdiv Hprobs]; [lra|done|].
  exists m, es, ((λ e, round F (e / total)) <$> es), total.
  split_and!; try done.
  - unfold xs. rewrite fmap_cons. simpl. by rewrite foldl_fmax_finite.
  - eapply Forall_impl; [exact Hes|]. by intros e [? _].
  - by rewrite Hsum.
  - by rewrite length_fmap.
  - unfold tolerance. rewrite <- Hlen at 2.
    apply (final_bound (Rsum es) total ((1 - u) ^ (length xs - 1))
             ((1 + u) ^ (length xs - 1))); try done.
    + apply pow_pos. lra.
    + apply Hhi. lra.
    + apply pow_product_le_one.
    + apply quotient_sum_error; [lra | done].
Qed.

End FloatSoftmax.

(** ** Validation windows *)

Lemma mask_loop_spec (seq_ids : list (option nat)) (ctx : nat)
    (offs : list (nat * nat)) (n : nat) (acc r : list (option (nat * nat))) :
  for_each (mask_step seq_ids ctx) (imap (λ k o, (n + k, o)) offs) acc = Ok r →
  r = acc ++ imap (λ k o, mask_entry seq_ids ctx (n + k) o) offs.
Proof.
  revert n acc. induction offs as [|o offs IH]; intros n acc Hrun.
  - simpl in Hrun. injection Hrun as <-. by rewrite app_nil_r.
  - simpl imap in *. rewrite for_each_cons in Hrun.
    apply bind_Ok in Hrun as (acc' & Hstep & Hrest).
    unfold mask_step in Hstep. simpl in Hstep.
    apply bind_Ok in Hstep as (role & Hrole & [= <-]). apply index_Ok in Hrole.
    rewrite (imap_ext _ (λ k o', (S n + k, o'))) in Hrest
      by (intros; simpl; f_equal; lia).
    apply IH in Hrest. rewrite Hrest, <- app_assoc. simpl. f_equal. f_equal.
    + unfold mask_entry. rewrite Hrole.
      destruct (decide (role = Some ctx)) as [->|Hne].
      * by rewrite !bool_decide_eq_true_2.
      * rewrite !bool_decide_eq_false_2; [done|congruence|done].
    + apply imap_ext. intros k o' _. simpl. f_equal. lia.
Qed.

Lemma mask_offsets_spec (seq_ids : list (option nat)) (ctx : nat)
    (offs : list (nat * nat)) (masked : list (option (nat * nat))) :
  mask_offsets seq_ids ctx offs = Ok masked →
  length masked = length offs
  ∧ ∀ k o, masked !! k = Some (Some o)
           ↔ offs !! k = Some o ∧ seq_ids !! k = Some (Some ctx).
Proof.
  intros H. apply (mask_loop_spec seq_ids ctx offs 0 []) in H. simpl in H. subst masked.
  split; [by rewrite length_imap|].
  intros k o. rewrite list_lookup_imap. unfold mask_entry.
  destruct (offs !! k) as [o'|]; simpl; [|by split; [|intros []]].
  case_bool_decide; split.
  - by intros [= ->].
  - by intros [[= ->] _].
  - done.
  - intros [_ Hk]. done.
Qed.

Lemma validation_loop_spec (pad_on_right : bool) (examples : list Example)
    (enc : BatchEncoding) (n : nat)
    (st : list string * list (list (option (nat * nat)))) :
  for_each (validation_step pad_on_right examples enc) (seq 0 n)
           ([], (λ offs : list (nat * nat), Some <$> offs) <$> enc_offset_mapping enc)
  = Ok st →
  length st.1 = n
  ∧ length st.2 = length (enc_offset_mapping enc)
  ∧ ∀ i, i < n → window_done pad_on_right examples enc st.1 st.2 i.
Proof.
  revert st. induction n as [|n IH]; intros st Hrun.
  - simpl in Hrun. injection Hrun as <-. simpl.
    split; [done|]. split; [by rewrite length_fmap|]. intros i Hi. lia.
  - rewrite seq_S, for_each_app in Hrun. simpl in Hrun.
    apply bind_Ok in Hrun as (st0 & Hrun0 & Hstep).
    destruct (IH st0 Hrun0) as (Hlen1 & Hlen2 & Hdone).
    apply bind_Ok in Hstep as (st1 & Hstep & [= <-]).
    unfold validation_step in Hstep.
    apply bind_Ok in Hstep as (seq_ids & Hseq & Hstep). apply index_Ok in Hseq.
    apply bind_Ok in Hstep as (sample & Hsample & Hstep). apply index_Ok in Hsample.
    apply bind_Ok in Hstep as (example & Hex & Hstep). apply index_Ok in Hex.
    apply bind_Ok in Hstep as (offs & Hoffs & Hstep). apply index_Ok in Hoffs.
    apply bind_Ok in Hstep as (masked & Hmask & [= <-]). simpl.
    split; [rewrite length_app; simpl; lia|].
    split; [by rewrite length_insert|].
    intros i Hi. destruct (decide (i = n)) as [->|Hne].
    + exists seq_ids, offs, sample, example, masked.
      repeat split; try done.
      * rewrite lookup_app_r by lia. by rewrite Hlen1, Nat.sub_diag.
      * apply list_lookup_insert_eq. rewrite Hlen2. by eapply lookup_lt_Some.
    + destruct (Hdone i ltac:(lia)) as (s' & o' & sa' & ex' & m' & ? & ? & ? & ? & Hid & Hom & ?).
      exists s', o', sa', ex', m'. repeat split; try done.
      * by rewrite lookup_app_l by lia.
      * by rewrite list_lookup_insert_ne.
Qed.

(** C7. For every window that validation-mode feature building produces: the
    window records the id of the example it was cut from; its offset mapping
    has the length of the tokenizer's and keeps entry [k] exactly when the
    sequence role of token [k] is the context side, every other entry being
    [None]; so every context token has its offset, and a (start, end) pair
    that the decoder accepts in this window has both ends on context
    tokens. *)
Theorem validation_windows (examples : list Example) (tokenizer : Tokenizer)
    (pad_on_right : bool) (max_length doc_stride : nat) (v : ValidationFeatures) :
  prepare_validation_features examples tokenizer pad_on_right max_length doc_stride
  = Ok v →
  let enc := tokenize tokenizer examples pad_on_right max_length doc_stride in
  let ctx := if pad_on_right then 1 else 0 in
  ∀ i, i < length (input_ids enc) →
    ∃ seq_ids offs sample example masked,
      sequence_ids enc !! i = Some seq_ids
      ∧ enc_offset_mapping enc !! i = Some offs
      ∧ overflow_to_sample_mapping enc !! i = Some sample
      ∧ examples !! sample = Some example
      ∧ val_example_id v !! i = Some (ex_id example)
      ∧ val_offset_mapping v !! i = Some masked
      ∧ length masked = length offs
      ∧ (∀ k o, masked !! k = Some (Some o)
                ↔ offs !! k = Some o ∧ seq_ids !! k = Some (Some ctx))
      ∧ (∀ k, k < length offs → seq_ids !! k = Some (Some ctx) →
              ∃ o, masked !! k = Some (Some o))
      ∧ (∀ args f s e,
           feature_rows v !! i = Some f → span_accepted args f s e = true →
           seq_ids !! s = Some (Some ctx) ∧ seq_ids !! e = Some (Some ctx)).
Proof.
  intros Hrun enc ctx i Hi. unfold prepare_validation_features in Hrun.
  fold enc in Hrun. apply bind_Ok in Hrun as (st & Hloop & [= <-]).
  destruct (validation_loop_spec _ _ _ _ _ Hloop) as (_ & _ & Hdone).
  destruct (Hdone i Hi) as (seq_ids & offs & sample & example & masked
                            & Hseq & Hoffs & Hsample & Hex & Hid & Hom & Hmask).
  destruct (mask_offsets_spec _ _ _ _ Hmask) as [Hlen Hkeep]. fold ctx in Hkeep.
  exists seq_ids, offs, sample, example, masked. simpl.
  split_and!; try done.
  - intros k Hk Hrole. destruct (lookup_lt_is_Some_2 offs k Hk) as [o Ho].
    exists o. by apply Hkeep.
  - intros args f s e Hf Hacc. unfold feature_rows in Hf. simpl in Hf.
    apply lookup_zip_with_Some in Hf as (id' & om & -> & _ & Hom').
    rewrite Hom in Hom'. injection Hom' as <-.
    apply span_accepted_spec in Hacc as (_ & _ & [os Hos] & [oe Hoe] & _).
    simpl in Hos, Hoe. apply Hkeep in Hos as [_ Hos], Hoe as [_ Hoe]. by split.
Qed.

(** ** Training labels *)

Lemma py_get_Ok_range {A : Type} (l : list A) (z : Z) (x : A) :
  py_get l z = Ok x → (- Z.of_nat (length l) <= z < Z.of_nat (length l))%Z.
Proof.
  unfold py_get. destruct (Z.leb_spec 0 z) as [Hz|Hz].
  - intros H%index_Ok. apply lookup_lt_Some in H. lia.
  - destruct (Z.leb_spec (- Z.of_nat (length l)) z) as [Hn|Hn]; [lia|done].
Qed.

Lemma scan_down_loop_fuel {A : Type} (l : list A) (keep_going : A → bool)
    (fuel1 fuel2 : nat) (z : Z) :
  scan_down_fuel l z ≤ fuel1 → scan_down_fuel l z ≤ fuel2 →
  scan_down_loop fuel1 l keep_going z = scan_down_loop fuel2 l keep_going z.
Proof.
  unfold scan_down_fuel. revert fuel2 z.
  induction fuel1 as [|fuel1 IH]; intros fuel2 z H1 H2; [lia|].
  destruct fuel2 as [|fuel2]; [lia|]. simpl.
  destruct (py_get l z) as [x|] eqn:Hget; simpl; [|done].
  destruct (keep_going x); [|done].
  apply py_get_Ok_range in Hget. apply IH; lia.
Qed.

Lemma scan_down_fuel_enough {A : Type} (l : list A) (keep_going : A → bool)
    (fuel : nat) (z : Z) :
  scan_down_fuel l z ≤ fuel →
  scan_down_loop fuel l keep_going z = scan_down l keep_going z.
Proof. intros H. unfold scan_down. by apply scan_down_loop_fuel. Qed.

(** An example without answers is labelled with the position of the CLS
    token in every window. *)
Lemma no_answer_labels (tokenizer : Tokenizer) (pad_on_right : bool)
    (examples : list Example) (enc : BatchEncoding) (i : nat)
    (offsets : list (nat * nat)) (ids : list Z) (seq_ids : list (option nat))
    (sample cls_index : nat) (example : Example) :
  input_ids enc !! i = Some ids →
  list_index ids (cls_token_id tokenizer) 0 = Ok cls_index →
  sequence_ids enc !! i = Some seq_ids →
  overflow_to_sample_mapping enc !! i = Some sample →
  examples !! sample = Some example →
  answer_start (answers example) = [] →
  window_labels tokenizer pad_on_right examples enc i offsets
  = Ok (Z.of_nat cls_index, Z.of_nat cls_index).
Proof.
  intros Hids Hcls Hseq Hsample Hex Hans. unfold window_labels, index.
  rewrite Hids. simpl. rewrite Hcls. simpl. rewrite Hseq, Hsample. simpl.
  rewrite Hex. simpl. by rewrite Hans.
Qed.

(** C4 (the code departs from it). The answer ["world"] lies inside the
    context range of the window and the tightest covering pair is (4, 4), but
    the scan of lines 57-58 runs on over the [(0, 0)] offsets of the closing
    [SEP] and the padding up to the end of the window: the start label is 6,
    a padding token, and the end label is 4. *)
Theorem last_token_answer_label :
  tightest_pair [None; Some 0; None; Some 1; Some 1; None; None] 1
                [(0, 0); (0, 3); (0, 0); (0, 5); (6, 11); (0, 0); (0, 0)]
                6 11 4 4
  ∧ prepare_train_features [last_word_example] last_word_tokenizer true 7 2
    = Ok {| train_input_ids := [[101; 2040; 102; 7592; 2088; 102; 0]%Z];
            start_positions := [6%Z];
            end_positions := [4%Z] |}.
Proof.
  split; [|vm_compute; reflexivity].
  split.
  - split; [done|]. split; [done|]. exists (6, 11), (6, 11). simpl. by repeat split.
  - intros s' e' (Hs & He & os & oe & Hos & Hoe & Hle1 & Hle2).
    assert (Hs' : s' < 7) by (by apply lookup_lt_Some in Hs).
    assert (He' : e' < 7) by (by apply lookup_lt_Some in He).
    destruct s' as [|[|[|[|[|[|[|?]]]]]]]; try discriminate Hs; try lia;
      destruct e' as [|[|[|[|[|[|[|?]]]]]]]; try discriminate He; try lia;
      simpl in Hoe; injection Hoe as <-; simpl in Hle2; lia.
Qed.

(** ** The decoder returns on well-shaped input (outside version-2 mode) *)

Lemma for_each_total {A S : Type} (body : S → A → result S) (I : S → Prop)
    (P : A → Prop) (xs : list A) (acc : S) :
  Forall P xs →
  (∀ s x, P x → I s → ∃ s', body s x = Ok s' ∧ I s') →
  I acc → ∃ r, for_each body xs acc = Ok r ∧ I r.
Proof.
  intros Hxs Hstep. revert acc. induction Hxs as [|x xs Hx _ IH]; intros acc Hacc.
  - by exists acc.
  - destruct (Hstep acc x Hx Hacc) as (s' & Hb & Hs').
    destruct (IH s' Hs') as (r & Hrun & Hr).
    exists r. split; [|done]. by rewrite for_each_cons, Hb.
Qed.

Lemma window_candidates_Ok (args : Args) (f : Feature) (sl el : list Q)
    (prelim : list Candidate) :
  ∃ r, window_candidates args f sl el prelim = Ok r.
Proof.
  unfold window_candidates.
  destruct (start_loop_spec args f sl el (top_indexes sl (n_best_size args))
              (top_indexes el (n_best_size args)) prelim) as (cs & Hrun & _).
  - apply Forall_forall. intros s. apply top_indexes_lt.
  - apply Forall_forall. intros e. apply top_indexes_lt.
  - eauto.
Qed.

Lemma index_known_id (rows : list (nat * string)) (m : gmap string nat) (k : string) :
  k ∈ rows.*2 ∨ is_Some (m !! k) →
  is_Some (foldl (λ m ik, <[ik.2 := ik.1]> m) m rows !! k).
Proof.
  revert m. induction rows as [|[i k'] rows IH]; intros m H; simpl.
  - destruct H as [H|H]; [by apply elem_of_nil in H | done].
  - apply IH. rewrite fmap_cons in H. simpl in H.
    destruct (decide (k' = k)) as [->|Hne].
    + right. by rewrite lookup_insert_eq.
    + destruct H as [H|H].
      * apply elem_of_cons in H as [H|H]; [congruence | by left].
      * right. by rewrite lookup_insert_ne.
Qed.

Lemma example_id_to_index_known (examples : list Example) (k : string) :
  k ∈ ex_id <$> examples → is_Some (example_id_to_index examples !! k).
Proof.
  intros H. apply index_known_id. left.
  rewrite fmap_imap. by rewrite (imap_const ex_id).
Qed.

Lemma features_per_example_Ok (examples : list Example) (features : list Feature) :
  Forall (λ f, example_id f ∈ ex_id <$> examples) features →
  ∃ fpe, features_per_example examples features = Ok fpe
         ∧ ∀ ei l, fpe !! ei = Some l → Forall (λ i, i < length features) l.
Proof.
  intros Hknown. unfold features_per_example.
  apply (for_each_total _ _
           (λ r : nat * Feature, r.1 < length features
                                 ∧ example_id r.2 ∈ ex_id <$> examples)).
  - apply Forall_forall. intros [i f] (j & g & [= -> ->] & Hj)%elem_of_lookup_imap.
    simpl. split; [by eapply lookup_lt_Some|].
    rewrite Forall_forall in Hknown. apply Hknown. by eapply list_elem_of_lookup_2.
  - intros fpe [i f] [Hi Hf] Hinv. simpl in *. unfold group_step. simpl.
    destruct (example_id_to_index_known examples _ Hf) as [ei ->].
    eexists. split; [done|]. intros ei' l.
    destruct (decide (ei = ei')) as [<-|Hne].
    + rewrite lookup_insert_eq. intros [= <-]. apply Forall_app. split.
      * destruct (fpe !! ei) as [l0|] eqn:Hl0; simpl; [by eapply Hinv | constructor].
      * by repeat constructor.
    + rewrite lookup_insert_ne by done. apply Hinv.
  - intros ei l H. by rewrite lookup_empty in H.
Qed.

Lemma decode_example_Ok (args : Args) (features : list Feature)
    (sl el : list (list Q)) (feature_indices : list nat) (example : Example) :
  version_2_with_negative args = false →
  length sl = length features → length el = length features →
  Forall (λ row, row ≠ []) sl → Forall (λ row, row ≠ []) el →
  Forall (λ i, i < length features) feature_indices →
  ∃ answer, decode_example args features sl el feature_indices example = Ok answer.
Proof.
  intros Hv1 Hsl Hel Hsrows Herows Hidx.
  destruct (for_each_total (feature_step args features sl el) (λ _, True)
              (λ i, i < length features) feature_indices (None, []) Hidx)
    as (st & Hloop & _); [|done|].
  { intros st i Hi _. unfold feature_step.
    destruct (index_lt sl i ltac:(lia)) as (srow & -> & Hsrow).
    destruct (index_lt el i ltac:(lia)) as (erow & -> & Herow).
    destruct (index_lt features i Hi) as (f & -> & _). simpl.
    rewrite Forall_forall in Hsrows, Herows.
    apply list_elem_of_lookup_2, Hsrows in Hsrow.
    apply list_elem_of_lookup_2, Herows in Herow.
    destruct srow as [|s0 srow]; [done|]. destruct erow as [|e0 erow]; [done|].
    assert (Hnull : ∃ mn, update_min_null st.1 (s0 :: srow) (e0 :: erow) = Ok mn).
    { unfold update_min_null. simpl. destruct st.1; [destruct (Qltb _ _)|]; eauto. }
    destruct Hnull as [mn ->]. simpl.
    destruct (window_candidates_Ok args f (s0 :: srow) (e0 :: erow) st.2) as [r ->].
    simpl. eauto. }
  unfold decode_example, example_predictions, resolved_predictions.
  rewrite Hloop, Hv1. simpl.
  set (preds := insert_placeholder _).
  pose proof (insert_placeholder_nonempty
                (resolve_text (context example) <$> rank args st.2)) as Hne.
  fold preds in Hne.
  destruct (probabilities_Ok preds Hne) as [probs ->]. simpl.
  unfold select_answer. rewrite Hv1. simpl.
  destruct preds as [|p preds]; [done|]. simpl. eauto.
Qed.

Lemma postprocess_total (args : Args) (examples : list Example)
    (features : list Feature) (all_start_logits all_end_logits : list (list Q)) :
  version_2_with_negative args = false →
  well_shaped examples features all_start_logits all_end_logits →
  ∃ m, postprocess_qa_predictions args examples features
                                  [all_start_logits; all_end_logits] = Ok m.
Proof.
  intros Hv1 (Hsl & Hel & Hknown & Hsrows & Herows).
  unfold postprocess_qa_predictions.
  apply Nat.eqb_eq in Hsl as Hsl'. rewrite Hsl'. simpl.
  destruct (features_per_example_Ok examples features Hknown) as (fpe & -> & Hfpe).
  simpl.
  destruct (for_each_total
              (example_step args features all_start_logits all_end_logits fpe)
              (λ _, True) (λ _, True) (imap (λ i e, (i, e)) examples) [])
    as (m & Hrun & _); [by apply Forall_forall| |done|by exists m].
  intros acc [i ex] _ _. unfold example_step. simpl.
  destruct (decode_example_Ok args features all_start_logits all_end_logits
              (default [] (fpe !! i)) ex) as [answer ->]; try done.
  - destruct (fpe !! i) as [l|] eqn:Hl; simpl; [by eapply Hfpe | constructor].
  - simpl. eauto.
Qed.

(** X1. Outside version-2 mode the decoder returns a mapping for every
    well-shaped input: one row of start logits and one of end logits per
    window, no empty row, and every window cut from one of the examples. *)
Theorem decode_returns (args : Args) (examples : list Example)
    (features : list Feature) (all_start_logits all_end_logits : list (list Q)) :
  version_2_with_negative args = false →
  well_shaped examples features all_start_logits all_end_logits →
  ∃ m, postprocess_qa_predictions args examples features
                                  [all_start_logits; all_end_logits] = Ok m.
Proof. apply postprocess_total. Qed.

(** * The theorems at concrete inputs *)

Lemma null_answer_selection_witness :
  ∃ (i : nat) (best : Prediction) (answer : string),
    paris_predictions_v2 !! i = Some best
    ∧ text best ≠ ""
    ∧ (∀ j q, j < i → paris_predictions_v2 !! j = Some q → text q = "")
    ∧ decode_example (default_args true 0) [paris_window] [paris_start_logits]
                     [paris_end_logits] [0] paris_example = Ok answer
    ∧ let score_diff := (0 - pred_start_logit best - pred_end_logit best)%Q in
      ((null_score_diff_threshold (default_args true 0) < score_diff)%Q → answer = "")
      ∧ (¬ (null_score_diff_threshold (default_args true 0) < score_diff)%Q →
         answer = text best).
Proof.
  apply (null_answer_selection (default_args true 0) [paris_window]
           [paris_start_logits] [paris_end_logits] [0] paris_example
           paris_predictions_v2 0).
  - reflexivity.
  - vm_compute. reflexivity.
  - eexists. split; [left | vm_compute; discriminate].
Defined.

Lemma threshold_monotone_witness :
  ∃ m2,
    postprocess_qa_predictions (with_threshold (default_args true 0) 1)
      [paris_example] [paris_window] [[paris_start_logits]; [paris_end_logits]]
    = Ok m2
    ∧ m2.*1 = ["q1"]
    ∧ ∀ i k answer, [("q1", "Paris")] !! i = Some (k, answer) → answer ≠ "" →
                    m2 !! i = Some (k, answer).
Proof.
  apply (threshold_monotone (default_args true 0) [paris_example] [paris_window]
           [[paris_start_logits]; [paris_end_logits]] 0 1 [("q1", "Paris")]).
  - reflexivity.
  - unfold Qle. simpl. lia.
  - vm_compute. reflexivity.
Defined.

Lemma placeholder_inserted_witness :
  example_predictions (default_args false 0) [] [] [] [] paris_example
  = Ok ([ {| text := "empty"; pred_start_logit := 0; pred_end_logit := 0;
             pred_score := 0 |} ], None)
  ∧ ∃ answer,
      decode_example (default_args false 0) [] [] [] [] paris_example = Ok answer
      ∧ (answer = "empty"
         ∨ (version_2_with_negative (default_args false 0) = true ∧ answer = "")).
Proof.
  apply (placeholder_inserted (default_args false 0) [] [] [] [] paris_example [] None).
  - vm_compute. reflexivity.
  - left. reflexivity.
Defined.

(** The fixed-point format meets what is assumed of a format. *)

Lemma fixed_point_monotone (x y : R) :
  (x <= y)%R → (round fixed_point x <= round fixed_point y)%R.
Proof.
  intros Hxy. simpl.
  assert (H : (IZR (Zfloor (x * 1024 + / 2)) <= IZR (Zfloor (y * 1024 + / 2)))%R).
  { apply IZR_le, Zfloor_le. lra. }
  lra.
Qed.

Lemma fixed_point_grid (z : Z) :
  round fixed_point (IZR z / 1024) = (IZR z / 1024)%R.
Proof.
  simpl. replace (IZR z / 1024 * 1024 + / 2)%R with (IZR z + / 2)%R by lra.
  rewrite (Zfloor_eq z); [done | lra].
Qed.

Lemma fixed_point_idempotent (x : R) :
  round fixed_point (round fixed_point x) = round fixed_point x.
Proof. apply fixed_point_grid. Qed.

Lemma fixed_point_zero : round fixed_point 0 = 0%R.
Proof. replace 0%R with (IZR 0 / 1024)%R at 1 2 by lra. apply fixed_point_grid. Qed.

Lemma fixed_point_one : round fixed_point 1 = 1%R.
Proof. replace 1%R with (IZR 1024 / 1024)%R at 1 2 by lra. apply fixed_point_grid. Qed.

Lemma fixed_point_error (x : R) :
  (Rabs (round fixed_point x - x) <= 0 * Rabs x + / 2048)%R.
Proof.
  simpl. pose proof (Zfloor_bound (x * 1024 + / 2)) as H.
  apply Rabs_le. lra.
Qed.

Lemma fixed_point_sum (x y : R) :
  representable fixed_point x → representable fixed_point y →
  (Rabs (round fixed_point (x + y) - (x + y)) <= 0 * Rabs (x + y))%R.
Proof.
  unfold representable. intros <- <-. simpl.
  set (zx := Zfloor (x * 1024 + / 2)). set (zy := Zfloor (y * 1024 + / 2)).
  replace ((IZR zx / 1024 + IZR zy / 1024) * 1024 + / 2)%R
    with (IZR (zx + zy) + / 2)%R by (rewrite plus_IZR; lra).
  rewrite (Zfloor_eq (zx + zy)) by lra.
  rewrite plus_IZR.
  replace (_ - _)%R with 0%R by lra. rewrite Rabs_R0. lra.
Qed.

Lemma exp_unit_interval (x : R) : (x <= 0)%R → (0 <= exp x <= 1)%R.
Proof.
  intros Hx. pose proof (exp_pos x). split; [lra|].
  destruct (Req_dec_T x 0) as [->|Hne]; [rewrite exp_0; lra|].
  rewrite <- exp_0. apply Rlt_le, exp_increasing. lra.
Qed.

Lemma foldl_fadd_tree (F : FloatFormat) (l : list float) (t : sum_tree) :
  ∃ t', leaves t' = leaves t ++ l ∧ foldl (fadd F) (tree_sum F t) l = tree_sum F t'.
Proof.
  revert t. induction l as [|a l IH]; intros t.
  - exists t. by rewrite app_nil_r.
  - destruct (IH (Node t (Leaf a))) as (t' & Hleaves & Hsum).
    exists t'. split; [|exact Hsum]. rewrite Hleaves. simpl. by rewrite <- app_assoc.
Qed.

Lemma sequential_sum_tree (F : FloatFormat) (l : list float) :
  l ≠ [] → ∃ t, leaves t ≡ₚ l ∧ sequential_sum F l = tree_sum F t.
Proof.
  destruct l as [|a l]; [done|]. intros _.
  destruct (foldl_fadd_tree F l (Leaf a)) as (t & Hleaves & Hsum).
  exists t. split; [by rewrite Hleaves | exact Hsum].
Qed.

Lemma fixed_point_finite (x : R) :
  (Rabs x <= 999999)%R → is_finite (fl fixed_point x).
Proof.
  intros Hx. apply Rabs_between in Hx. exists (round fixed_point x).
  unfold fl, Rltb. destruct (Rlt_dec _ _) as [Hover|_]; [|done]. exfalso.
  pose proof (fixed_point_error x) as Herr. apply Rabs_between in Herr.
  revert Hover. apply Rle_not_lt. change (largest fixed_point) with 1000000%R.
  apply Rabs_le. lra.
Qed.


Lemma one_entry_per_example_witness :
  [("q1", "Paris")].*1 = ex_id <$> [paris_example].
Proof.
  apply (one_entry_per_example (default_args false 0) [paris_example] [paris_window]
           [[paris_start_logits]; [paris_end_logits]] [("q1", "Paris")]).
  - apply NoDup_singleton.
  - vm_compute. reflexivity.
Defined.

Lemma validation_windows_witness :
  ∃ seq_ids offs sample example masked,
    sequence_ids last_word_encoding !! 0 = Some seq_ids
    ∧ enc_offset_mapping last_word_encoding !! 0 = Some offs
    ∧ overflow_to_sample_mapping last_word_encoding !! 0 = Some sample
    ∧ [last_word_example] !! sample = Some example
    ∧ ["q1"] !! 0 = Some (ex_id example)
    ∧ [[None; None; None; Some (0, 5); Some (6, 11); None; None]] !! 0 = Some masked
    ∧ length masked = length offs
    ∧ (∀ k o, masked !! k = Some (Some o)
              ↔ offs !! k = Some o ∧ seq_ids !! k = Some (Some 1))
    ∧ (∀ k, k < length offs → seq_ids !! k = Some (Some 1) →
            ∃ o, masked !! k = Some (Some o))
    ∧ (∀ args f s e,
         feature_rows
           {| val_input_ids := [[101; 2040; 102; 7592; 2088; 102; 0]%Z];
              val_example_id := ["q1"];
              val_offset_mapping :=
                [[None; None; None; Some (0, 5); Some (6, 11); None; None]] |} !! 0
         = Some f →
         span_accepted args f s e = true →
         seq_ids !! s = Some (Some 1) ∧ seq_ids !! e = Some (Some 1)).
Proof.
  apply (validation_windows [last_word_example] last_word_tokenizer true 7 2
           {| val_input_ids := [[101; 2040; 102; 7592; 2088; 102; 0]%Z];
              val_example_id := ["q1"];
              val_offset_mapping :=
                [[None; None; None; Some (0, 5); Some (6, 11); None; None]] |}).
  - vm_compute. reflexivity.
  - simpl. lia.
Defined.

(** * Further properties of the decoder *)

(** ** The index of the example ids (source line 246) *)

Lemma example_id_to_index_snoc (examples : list Example) (e : Example) :
  example_id_to_index (examples ++ [e])
  = <[ex_id e := length examples]> (example_id_to_index examples).
Proof.
  unfold example_id_to_index. rewrite imap_app, foldl_app. simpl.
  by rewrite Nat.add_0_r.
Qed.

Lemma example_id_to_index_spec (examples : list Example) (k : string) (i : nat) :
  example_id_to_index examples !! k = Some i
  ↔ (∃ e, examples !! i = Some e ∧ ex_id e = k)
    ∧ ∀ j e', i < j → examples !! j = Some e' → ex_id e' ≠ k.
Proof.
  revert i. induction examples as [|e examples IH] using rev_ind; intros i.
  - unfold example_id_to_index. simpl. rewrite lookup_empty. split; [done|].
    by intros [(e & He & _) _].
  - rewrite example_id_to_index_snoc. destruct (decide (ex_id e = k)) as [Hk|Hk].
    + rewrite Hk, lookup_insert_eq. split.
      * intros [= <-]. split.
        -- exists e. split; [|done]. rewrite lookup_app_r by lia.
           by rewrite Nat.sub_diag.
        -- intros j e' Hj He'. apply lookup_lt_Some in He'.
           rewrite length_app in He'. simpl in He'. lia.
      * intros [(e0 & He0 & _) Hlast].
        destruct (decide (i = length examples)) as [->|Hne]; [done|].
        exfalso. apply lookup_lt_Some in He0 as Hlt.
        rewrite length_app in Hlt; simpl in Hlt.
        apply (Hlast (length examples) e); [lia| |done].
        rewrite lookup_app_r by lia. by rewrite Nat.sub_diag.
    + rewrite lookup_insert_ne by done. rewrite IH. split.
      * intros [(e0 & He0 & Hid) Hlast]. apply lookup_lt_Some in He0 as Hlt. split.
        -- exists e0. split; [|done]. by rewrite lookup_app_l.
        -- intros j e' Hj He'. destruct (decide (j < length examples)) as [Hjl|Hjl].
           ++ rewrite lookup_app_l in He' by done. by eapply Hlast.
           ++ rewrite lookup_app_r in He' by lia.
              destruct (j - length examples) as [|?] eqn:Hd; simpl in He'; [|done].
              by injection He' as <-.
      * intros [(e0 & He0 & Hid) Hlast].
        assert (Hlt : i < length examples).
        { apply lookup_lt_Some in He0 as Hlt. rewrite length_app in Hlt; simpl in Hlt.
          destruct (decide (i = length examples)) as [->|]; [|lia].
          rewrite lookup_app_r in He0 by lia. rewrite Nat.sub_diag in He0.
          injection He0 as <-. done. }
        rewrite lookup_app_l in He0 by done. split; [by exists e0|].
        intros j e' Hj He'. apply (Hlast j e' Hj).
        apply lookup_lt_Some in He' as Hjl. by rewrite lookup_app_l.
Qed.

Lemma example_id_to_index_Some_known (examples : list Example) (k : string) (i : nat) :
  example_id_to_index examples !! k = Some i → k ∈ ex_id <$> examples.
Proof.
  intros [(e & He & <-) _]%example_id_to_index_spec.
  apply list_elem_of_fmap. exists e. split; [done|]. by eapply list_elem_of_lookup_2.
Qed.

(** X3. The dict of line 246 sends an id to the position of the last example
    that carries it and knows no other key; with pairwise-distinct ids,
    looking up the id of the example at a position gives that position. *)
Theorem example_id_to_index_last (examples : list Example) (k : string) (i : nat) :
  (example_id_to_index examples !! k = Some i
   ↔ (∃ e, examples !! i = Some e ∧ ex_id e = k)
     ∧ ∀ j e', i < j → examples !! j = Some e' → ex_id e' ≠ k)
  ∧ (NoDup (ex_id <$> examples) →
     ∀ e, examples !! i = Some e →
          example_id_to_index examples !! ex_id e = Some i).
Proof.
  split; [apply example_id_to_index_spec|].
  intros Hnd e He. apply example_id_to_index_spec. split; [by exists e|].
  intros j e' Hj He' Hid.
  assert (Hi : (ex_id <$> examples) !! i = Some (ex_id e))
    by by rewrite list_lookup_fmap, He.
  assert (Hj' : (ex_id <$> examples) !! j = Some (ex_id e))
    by by rewrite list_lookup_fmap, He', <- Hid.
  pose proof (NoDup_lookup _ _ _ _ Hnd Hi Hj'). lia.
Qed.

(** ** A window of an unknown example (source lines 248-249) *)

Lemma for_each_raises {A S : Type} (body : S → A → result S) (e : exn)
    (xs : list A) (acc : S) :
  (∀ s x, body s x = Raise e ∨ ∃ s', body s x = Ok s') →
  (∃ x, x ∈ xs ∧ ∀ s, body s x = Raise e) →
  for_each body xs acc = Raise e.
Proof.
  intros Hcases (x & Hin & Hx). revert acc.
  induction xs as [|y xs IH]; intros acc; [by apply elem_of_nil in Hin|].
  rewrite for_each_cons. apply elem_of_cons in Hin as [<-|Hin].
  - by rewrite Hx.
  - destruct (Hcases acc y) as [->|[s' ->]]; [done|]. by apply IH.
Qed.

(** X2. When the logits have the right shape and some window names an example id
    that no example has, the decoder raises KeyError, whatever the other
    windows and the logits are. *)
Theorem unknown_example_id (args : Args) (examples : list Example)
    (features : list Feature) (all_start_logits all_end_logits : list (list Q)) :
  length all_start_logits = length features →
  (∃ f, f ∈ features ∧ example_id f ∉ ex_id <$> examples) →
  postprocess_qa_predictions args examples features
                             [all_start_logits; all_end_logits]
  = Raise KeyError.
Proof.
  intros Hlen (f & Hin & Hunknown). unfold postprocess_qa_predictions.
  apply Nat.eqb_eq in Hlen. rewrite Hlen. simpl.
  unfold features_per_example. rewrite (for_each_raises _ KeyError); [done| |].
  - intros fpe [i g]. unfold group_step. simpl.
    destruct (example_id_to_index examples !! example_id g); eauto.
  - apply list_elem_of_lookup in Hin as [i Hi]. exists (i, f). split.
    + by apply (elem_of_lookup_imap_2 (λ i f, (i, f))).
    + intros fpe. unfold group_step. simpl.
      destruct (example_id_to_index examples !! example_id f) as [ei|] eqn:Hei; [|done].
      by apply example_id_to_index_Some_known in Hei.
Qed.

Lemma unknown_example_id_witness :
  postprocess_qa_predictions (default_args false 0) []
    [paris_window] [[paris_start_logits]; [paris_end_logits]]
  = Raise KeyError.
Proof.
  apply (unknown_example_id (default_args false 0) [] [paris_window]
           [paris_start_logits] [paris_end_logits]).
  - reflexivity.
  - exists paris_window. split; [left | simpl; apply not_elem_of_nil].
Defined.

Lemma decode_returns_witness :
  ∃ m, postprocess_qa_predictions (default_args false 0) [paris_example]
         [paris_window] [[paris_start_logits]; [paris_end_logits]] = Ok m.
Proof.
  apply (decode_returns (default_args false 0) [paris_example] [paris_window]
           [paris_start_logits] [paris_end_logits]).
  - reflexivity.
  - unfold well_shaped. split_and!; try reflexivity.
    + repeat constructor.
    + by repeat constructor.
    + by repeat constructor.
Defined.

(** ** The null candidate (source lines 263-270) *)

Lemma window_null_logits_fun (sl el : list (list Q)) (i : nat) (s0 e0 s1 e1 : Q) :
  window_null_logits sl el i s0 e0 → window_null_logits sl el i s1 e1 →
  s0 = s1 ∧ e0 = e1.
Proof.
  intros (? & ? & H1 & H2 & H3 & H4) (? & ? & H1' & H2' & H3' & H4').
  rewrite H1 in H1'. rewrite H2 in H2'.
  injection H1' as <-. injection H2' as <-.
  rewrite H3 in H3'. rewrite H4 in H4'. by simplify_eq.
Qed.

Lemma feature_step_null (args : Args) (features : list Feature)
    (sl el : list (list Q)) (st st' : option Candidate * list Candidate) (i : nat) :
  feature_step args features sl el st i = Ok st' →
  ∃ s0 e0,
    window_null_logits sl el i s0 e0
    ∧ st'.1 = (let fresh := {| offsets := (0, 0); score := (s0 + e0)%Q;
                               start_logit := s0; end_logit := e0 |} in
               match st.1 with
               | None => Some fresh
               | Some m => if Qltb (s0 + e0) (score m) then Some fresh else Some m
               end).
Proof.
  unfold feature_step. intros H.
  apply bind_Ok in H as (srow & Hs%index_Ok & H).
  apply bind_Ok in H as (erow & He%index_Ok & H).
  apply bind_Ok in H as (f & _ & H).
  apply bind_Ok in H as (mn & Hmn & H).
  apply bind_Ok in H as (prelim & _ & [= <-]). simpl.
  unfold update_min_null in Hmn.
  apply bind_Ok in Hmn as (s0 & Hs0%index_Ok & Hmn).
  apply bind_Ok in Hmn as (e0 & He0%index_Ok & Hmn).
  exists s0, e0. split; [by exists srow, erow|].
  destruct st.1 as [m|]; [destruct (Qltb _ _)|]; by injection Hmn as <-.
Qed.

Lemma min_null_loop (args : Args) (features : list Feature) (sl el : list (list Q))
    (feature_indices : list nat) (st : option Candidate * list Candidate) :
  for_each (feature_step args features sl el) feature_indices (None, []) = Ok st →
  match feature_indices with
  | [] => st.1 = None
  | _ => ∃ m, st.1 = Some m ∧ min_null_of sl el feature_indices m
  end.
Proof.
  revert st. induction feature_indices as [|i idxs IH] using rev_ind; intros st Hrun.
  - simpl in Hrun. by injection Hrun as <-.
  - rewrite for_each_app in Hrun. apply bind_Ok in Hrun as (st0 & Hrun0 & Hstep).
    simpl in Hstep. apply bind_Ok in Hstep as (st1 & Hstep & [= <-]).
    apply feature_step_null in Hstep as (s0 & e0 & Hwin & Hst1).
    specialize (IH st0 Hrun0).
    assert (Hgoal : ∃ m, st1.1 = Some m ∧ min_null_of sl el (idxs ++ [i]) m);
      [|by destruct idxs].
    assert (Hnew : (idxs ++ [i]) !! length idxs = Some i).
    { rewrite lookup_app_r by lia. by rewrite Nat.sub_diag. }
    assert (Hcases : ∀ k' i', (idxs ++ [i]) !! k' = Some i' →
                       (k' < length idxs ∧ idxs !! k' = Some i')
                       ∨ (k' = length idxs ∧ i' = i)).
    { intros k' i' Hk'. destruct (decide (k' < length idxs)) as [Hlt|Hge].
      - left. by rewrite lookup_app_l in Hk'.
      - right. apply lookup_lt_Some in Hk' as Hlt.
        rewrite length_app in Hlt; simpl in Hlt.
        assert (k' = length idxs) as -> by lia. rewrite Hnew in Hk'.
        by injection Hk' as <-. }
    destruct idxs as [|i0 idxs'] eqn:Hidxs.
    + rewrite IH in Hst1. simpl in Hst1. eexists. split; [exact Hst1|].
      split; [done|]. split; [done|]. exists 0, i. simpl. split; [done|].
      split; [done|]. intros k' i' s1 e1 Hk' Hwin'.
      destruct k' as [|k']; [|done]. injection Hk' as <-.
      destruct (window_null_logits_fun _ _ _ _ _ _ _ Hwin Hwin') as [<- <-].
      split; [apply Qle_refl | lia].
    + rewrite <- Hidxs in *. clear Hidxs i0 idxs'.
      destruct IH as (m & Hm & Hoff & Hscore & k & ik & Hk & Hatt & Hmin).
      rewrite Hm in Hst1. simpl in Hst1.
      apply lookup_lt_Some in Hk as Hklt.
      destruct (Qltb (s0 + e0) (score m)) eqn:Hcmp.
      * apply Qltb_lt in Hcmp. eexists. split; [exact Hst1|].
        split; [done|]. split; [done|]. exists (length idxs), i. simpl.
        split; [done|]. split; [done|]. intros k' i' s1 e1 Hk' Hwin'.
        destruct (Hcases k' i' Hk') as [[Hlt Hold]|[-> ->]].
        -- destruct (Hmin k' i' s1 e1 Hold Hwin') as [Hle _].
           split; [|intros _]; [apply Qlt_le_weak|];
             by apply Qlt_le_trans with (score m).
        -- destruct (window_null_logits_fun _ _ _ _ _ _ _ Hwin Hwin') as [<- <-].
           split; [apply Qle_refl | lia].
      * apply not_true_iff_false in Hcmp. rewrite Qltb_lt in Hcmp.
        apply Qnot_lt_le in Hcmp.
        exists m. split; [exact Hst1|]. split; [done|]. split; [done|].
        exists k, ik. split; [by rewrite lookup_app_l|]. split; [done|].
        intros k' i' s1 e1 Hk' Hwin'.
        destruct (Hcases k' i' Hk') as [[Hlt Hold]|[-> ->]].
        -- exact (Hmin k' i' s1 e1 Hold Hwin').
        -- destruct (window_null_logits_fun _ _ _ _ _ _ _ Hwin Hwin') as [<- <-].
           split; [done | lia].
Qed.

(** X5. After the loop over the windows of an example that has at least one
    window, [min_null_prediction] has the offsets (0, 0) and the sentinel
    logits of a window of the example; its score is the least null score of
    the example's windows, and among the windows with that score it is the
    first. *)
Theorem min_null_is_minimum (args : Args) (features : list Feature)
    (all_start_logits all_end_logits : list (list Q)) (feature_indices : list nat)
    (st : option Candidate * list Candidate) :
  feature_indices ≠ [] →
  for_each (feature_step args features all_start_logits all_end_logits)
           feature_indices (None, []) = Ok st →
  ∃ m, st.1 = Some m
       ∧ min_null_of all_start_logits all_end_logits feature_indices m.
Proof.
  intros Hne Hrun. apply min_null_loop in Hrun. by destruct feature_indices.
Qed.

Lemma min_null_is_minimum_witness :
  ∃ m, (Some {| offsets := (0, 0); score := 0; start_logit := 0; end_logit := 0 |},
        @nil Candidate).1 = Some m
       ∧ min_null_of [[0; 1]%Q; [0; 2]%Q] [[0; 1]%Q; [0; 2]%Q] [0; 1] m.
Proof.
  apply (min_null_is_minimum (default_args true 0)
           [ {| example_id := "q1"; offset_mapping := [None; None];
                token_is_max_context := None |};
             {| example_id := "q1"; offset_mapping := [None; None];
                token_is_max_context := None |} ]
           [[0; 1]%Q; [0; 2]%Q] [[0; 1]%Q; [0; 2]%Q] [0; 1]).
  - discriminate.
  - vm_compute. reflexivity.
Defined.

(** ** The surviving predictions (source lines 295-309) *)

Lemma resolved_predictions_inv (args : Args) (features : list Feature)
    (sl el : list (list Q)) (feature_indices : list nat) (example : Example)
    (resolved : list Prediction) (null_score : option Q) :
  resolved_predictions args features sl el feature_indices example
  = Ok (resolved, null_score) →
  ∃ st,
    for_each (feature_step args features sl el) feature_indices (None, []) = Ok st
    ∧ if version_2_with_negative args then
        ∃ m, st.1 = Some m
             ∧ null_score = Some (score m)
             ∧ resolved
               = resolve_text (context example)
                 <$> (if has_null (rank args (st.2 ++ [m]))
                      then rank args (st.2 ++ [m])
                      else rank args (st.2 ++ [m]) ++ [m])
      else null_score = None
           ∧ resolved = resolve_text (context example) <$> rank args st.2.
Proof.
  unfold resolved_predictions. intros H.
  apply bind_Ok in H as (st & Hloop & H). exists st. split; [done|].
  destruct (version_2_with_negative args); simpl in H.
  - apply bind_Ok in H as (st2 & Hst2 & H).
    apply bind_Ok in Hst2 as (m & Hm & [= <-]). simpl in H.
    unfold subscript_null in Hm. destruct st.1 as [m'|] eqn:Hst1; [|done].
    injection Hm as ->. exists m. split; [done|].
    destruct (has_null (rank args (st.2 ++ [m]))); simpl in H.
    + by injection H as <- <-.
    + by injection H as <- <-.
  - by injection H as <- <-.
Qed.

Lemma window_candidates_scores (args : Args) (f : Feature) (sl el : list Q)
    (prelim r : list Candidate) :
  Forall score_is_sum prelim →
  window_candidates args f sl el prelim = Ok r → Forall score_is_sum r.
Proof.
  intros Hprelim Hrun. unfold window_candidates in Hrun.
  destruct (start_loop_spec args f sl el (top_indexes sl (n_best_size args))
              (top_indexes el (n_best_size args)) prelim) as (cs & Hrun' & Hall).
  - apply Forall_forall. intros s. apply top_indexes_lt.
  - apply Forall_forall. intros e. apply top_indexes_lt.
  - rewrite Hrun' in Hrun. injection Hrun as <-. apply Forall_app. split; [done|].
    clear Hrun'. induction Hall as [|p c ps cs Hc _ IH]; constructor; [|exact IH].
    by destruct Hc as (? & ? & ? & ? & _ & _ & _ & _ & ->).
Qed.

Lemma feature_loop_scores (args : Args) (features : list Feature)
    (sl el : list (list Q)) (feature_indices : list nat)
    (st : option Candidate * list Candidate) :
  for_each (feature_step args features sl el) feature_indices (None, []) = Ok st →
  Forall score_is_sum st.2
  ∧ ∀ m, st.1 = Some m → score_is_sum m ∧ offsets m = (0, 0).
Proof.
  apply (for_each_invariant _
           (λ st, Forall score_is_sum st.2
                  ∧ ∀ m, st.1 = Some m → score_is_sum m ∧ offsets m = (0, 0))).
  - intros s i s' _ [Hprelim Hnull] Hstep.
    apply feature_step_null in Hstep as Hmn. destruct Hmn as (s0 & e0 & _ & Hs').
    unfold feature_step in Hstep.
    apply bind_Ok in Hstep as (srow & _ & Hstep).
    apply bind_Ok in Hstep as (erow & _ & Hstep).
    apply bind_Ok in Hstep as (f & _ & Hstep).
    apply bind_Ok in Hstep as (mn & _ & Hstep).
    apply bind_Ok in Hstep as (prelim & Hwin & [= <-]). simpl in *. split.
    + by eapply window_candidates_scores.
    + intros m Hm. rewrite Hm in Hs'.
      destruct s.1 as [m0|]; [destruct (Qltb _ _)|]; injection Hs' as ->;
        try done. by apply Hnull.
  - split; [constructor | done].
Qed.

Lemma rank_sublist (args : Args) (l : list Candidate) :
  ∀ c, c ∈ rank args l → c ∈ l.
Proof.
  intros c Hc. unfold rank in Hc.
  apply elem_of_take in Hc as (i & Hc & _). apply list_elem_of_lookup_2 in Hc.
  by rewrite stable_sort_perm in Hc.
Qed.

Lemma rank_length (args : Args) (l : list Candidate) :
  length (rank args l) ≤ n_best_size args.
Proof. unfold rank. rewrite length_take. lia. Qed.

(** X6. In every surviving prediction, the placeholder included, the score is the
    sum of the start logit and the end logit. *)
Theorem surviving_scores (args : Args) (features : list Feature)
    (all_start_logits all_end_logits : list (list Q)) (feature_indices : list nat)
    (example : Example) (predictions : list Prediction) (null_score : option Q) :
  example_predictions args features all_start_logits all_end_logits
                      feature_indices example = Ok (predictions, null_score) →
  Forall (λ p, pred_score p = (pred_start_logit p + pred_end_logit p)%Q) predictions.
Proof.
  unfold example_predictions. intros H.
  apply bind_Ok in H as ([resolved ns] & Hres & [= <- <-]). simpl.
  apply resolved_predictions_inv in Hres as (st & Hloop & Hres).
  destruct (feature_loop_scores _ _ _ _ _ _ Hloop) as [Hprelim Hnull].
  assert (Hresolved : ∀ l, Forall score_is_sum l →
            Forall (λ p, pred_score p = (pred_start_logit p + pred_end_logit p)%Q)
                   (resolve_text (context example) <$> l)).
  { intros l Hl. apply Forall_fmap. eapply Forall_impl; [exact Hl|]. by intros c Hc. }
  assert (Hall : Forall (λ p, pred_score p
                              = (pred_start_logit p + pred_end_logit p)%Q) resolved).
  { destruct (version_2_with_negative args).
    - destruct Hres as (m & Hm & _ & ->). destruct (Hnull m Hm) as [Hsum _].
      assert (Hrank : Forall score_is_sum (rank args (st.2 ++ [m]))).
      { apply Forall_forall. intros c Hc%rank_sublist.
        apply elem_of_app in Hc as [Hc|Hc%list_elem_of_singleton].
        - rewrite Forall_forall in Hprelim. by apply Hprelim.
        - by subst c. }
      apply Hresolved. destruct (has_null _); [done|].
      apply Forall_app. split; [done | by constructor].
    - destruct Hres as [_ ->]. apply Hresolved.
      apply Forall_forall. intros c Hc%rank_sublist.
      rewrite Forall_forall in Hprelim. by apply Hprelim. }
  unfold insert_placeholder. destruct (needs_placeholder resolved); [|done].
  constructor; [reflexivity | done].
Qed.

Lemma surviving_scores_witness :
  Forall (λ p, pred_score p = (pred_start_logit p + pred_end_logit p)%Q)
         paris_predictions_v2.
Proof.
  apply (surviving_scores (default_args true 0) [paris_window]
           [paris_start_logits] [paris_end_logits] [0] paris_example
           paris_predictions_v2 (Some 0%Q)).
  vm_compute. reflexivity.
Defined.

Lemma py_slice_empty (s : string) (a : nat) : py_slice s a a = "".
Proof.
  unfold py_slice. rewrite Nat.sub_diag. revert a.
  induction s as [|c s IH]; intros [|a]; simpl; done.
Qed.

Lemma elem_of_insert_placeholder (l : list Prediction) (p : Prediction) :
  p ∈ l → p ∈ insert_placeholder l.
Proof.
  unfold insert_placeholder. destruct (needs_placeholder l); [by right | done].
Qed.

(** X7. In version-2 mode, when the predictions of an example are computed,
    [null_score] is bound to the score of the null candidate of the example's
    windows, that is their least null score, and an entry with the offsets
    (0, 0), whose text is empty, is among the surviving predictions: where
    the cut to [n_best_size] removed it, it is put back. *)
Theorem null_candidate_kept (args : Args) (features : list Feature)
    (all_start_logits all_end_logits : list (list Q)) (feature_indices : list nat)
    (example : Example) (predictions : list Prediction) (null_score : option Q) :
  version_2_with_negative args = true →
  example_predictions args features all_start_logits all_end_logits
                      feature_indices example = Ok (predictions, null_score) →
  (∃ m, min_null_of all_start_logits all_end_logits feature_indices m
        ∧ null_score = Some (score m))
  ∧ ∃ p, p ∈ predictions ∧ text p = "".
Proof.
  intros Hv2. unfold example_predictions. intros H.
  apply bind_Ok in H as ([resolved ns] & Hres & [= <- <-]). simpl.
  apply resolved_predictions_inv in Hres as (st & Hloop & Hres).
  rewrite Hv2 in Hres. destruct Hres as (m & Hm & -> & ->).
  destruct (feature_loop_scores _ _ _ _ _ _ Hloop) as [_ Hnull].
  destruct (Hnull m Hm) as [_ Hoff].
  split.
  - exists m. split; [|done]. apply min_null_loop in Hloop.
    destruct feature_indices; [congruence|].
    destruct Hloop as (m' & Hm' & Hmin). by simplify_eq.
  - assert (Hc : ∃ c, c ∈ (if has_null (rank args (st.2 ++ [m]))
                           then rank args (st.2 ++ [m])
                           else rank args (st.2 ++ [m]) ++ [m])
                       ∧ offsets c = (0, 0)).
    { destruct (has_null _) eqn:Hhas.
      - unfold has_null in Hhas. apply existsb_exists in Hhas as (c & Hc & Hoffc).
        exists c. split; [by apply list_elem_of_In|]. by apply bool_decide_eq_true in Hoffc.
      - exists m. split; [|done]. apply elem_of_app. right. by left. }
    destruct Hc as (c & Hc & Hoffc).
    exists (resolve_text (context example) c). split.
    + apply elem_of_insert_placeholder. by apply list_elem_of_fmap_2.
    + simpl. rewrite Hoffc. simpl. apply py_slice_empty.
Qed.

Lemma null_candidate_kept_witness :
  (∃ m, min_null_of [paris_start_logits] [paris_end_logits] [0] m
        ∧ Some 0%Q = Some (score m))
  ∧ ∃ p, p ∈ paris_predictions_v2 ∧ text p = "".
Proof.
  apply (null_candidate_kept (default_args true 0) [paris_window]
           [paris_start_logits] [paris_end_logits] [0] paris_example
           paris_predictions_v2 (Some 0%Q)).
  - reflexivity.
  - vm_compute. reflexivity.
Defined.

(** X8. The surviving predictions of an example are never none, and never more
    than [n_best_size] (one more in version-2 mode, for the null candidate
    that is put back), unless that is less than the two entries that the
    placeholder can make. *)
Theorem surviving_count (args : Args) (features : list Feature)
    (all_start_logits all_end_logits : list (list Q)) (feature_indices : list nat)
    (example : Example) (predictions : list Prediction) (null_score : option Q) :
  example_predictions args features all_start_logits all_end_logits
                      feature_indices example = Ok (predictions, null_score) →
  1 ≤ length predictions
  ∧ length predictions
    ≤ Nat.max 2 (n_best_size args + (if version_2_with_negative args then 1 else 0)).
Proof.
  unfold example_predictions. intros H.
  apply bind_Ok in H as ([resolved ns] & Hres & [= <- <-]). simpl.
  apply resolved_predictions_inv in Hres as (st & _ & Hres).
  assert (Hlen : length resolved
                 ≤ n_best_size args + (if version_2_with_negative args then 1 else 0)).
  { destruct (version_2_with_negative args).
    - destruct Hres as (m & _ & _ & ->). rewrite length_fmap.
      pose proof (rank_length args (st.2 ++ [m])).
      destruct (has_null _); [lia|]. rewrite length_app. simpl. lia.
    - destruct Hres as [_ ->]. rewrite length_fmap.
      pose proof (rank_length args st.2). lia. }
  unfold insert_placeholder, needs_placeholder.
  destruct resolved as [|p [|q resolved]]; simpl in *; [lia| |lia].
  destruct (String.eqb (text p) ""); simpl; lia.
Qed.

Lemma surviving_count_witness :
  1 ≤ length paris_predictions_v2
  ∧ length paris_predictions_v2
    ≤ Nat.max 2 (n_best_size (default_args true 0)
                 + (if version_2_with_negative (default_args true 0) then 1 else 0)).
Proof.
  apply (surviving_count (default_args true 0) [paris_window]
           [paris_start_logits] [paris_end_logits] [0] paris_example
           paris_predictions_v2 (Some 0%Q)).
  vm_compute. reflexivity.
Defined.

(** ** Grouping the windows (source lines 247-249) *)

Lemma filter_ext_in {A : Type} (P Q : A → Prop) `{∀ x, Decision (P x)}
    `{∀ x, Decision (Q x)} (l : list A) :
  (∀ x, x ∈ l → (P x ↔ Q x)) → filter P l = filter Q l.
Proof.
  induction l as [|x l IH]; intros Hext; [done|].
  rewrite !filter_cons.
  rewrite IH by (intros y Hy; apply Hext; by right).
  destruct (decide (P x)) as [HP|HP], (decide (Q x)) as [HQ|HQ]; try done.
  - by apply Hext in HP; [|left].
  - by apply Hext in HQ; [|left].
Qed.

Lemma windows_of_snoc (examples : list Example) (features : list Feature)
    (f : Feature) (ei : nat) :
  windows_of examples (features ++ [f]) ei
  = windows_of examples features ei
    ++ (if decide (example_id_to_index examples !! example_id f = Some ei)
        then [length features] else []).
Proof.
  unfold windows_of. rewrite length_app. simpl. rewrite Nat.add_1_r, seq_S.
  rewrite filter_app. simpl. f_equal.
  - apply filter_ext_in. intros i Hi%elem_of_seq.
    by rewrite lookup_app_l by lia.
  - rewrite filter_cons, filter_nil.
    rewrite lookup_app_r by lia. rewrite Nat.sub_diag. simpl.
    destruct (decide (_ = Some ei)), (decide (_ = Some ei)); done.
Qed.

Lemma features_per_example_windows (examples : list Example)
    (features : list Feature) (fpe : gmap nat (list nat)) :
  features_per_example examples features = Ok fpe →
  ∀ ei, default [] (fpe !! ei) = windows_of examples features ei.
Proof.
  unfold features_per_example. revert fpe.
  induction features as [|f features IH] using rev_ind; intros fpe Hrun ei.
  - simpl in Hrun. injection Hrun as <-. by rewrite lookup_empty.
  - rewrite imap_app, for_each_app in Hrun. simpl in Hrun.
    apply bind_Ok in Hrun as (fpe0 & Hrun0 & Hstep).
    apply bind_Ok in Hstep as (fpe1 & Hstep & [= <-]).
    unfold group_step in Hstep. simpl in Hstep.
    destruct (example_id_to_index examples !! example_id f) as [ei0|] eqn:Hei0;
      [|done].
    injection Hstep as <-. rewrite windows_of_snoc, Hei0, Nat.add_0_r.
    destruct (decide (ei0 = ei)) as [->|Hne].
    + rewrite lookup_insert_eq. simpl. rewrite (IH fpe0 Hrun0 ei).
      by rewrite decide_True.
    + rewrite lookup_insert_ne by done. rewrite (IH fpe0 Hrun0 ei).
      rewrite decide_False by congruence. by rewrite app_nil_r.
Qed.

Lemma for_each_Ok_steps {A S : Type} (body : S → A → result S) (xs : list A)
    (acc r : S) :
  for_each body xs acc = Ok r → ∀ x, x ∈ xs → ∃ s s', body s x = Ok s'.
Proof.
  revert acc. induction xs as [|y xs IH]; intros acc Hrun x Hx.
  - by apply elem_of_nil in Hx.
  - rewrite for_each_cons in Hrun. apply bind_Ok in Hrun as (s1 & Hb & Hrest).
    apply elem_of_cons in Hx as [->|Hx]; [by exists acc, s1 | by eapply IH].
Qed.

(** X4. When the grouping of lines 247-249 succeeds, the entry of an example
    position is the increasing list of exactly the windows whose example id
    the id dict sends to that position (a position without such a window has
    no entry, and the decoder reads the empty list), and every window is in
    the group of one position and of no other. *)
Theorem features_per_example_groups (examples : list Example)
    (features : list Feature) (fpe : gmap nat (list nat)) :
  features_per_example examples features = Ok fpe →
  (∀ ei, default [] (fpe !! ei) = windows_of examples features ei)
  ∧ ∀ i f, features !! i = Some f →
      ∃ ei, example_id_to_index examples !! example_id f = Some ei
            ∧ i ∈ default [] (fpe !! ei)
            ∧ ∀ ei', i ∈ default [] (fpe !! ei') → ei' = ei.
Proof.
  intros Hrun. pose proof (features_per_example_windows _ _ _ Hrun) as Hgroups.
  split; [exact Hgroups|]. intros i f Hi.
  assert (Hmem : ∀ ei', i ∈ default [] (fpe !! ei')
                        ↔ example_id_to_index examples !! example_id f = Some ei').
  { intros ei'. rewrite Hgroups. unfold windows_of.
    rewrite list_elem_of_filter, Hi, elem_of_seq. simpl.
    apply lookup_lt_Some in Hi. split; [by intros [? _] | intros ?; split; [done|lia]]. }
  unfold features_per_example in Hrun.
  destruct (for_each_Ok_steps _ _ _ _ Hrun (i, f)) as (s & s' & Hstep).
  { by apply (elem_of_lookup_imap_2 (λ i f, (i, f))). }
  unfold group_step in Hstep. simpl in Hstep.
  destruct (example_id_to_index examples !! example_id f) as [ei|] eqn:Hei; [|done].
  exists ei. split; [done|]. split; [by apply Hmem|].
  intros ei' Hin%Hmem. congruence.
Qed.

Lemma features_per_example_groups_witness :
  (∀ ei, default [] (({[1 := [0; 1]]} : gmap nat (list nat)) !! ei)
         = windows_of [paris_example; zero_width_example]
                      [paris_window; zero_width_window] ei)
  ∧ ∀ i f, [paris_window; zero_width_window] !! i = Some f →
      ∃ ei, example_id_to_index [paris_example; zero_width_example] !! example_id f
            = Some ei
            ∧ i ∈ default [] (({[1 := [0; 1]]} : gmap nat (list nat)) !! ei)
            ∧ ∀ ei', i ∈ default [] (({[1 := [0; 1]]} : gmap nat (list nat)) !! ei') →
                     ei' = ei.
Proof.
  apply (features_per_example_groups [paris_example; zero_width_example]
           [paris_window; zero_width_window]).
  vm_compute. reflexivity.
Defined.

(** ** One example at a time (source lines 253-330) *)

Lemma example_loop_entries (args : Args) (examples : list Example)
    (features : list Feature) (sl el : list (list Q)) (fpe : gmap nat (list nat))
    (rows : list (nat * Example)) (acc m : list (string * string)) :
  (∀ ei, default [] (fpe !! ei) = windows_of examples features ei) →
  NoDup (acc.*1 ++ ((λ r, ex_id r.2) <$> rows)) →
  for_each (example_step args features sl el fpe) rows acc = Ok m →
  ∃ m', m = acc ++ m' ∧ Forall2 (entry_of args examples features sl el) rows m'.
Proof.
  intros Hfpe. revert acc. induction rows as [|[i ex] rows IH]; intros acc Hnd Hrun.
  - simpl in Hrun. injection Hrun as <-. exists []. by rewrite app_nil_r.
  - rewrite for_each_cons in Hrun. apply bind_Ok in Hrun as (acc' & Hstep & Hrest).
    unfold example_step in Hstep. simpl in Hstep.
    apply bind_Ok in Hstep as (answer & Hdec & [= <-]).
    rewrite fmap_cons in Hnd. simpl in Hnd.
    assert (Hfresh : ex_id ex ∉ acc.*1).
    { apply NoDup_app in Hnd as (_ & Hdisj & _). intros Hin.
      apply (Hdisj _ Hin). by left. }
    rewrite (od_set_fresh _ _ _ Hfresh) in Hrest.
    apply IH in Hrest as (m' & -> & Hall).
    + exists ((ex_id ex, answer) :: m'). split; [by rewrite <- app_assoc|].
      constructor; [|done]. split; [done|]. simpl. by rewrite <- Hfpe.
    + rewrite fmap_app. simpl. by rewrite <- app_assoc.
Qed.

Lemma rows_at_cons {A : Type} (l : list A) (i : nat) (indices : list nat) (x : A) :
  l !! i = Some x → rows_at l (i :: indices) = x :: rows_at l indices.
Proof. intros H. unfold rows_at. simpl. by rewrite H. Qed.

Lemma index_middle {A : Type} (pre rest : list A) (x : A) (n : nat) :
  length pre = n → index (pre ++ x :: rest) n = Ok x.
Proof. intros <-. apply index_Ok. by rewrite list_lookup_middle. Qed.

(** The loop over the windows of an example reads the rows of these windows
    and nothing else: it runs the same on the input cut down to them. *)
Lemma feature_loop_rows (args : Args) (features : list Feature)
    (sl el : list (list Q)) (indices : list nat) (pf : list Feature)
    (ps pe : list (list Q)) (st st' : option Candidate * list Candidate) :
  length ps = length pf → length pe = length pf →
  for_each (feature_step args features sl el) indices st = Ok st' →
  for_each (feature_step args (pf ++ rows_at features indices)
                         (ps ++ rows_at sl indices) (pe ++ rows_at el indices))
           (seq (length pf) (length indices)) st = Ok st'.
Proof.
  revert pf ps pe st. induction indices as [|i indices IH]; intros pf ps pe st Hps Hpe Hrun.
  - exact Hrun.
  - rewrite for_each_cons in Hrun. apply bind_Ok in Hrun as (st1 & Hstep & Hrest).
    unfold feature_step in Hstep.
    apply bind_Ok in Hstep as (start_logits & Hsl & Hstep).
    apply bind_Ok in Hstep as (end_logits & Hel & Hstep).
    apply bind_Ok in Hstep as (f & Hf & Hstep).
    apply index_Ok in Hsl, Hel, Hf.
    rewrite (rows_at_cons _ _ _ _ Hsl), (rows_at_cons _ _ _ _ Hel),
      (rows_at_cons _ _ _ _ Hf).
    cbn [length seq]. rewrite for_each_cons. apply bind_Ok. exists st1. split.
    + unfold feature_step.
      rewrite (index_middle ps _ start_logits _ Hps),
        (index_middle pe _ end_logits _ Hpe), (index_middle pf _ f _ eq_refl).
      exact Hstep.
    + rewrite (cons_middle f pf), (cons_middle start_logits ps),
        (cons_middle end_logits pe), !app_assoc.
      replace (S (length pf)) with (length (pf ++ [f])) by (rewrite length_app; simpl; lia).
      apply IH; [| |exact Hrest]; rewrite !length_app; simpl; lia.
Qed.

Lemma decode_example_rows (args : Args) (features : list Feature)
    (sl el : list (list Q)) (indices : list nat) (example : Example) (answer : string) :
  decode_example args features sl el indices example = Ok answer →
  decode_example args (rows_at features indices) (rows_at sl indices)
                 (rows_at el indices) (seq 0 (length indices)) example = Ok answer.
Proof.
  unfold decode_example, example_predictions, resolved_predictions. intros H.
  destruct (for_each (feature_step args features sl el) indices (None, []))
    as [st|e0] eqn:Hloop; [|done].
  pose proof (feature_loop_rows args features sl el indices [] [] [] _ _
                eq_refl eq_refl Hloop) as Hown.
  change (for_each (feature_step args (rows_at features indices) (rows_at sl indices)
                                 (rows_at el indices))
                   (seq 0 (length indices)) (None, []) = Ok st) in Hown.
  rewrite Hown. exact H.
Qed.

(** X9. With pairwise-distinct ids, the mapping that the decoder returns pairs
    the examples, in order, with the decoding of each from its own windows
    alone: the answer of an example is what the decoding gives on an input
    that holds nothing but the windows of that example and their logits, so
    it does not depend on the other examples, on their windows or on where
    its own windows stand among them. *)
Theorem decode_entries (args : Args) (examples : list Example)
    (features : list Feature) (all_start_logits all_end_logits : list (list Q))
    (m : list (string * string)) :
  NoDup (ex_id <$> examples) →
  postprocess_qa_predictions args examples features
                             [all_start_logits; all_end_logits] = Ok m →
  Forall2 (entry_alone args examples features all_start_logits all_end_logits)
          (imap (λ i e, (i, e)) examples) m.
Proof.
  intros Hnd. unfold postprocess_qa_predictions.
  destruct (negb _); [done|].
  destruct (features_per_example examples features) as [fpe|] eqn:Hfpe; simpl; [|done].
  intros Hrun.
  apply (example_loop_entries args examples) in Hrun as (m' & -> & Hall).
  - simpl. eapply Forall2_impl; [exact Hall|].
    intros ie kv [Hk Hdec]. split; [exact Hk|]. by apply decode_example_rows.
  - by apply features_per_example_windows.
  - simpl.
    replace ((λ r : nat * Example, ex_id r.2) <$> imap (λ i e, (i, e)) examples)
      with (ex_id <$> examples); [done|].
    rewrite <- (imap_snd examples 0) at 1. by rewrite <- list_fmap_compose.
Qed.

Lemma decode_entries_witness :
  Forall2 (entry_alone (default_args false 0) [paris_example; rome_example]
                       [rome_window; paris_window; rome_margin]
                       [rome_start_logits; paris_start_logits; margin_logits]
                       [rome_end_logits; paris_end_logits; margin_logits])
          (imap (λ i e, (i, e)) [paris_example; rome_example])
          [("q1", "Paris"); ("q2", "old")].
Proof.
  apply (decode_entries (default_args false 0) [paris_example; rome_example]
           [rome_window; paris_window; rome_margin]
           [rome_start_logits; paris_start_logits; margin_logits]
           [rome_end_logits; paris_end_logits; margin_logits]
           [("q1", "Paris"); ("q2", "old")]).
  - apply (bool_decide_unpack _). vm_compute. exact I.
  - vm_compute. reflexivity.
Defined.

(** ** An example without a window *)

Lemma decode_example_no_window (args : Args) (features : list Feature)
    (sl el : list (list Q)) (example : Example) :
  decode_example args features sl el [] example
  = if version_2_with_negative args then Raise TypeError else Ok "empty".
Proof.
  unfold decode_example, example_predictions, resolved_predictions. simpl.
  destruct (version_2_with_negative args) eqn:Hv2; simpl; [done|].
  assert (Hrank : rank args [] = []).
  { unfold rank, stable_sort. simpl. by destruct (n_best_size args). }
  rewrite Hrank. simpl. unfold select_answer. by rewrite Hv2.
Qed.

(** X10. An example that owns no window is not skipped. Outside version-2 mode,
    with pairwise-distinct ids, its entry in the returned mapping is the
    placeholder text ["empty"]; in version-2 mode the decoder returns no
    mapping at all, because [min_null_prediction] is still [None] when it is
    subscripted. *)
Theorem example_without_window (args : Args) (examples : list Example)
    (features : list Feature) (all_start_logits all_end_logits : list (list Q))
    (i : nat) (e : Example) :
  examples !! i = Some e →
  windows_of examples features i = [] →
  if version_2_with_negative args then
    ∀ m, postprocess_qa_predictions args examples features
                                    [all_start_logits; all_end_logits] ≠ Ok m
  else
    NoDup (ex_id <$> examples) →
    ∀ m, postprocess_qa_predictions args examples features
                                    [all_start_logits; all_end_logits] = Ok m →
         m !! i = Some (ex_id e, "empty").
Proof.
  intros He Hnone. pose proof (decode_example_no_window args features
                                 all_start_logits all_end_logits e) as Hdec.
  assert (Hrow : imap (λ i e, (i, e)) examples !! i = Some (i, e))
    by by rewrite list_lookup_imap, He.
  unfold postprocess_qa_predictions.
  destruct (version_2_with_negative args).
  - intros m Hrun. destruct (negb _); [done|].
    destruct (features_per_example examples features) as [fpe|] eqn:Hfpe;
      simpl in Hrun; [|done].
    apply list_elem_of_lookup_2 in Hrow.
    destruct (for_each_Ok_steps _ _ _ _ Hrun _ Hrow) as (s & s' & Hstep).
    unfold example_step in Hstep. simpl in Hstep.
    rewrite (features_per_example_windows _ _ _ Hfpe i), Hnone, Hdec in Hstep.
    done.
  - intros Hnd m Hrun. destruct (negb _); [done|].
    destruct (features_per_example examples features) as [fpe|] eqn:Hfpe;
      simpl in Hrun; [|done].
    apply (example_loop_entries args examples) in Hrun as (m' & -> & Hall).
    + simpl. destruct (Forall2_lookup_l _ _ _ _ _ Hall Hrow) as ([k a] & Hkv & Hk & Ha).
      simpl in Hk, Ha. rewrite Hnone, Hdec in Ha. injection Ha as <-.
      by rewrite Hkv, Hk.
    + by apply features_per_example_windows.
    + simpl.
      replace ((λ r : nat * Example, ex_id r.2) <$> imap (λ i e, (i, e)) examples)
        with (ex_id <$> examples); [done|].
      rewrite <- (imap_snd examples 0) at 1. by rewrite <- list_fmap_compose.
Qed.

Lemma example_without_window_witness :
  postprocess_qa_predictions (default_args true 0) [paris_example] []
                             [[]; []] ≠ Ok []
  ∧ postprocess_qa_predictions (default_args false 0) [paris_example] []
                               [[]; []] = Ok [("q1", "empty")]
  ∧ [("q1", "empty")] !! 0 = Some (ex_id paris_example, "empty").
Proof.
  split_and!.
  - apply (example_without_window (default_args true 0) [paris_example] [] [] []
             0 paris_example); reflexivity.
  - reflexivity.
  - apply (example_without_window (default_args false 0) [paris_example] [] [] []
             0 paris_example).
    + reflexivity.
    + reflexivity.
    + apply NoDup_singleton.
    + reflexivity.
Defined.

(** ** The best span outside version-2 mode (source lines 299, 318-319) *)

Lemma rank_head_max (args : Args) (l : list Candidate) (c : Candidate)
    (rest : list Candidate) :
  rank args l = c :: rest →
  c ∈ l ∧ ∀ c', c' ∈ l → (score c' <= score c)%Q.
Proof.
  intros Hrank. split.
  - apply (rank_sublist args). rewrite Hrank. by left.
  - pose proof (ranking_descends l) as Hsorted.
    apply Sorted_StronglySorted in Hsorted;
      [|intros x y z Hxy Hyz; by apply Qle_trans with (score y)].
    unfold rank in Hrank.
    destruct (stable_sort _ l) as [|c0 sorted] eqn:Hsort.
    { by rewrite take_nil in Hrank. }
    destruct (n_best_size args) as [|n]; [done|]. simpl in Hrank.
    injection Hrank as -> _. apply StronglySorted_inv in Hsorted as [_ Hhd].
    intros c' Hc'. rewrite <- (stable_sort_perm (λ a b, Qltb (score b) (score a)) l),
                     Hsort in Hc'.
    apply elem_of_cons in Hc' as [->|Hc']; [apply Qle_refl|].
    rewrite Forall_forall in Hhd. by apply Hhd.
Qed.

Lemma candidate_of_fun (f : Feature) (sl el : list Q) (pair : nat * nat)
    (c1 c2 : Candidate) :
  candidate_of f sl el pair c1 → candidate_of f sl el pair c2 → c1 = c2.
Proof.
  intros (os1 & oe1 & s1 & e1 & Hos1 & Hoe1 & Hs1 & He1 & ->)
         (os2 & oe2 & s2 & e2 & Hos2 & Hoe2 & Hs2 & He2 & ->).
  congruence.
Qed.

Lemma window_candidates_elem (args : Args) (f : Feature) (sl el : list Q)
    (acc r : list Candidate) :
  window_candidates args f sl el acc = Ok r →
  ∀ c, c ∈ r ↔
       c ∈ acc
       ∨ ∃ s e, s ∈ top_indexes sl (n_best_size args)
                ∧ e ∈ top_indexes el (n_best_size args)
                ∧ valid_span args f s e
                ∧ candidate_of f sl el (s, e) c.
Proof.
  unfold window_candidates.
  set (starts := top_indexes sl (n_best_size args)).
  set (ends := top_indexes el (n_best_size args)).
  assert (Hstarts : Forall (λ s, s < length sl) starts).
  { apply Forall_forall. intros s. apply top_indexes_lt. }
  assert (Hends : Forall (λ e, e < length el) ends).
  { apply Forall_forall. intros e. apply top_indexes_lt. }
  destruct (start_loop_spec args f sl el starts ends acc Hstarts Hends)
    as (cs & Hrun & Hall).
  rewrite Hrun. intros [= <-] c. rewrite elem_of_app.
  split; (intros [Hacc|H]; [by left|right]).
  - apply list_elem_of_lookup in H as [k Hk].
    destruct (Forall2_lookup_r _ _ _ _ _ Hall Hk) as ([s e] & Hpair & Hc).
    apply list_elem_of_lookup_2 in Hpair.
    apply list_elem_of_bind in Hpair as (s' & Hin & Hs').
    apply list_elem_of_fmap in Hin as (e' & [= -> ->] & He').
    apply list_elem_of_In, filter_In in He' as [He' Hok].
    exists s', e'. split_and!; try done.
    + by apply list_elem_of_In.
    + by apply span_accepted_spec.
  - destruct H as (s & e & Hs & He & Hvalid & Hc).
    assert (Hpair : (s, e) ∈ (s ← starts;
                              (λ e, (s, e)) <$> List.filter (span_accepted args f s) ends)).
    { apply list_elem_of_bind. exists s. split; [|done].
      apply list_elem_of_fmap. exists e. split; [done|].
      apply list_elem_of_In, filter_In. split; [by apply list_elem_of_In|].
      by apply span_accepted_spec. }
    apply list_elem_of_lookup in Hpair as [k Hk].
    destruct (Forall2_lookup_l _ _ _ _ _ Hall Hk) as (c' & Hc' & Hcand).
    rewrite (candidate_of_fun _ _ _ _ _ _ Hc Hcand).
    by eapply list_elem_of_lookup_2.
Qed.

(** The candidates that the loop over the windows appends are those of the
    valid spans of these windows, and all of them. *)
Lemma feature_loop_spans (args : Args) (features : list Feature)
    (sl el : list (list Q)) (indices : list nat)
    (st st' : option Candidate * list Candidate) :
  for_each (feature_step args features sl el) indices st = Ok st' →
  ∀ c, c ∈ st'.2 ↔ c ∈ st.2 ∨ span_of args features sl el indices c.
Proof.
  revert st. induction indices as [|i indices IH]; intros st Hrun c.
  - injection Hrun as <-. split; [by left|].
    intros [H|(i & f & s1 & e1 & s & e & Hi & _)]; [done|].
    by apply elem_of_nil in Hi.
  - rewrite for_each_cons in Hrun. apply bind_Ok in Hrun as (st1 & Hstep & Hrest).
    rewrite (IH _ Hrest c). unfold feature_step in Hstep.
    apply bind_Ok in Hstep as (start_logits & Hsl & Hstep).
    apply bind_Ok in Hstep as (end_logits & Hel & Hstep).
    apply bind_Ok in Hstep as (f & Hf & Hstep).
    apply bind_Ok in Hstep as (mn & _ & Hstep).
    apply bind_Ok in Hstep as (prelim & Hwin & [= <-]).
    apply index_Ok in Hsl, Hel, Hf. simpl.
    rewrite (window_candidates_elem _ _ _ _ _ _ Hwin c). split.
    + intros [[Hacc|(s & e & Hs & He & Hvalid & Hc)]|Hspan].
      * by left.
      * right. exists i, f, start_logits, end_logits, s, e.
        split_and!; try done. by left.
      * right. destruct Hspan as (i' & f' & s1 & e1 & s & e & Hi' & Hrest').
        exists i', f', s1, e1, s, e. split; [by right | exact Hrest'].
    + intros [Hacc|(i' & f' & s1 & e1 & s & e & Hi' & Hf' & Hs1 & He1 & Hrest')].
      * by left; left.
      * apply elem_of_cons in Hi' as [->|Hi'].
        -- left. right. exists s, e.
           rewrite Hf in Hf'. rewrite Hsl in Hs1. rewrite Hel in He1.
           injection Hf' as <-. injection Hs1 as <-. by injection He1 as <-.
        -- right. exists i', f', s1, e1, s, e. destruct Hrest' as (? & ? & ? & ?).
           by split_and!.
Qed.

(** X11. Outside version-2 mode the candidates of an example are the candidates
    of the valid spans of its windows, all of them. When the list cut to the
    [n_best_size] best is empty, or is a single span whose text is empty,
    the answer is the placeholder text ["empty"]; in every other case it is
    the text of the first span of the cut list, which is a valid span of
    one of the example's windows with the highest score among them all. *)
Theorem best_span_answer (args : Args) (features : list Feature)
    (all_start_logits all_end_logits : list (list Q)) (feature_indices : list nat)
    (example : Example) (st : option Candidate * list Candidate) (answer : string) :
  version_2_with_negative args = false →
  for_each (feature_step args features all_start_logits all_end_logits)
           feature_indices (None, []) = Ok st →
  decode_example args features all_start_logits all_end_logits
                 feature_indices example = Ok answer →
  let is_span := span_of args features all_start_logits all_end_logits
                         feature_indices in
  let text_of := λ c, py_slice (context example) (offsets c).1 (offsets c).2 in
  let cut := rank args st.2 in
  (∀ c, c ∈ st.2 ↔ is_span c)
  ∧ (cut = [] ↔ n_best_size args = 0 ∨ ∀ c, ¬ is_span c)
  ∧ (cut = [] ∨ (∃ c, cut = [c] ∧ text_of c = "") → answer = "empty")
  ∧ (∀ c rest, cut = c :: rest → ¬ (rest = [] ∧ text_of c = "") →
               answer = text_of c
               ∧ is_span c
               ∧ ∀ c', is_span c' → (score c' <= score c)%Q).
Proof.
  intros Hv1 Hloop Hdec is_span text_of cut.
  assert (Hspans : ∀ c, c ∈ st.2 ↔ is_span c).
  { intros c. rewrite (feature_loop_spans _ _ _ _ _ _ _ Hloop c). simpl.
    split; [intros [H|H]; [by apply elem_of_nil in H | done] | by right]. }
  assert (Hanswer : answer = match cut with
                             | [] => "empty"
                             | [c] => if String.eqb (text_of c) "" then "empty"
                                      else text_of c
                             | c :: _ => text_of c
                             end).
  { revert Hdec. unfold decode_example, example_predictions, resolved_predictions.
    rewrite Hloop, Hv1. simpl. fold cut.
    destruct cut as [|c [|c2 rest]]; simpl.
    - unfold select_answer. rewrite Hv1. simpl. by intros [= <-].
    - unfold insert_placeholder, needs_placeholder. simpl. fold (text_of c).
      destruct (String.eqb (text_of c) ""); simpl;
        unfold select_answer; rewrite Hv1; simpl; by intros [= <-].
    - unfold select_answer. rewrite Hv1. simpl. by intros [= <-]. }
  split; [exact Hspans|]. split; [|split].
  - unfold cut, rank. split.
    + intros Hcut. destruct (n_best_size args) as [|n]; [by left|]. right.
      intros c Hc. apply Hspans in Hc.
      rewrite <- (stable_sort_perm (λ a b, Qltb (score b) (score a)) st.2) in Hc.
      destruct (stable_sort _ st.2); [by apply elem_of_nil in Hc | done].
    + intros [->|Hnone]; [done|].
      destruct (stable_sort _ st.2) as [|c sorted] eqn:Hsort; [by rewrite take_nil|].
      exfalso. apply (Hnone c), Hspans.
      rewrite <- (stable_sort_perm (λ a b, Qltb (score b) (score a)) st.2), Hsort.
      by left.
  - intros [Hcut|(c & Hcut & Htext)]; rewrite Hcut in Hanswer; [done|].
    by rewrite Htext in Hanswer.
  - intros c rest Hcut Hnot. destruct (rank_head_max _ _ _ _ Hcut) as [Hin Hmax].
    split_and!.
    + rewrite Hcut in Hanswer. destruct rest as [|c2 rest]; [|done].
      destruct (String.eqb (text_of c) "") eqn:Heq; [|done].
      apply String.eqb_eq in Heq. by destruct Hnot.
    + by apply Hspans.
    + intros c' Hc'. by apply Hmax, Hspans.
Qed.

Lemma best_span_answer_witness :
  let is_span := span_of (default_args false 0) [paris_window] [paris_start_logits]
                         [paris_end_logits] [0] in
  let text_of := λ c, py_slice (context paris_example) (offsets c).1 (offsets c).2 in
  let cut := rank (default_args false 0) paris_candidates in
  (∀ c, c ∈ paris_candidates ↔ is_span c)
  ∧ (cut = [] ↔ n_best_size (default_args false 0) = 0 ∨ ∀ c, ¬ is_span c)
  ∧ (cut = [] ∨ (∃ c, cut = [c] ∧ text_of c = "") → "Paris" = "empty")
  ∧ (∀ c rest, cut = c :: rest → ¬ (rest = [] ∧ text_of c = "") →
               "Paris" = text_of c
               ∧ is_span c
               ∧ ∀ c', is_span c' → (score c' <= score c)%Q).
Proof.
  apply (best_span_answer (default_args false 0) [paris_window]
           [paris_start_logits] [paris_end_logits] [0] paris_example
           (Some {| offsets := (0, 0); score := 0; start_logit := 0; end_logit := 0 |},
            paris_candidates) "Paris").
  - reflexivity.
  - vm_compute. reflexivity.
  - vm_compute. reflexivity.
Defined.

(** * Further properties of feature building *)

(** ** The scans of the training labels (source lines 37, 47-62) *)

Lemma list_index_spec (rest : list Z) (x : Z) (i j : nat) :
  list_index rest x i = Ok j → ∃ k, j = i + k ∧ first_position rest x k.
Proof.
  revert i. induction rest as [|y rest IH]; intros i; simpl; [done|].
  destruct (Z.eqb_spec y x) as [->|Hne].
  - intros [= <-]. exists 0. split; [lia|]. split; [done|]. intros k Hk. lia.
  - intros (k & -> & Hk & Hfirst)%IH. exists (S k). split; [lia|].
    split; [done|]. intros [|k'] Hk'; simpl; [congruence|]. apply Hfirst. lia.
Qed.

Lemma list_index_absent (rest : list Z) (x : Z) (i : nat) :
  x ∉ rest → list_index rest x i = Raise ValueError.
Proof.
  revert i. induction rest as [|y rest IH]; intros i Hx; simpl; [done|].
  apply not_elem_of_cons in Hx as [Hne Hx].
  destruct (Z.eqb_spec y x) as [->|_]; [done|]. by apply IH.
Qed.

Lemma context_start_spec (rest : list (option nat)) (ctx i j : nat) :
  context_start rest ctx i = Ok j →
  ∃ k, j = i + k ∧ first_position rest (Some ctx) k.
Proof.
  revert i. induction rest as [|r rest IH]; intros i; simpl; [done|].
  case_bool_decide as Hr.
  - intros (k & -> & Hk & Hfirst)%IH. exists (S k). split; [lia|].
    split; [done|]. intros [|k'] Hk'; simpl; [congruence|]. apply Hfirst. lia.
  - subst r. intros [= <-]. exists 0. split; [lia|].
    split; [done|]. intros k Hk. lia.
Qed.

Lemma context_start_absent (rest : list (option nat)) (ctx i : nat) :
  Some ctx ∉ rest → context_start rest ctx i = Raise IndexError.
Proof.
  revert i. induction rest as [|r rest IH]; intros i Hx; simpl; [done|].
  apply not_elem_of_cons in Hx as [Hne Hx].
  rewrite bool_decide_eq_true_2 by congruence. by apply IH.
Qed.

Lemma scan_down_loop_spec {A : Type} (l : list A) (keep_going : A → bool)
    (fuel : nat) (top z : Z) :
  scan_down_loop fuel l keep_going top = Ok z →
  (z <= top)%Z
  ∧ (∃ x, py_get l z = Ok x ∧ keep_going x = false)
  ∧ ∀ z', (z < z' <= top)%Z → ∃ x, py_get l z' = Ok x ∧ keep_going x = true.
Proof.
  revert top. induction fuel as [|fuel IH]; intros top; simpl; [done|].
  destruct (py_get l top) as [x|] eqn:Hget; simpl; [|done].
  destruct (keep_going x) eqn:Hkeep.
  - intros (Hle & Hz & Habove)%IH. split; [lia|]. split; [done|].
    intros z' Hz'. destruct (decide (z' = top)) as [->|Hne]; [by exists x|].
    apply Habove. lia.
  - intros [= <-]. split; [lia|]. split; [by exists x|]. intros z' Hz'. lia.
Qed.

Lemma scan_start_spec (offsets : list (nat * nat)) (start_char ts : nat) :
  ts ≤ length offsets →
  let j := scan_start (drop ts offsets) start_char ts in
  ts ≤ j ≤ length offsets
  ∧ (∀ k o, ts ≤ k < j → offsets !! k = Some o → o.1 ≤ start_char)
  ∧ (∀ o, offsets !! j = Some o → start_char < o.1).
Proof.
  intros Hts. simpl.
  remember (length offsets - ts) as n eqn:Hn. revert ts Hts Hn.
  induction n as [|n IH]; intros ts Hts Hn.
  - assert (ts = length offsets) as -> by lia. rewrite drop_all. simpl.
    split; [lia|]. split; [intros k o Hk; lia|].
    intros o Ho. apply lookup_lt_Some in Ho. lia.
  - destruct (drop ts offsets) as [|o rest] eqn:Hdrop.
    { apply (f_equal length) in Hdrop. rewrite length_drop in Hdrop. simpl in Hdrop. lia. }
    assert (Ho : offsets !! ts = Some o).
    { rewrite <- (Nat.add_0_r ts), <- lookup_drop, Hdrop. done. }
    assert (Hrest : drop (S ts) offsets = rest).
    { replace (S ts) with (ts + 1) by lia. by rewrite <- drop_drop, Hdrop. }
    simpl. destruct (o.1 <=? start_char) eqn:Hcmp.
    + apply Nat.leb_le in Hcmp. rewrite <- Hrest.
      destruct (IH (S ts)) as (Hj & Hrun & Hstop); [lia|lia|].
      split; [lia|]. split; [|done].
      intros k o' Hk Ho'. destruct (decide (k = ts)) as [->|Hne].
      * rewrite Ho in Ho'. by injection Ho' as <-.
      * apply (Hrun k o'); [lia|done].
    + apply Nat.leb_gt in Hcmp. split; [lia|]. split; [intros k o' Hk; lia|].
      intros o' Ho'. rewrite Ho in Ho'. by injection Ho' as <-.
Qed.

(** ** The training labels (source lines 34-62) *)

Lemma window_labels_inv (tokenizer : Tokenizer) (pad_on_right : bool)
    (examples : list Example) (enc : BatchEncoding) (i : nat)
    (offsets : list (nat * nat)) (s e : Z) :
  window_labels tokenizer pad_on_right examples enc i offsets = Ok (s, e) →
  ∃ ids seq_ids sample example,
    input_ids enc !! i = Some ids
    ∧ sequence_ids enc !! i = Some seq_ids
    ∧ overflow_to_sample_mapping enc !! i = Some sample
    ∧ examples !! sample = Some example
    ∧ labels_of tokenizer pad_on_right ids seq_ids offsets example s e.
Proof.
  unfold window_labels. intros H.
  apply bind_Ok in H as (ids & Hids%index_Ok & H).
  apply bind_Ok in H as (cls & Hcls & H).
  apply list_index_spec in Hcls as (cls' & -> & Hcls). simpl in H.
  apply bind_Ok in H as (seq_ids & Hseq%index_Ok & H).
  apply bind_Ok in H as (sample & Hsample%index_Ok & H).
  apply bind_Ok in H as (example & Hex%index_Ok & H).
  exists ids, seq_ids, sample, example. split_and!; try done.
  exists cls'. split; [done|].
  destruct (answer_start (answers example)) as [|start_char rest] eqn:Hans.
  { simpl in H. injection H as <- <-. by left. }
  right. simpl in H.
  apply bind_Ok in H as (txt & Htxt%index_Ok & H).
  set (ctx := if pad_on_right then 1 else 0) in *.
  apply bind_Ok in H as (ts & Hts & H).
  apply context_start_spec in Hts as (ts' & -> & Hts). simpl in H.
  apply bind_Ok in H as (te & Hte & H).
  apply scan_down_loop_spec in Hte as (Hte_le & (r & Hte_get & Hr) & Hte_above).
  apply bool_decide_eq_false in Hr. apply dec_stable in Hr. subst r.
  assert (Hlast : last_context seq_ids ctx (Z.of_nat (length ids) - 1) te).
  { split; [done|]. split; [done|]. intros z Hz.
    destruct (Hte_above z Hz) as (r & Hget & Hr). exists r. split; [done|].
    by apply bool_decide_eq_true in Hr. }
  apply bind_Ok in H as (o_start & Hos%index_Ok & H).
  exists start_char, txt, ts', te. split_and!; try done.
  apply bind_Ok in H as (inside & Hinside & H).
  destruct (o_start.1 <=? start_char) eqn:Hcmp1.
  - apply Nat.leb_le in Hcmp1.
    apply bind_Ok in Hinside as (o_end & Hoe & [= <-]).
    destruct (start_char + String.length txt <=? o_end.2) eqn:Hcmp2; simpl in H.
    + apply Nat.leb_le in Hcmp2. right.
      split; [by exists o_start, o_end|].
      apply bind_Ok in H as (tei & Htei & [= <- <-]).
      apply scan_down_loop_spec in Htei as (Htei_le & (x & Htei_get & Hx) & Htei_above).
      apply Nat.leb_gt in Hx.
      apply lookup_lt_Some in Hos as Hts_lt.
      destruct (scan_start_spec offsets start_char ts' ltac:(lia))
        as (Hj & Hrun & Hstop).
      set (j := scan_start (drop ts' offsets) start_char ts') in *.
      assert (Hj_gt : ts' < j).
      { destruct (decide (j = ts')) as [Heq|]; [|lia].
        rewrite Heq in Hstop. specialize (Hstop o_start Hos). lia. }
      assert (Htei_lt : (tei < te)%Z).
      { destruct (decide (tei = te)) as [->|]; [|lia].
        rewrite Hoe in Htei_get. injection Htei_get as <-. lia. }
      split.
      * exists (j - 1). split; [lia|]. split; [lia|]. split.
        -- intros k o Hk Ho. apply (Hrun k o); [lia|done].
        -- intros o Ho. apply Hstop. by replace j with (S (j - 1)) by lia.
      * split; [lia|]. split.
        -- intros z Hz. destruct (Htei_above z ltac:(lia)) as (o & Hget & Ho).
           exists o. split; [done|]. by apply Nat.leb_le in Ho.
        -- exists x. split; [|lia]. by replace (tei + 1 - 1)%Z with tei by lia.
    + apply Nat.leb_gt in Hcmp2. simpl in H. injection H as <- <-. left.
      split; [|done]. intros (o1 & o2 & Ho1 & Ho2 & _ & Hle).
      rewrite Hoe in Ho2. injection Ho2 as <-. lia.
  - apply Nat.leb_gt in Hcmp1. injection Hinside as <-. simpl in H.
    injection H as <- <-. left. split; [|done].
    intros (o1 & o2 & Ho1 & _ & Hle & _). rewrite Hos in Ho1.
    injection Ho1 as <-. lia.
Qed.

Lemma label_loop_spec (F : nat → list (nat * nat) → result (Z * Z))
    (offsets : list (list (nat * nat))) (r : list Z * list Z) :
  for_each (λ acc io, lab ← F io.1 io.2; Ok (acc.1 ++ [lab.1], acc.2 ++ [lab.2]))
           (imap (λ i o, (i, o)) offsets) ([], []) = Ok r →
  length r.1 = length offsets
  ∧ length r.2 = length offsets
  ∧ ∀ i offs, offsets !! i = Some offs →
      ∃ s e, F i offs = Ok (s, e) ∧ r.1 !! i = Some s ∧ r.2 !! i = Some e.
Proof.
  revert r. induction offsets as [|offs offsets IH] using rev_ind; intros r Hrun.
  - simpl in Hrun. injection Hrun as <-. by split_and!.
  - rewrite imap_app, for_each_app in Hrun. simpl in Hrun.
    apply bind_Ok in Hrun as (r0 & Hrun0 & Hstep).
    apply bind_Ok in Hstep as (r1 & Hstep & [= <-]).
    apply bind_Ok in Hstep as ([s e] & Hlab & [= <-]). simpl.
    rewrite Nat.add_0_r in Hlab.
    destruct (IH r0 Hrun0) as (Hlen1 & Hlen2 & Hall).
    rewrite !length_app. simpl. split_and!; try lia.
    intros i o Hi. destruct (decide (i < length offsets)) as [Hlt|Hge].
    + rewrite lookup_app_l in Hi by done.
      destruct (Hall i o Hi) as (s' & e' & HF & Hs & He).
      exists s', e'. split; [done|]. by rewrite !lookup_app_l by lia.
    + apply lookup_lt_Some in Hi as Hlt. rewrite length_app in Hlt; simpl in Hlt.
      assert (i = length offsets) as -> by lia.
      rewrite lookup_app_r in Hi by lia. rewrite Nat.sub_diag in Hi.
      injection Hi as <-. exists s, e. split; [done|].
      rewrite !lookup_app_r by lia. by rewrite Hlen1, Hlen2, !Nat.sub_diag.
Qed.

(** X14. When training-mode feature building returns, it has one start label and
    one end label per window, and the labels of a window depend on that
    window alone: they are the position of the CLS token when the example
    has no answer or its first answer is not inside the window's context
    tokens; otherwise the start label ends the run of tokens, from the first
    context token on, whose start offset is at most [start_char], and the
    end label begins the run of tokens, from the last context token down,
    whose end offset is at least [end_char]. *)
Theorem train_labels (examples : list Example) (tokenizer : Tokenizer)
    (pad_on_right : bool) (max_length doc_stride : nat) (tf : TrainFeatures) :
  prepare_train_features examples tokenizer pad_on_right max_length doc_stride
  = Ok tf →
  let enc := tokenize tokenizer examples pad_on_right max_length doc_stride in
  train_input_ids tf = input_ids enc
  ∧ length (start_positions tf) = length (enc_offset_mapping enc)
  ∧ length (end_positions tf) = length (enc_offset_mapping enc)
  ∧ ∀ i offs, enc_offset_mapping enc !! i = Some offs →
      ∃ ids seq_ids sample example s e,
        input_ids enc !! i = Some ids
        ∧ sequence_ids enc !! i = Some seq_ids
        ∧ overflow_to_sample_mapping enc !! i = Some sample
        ∧ examples !! sample = Some example
        ∧ start_positions tf !! i = Some s
        ∧ end_positions tf !! i = Some e
        ∧ labels_of tokenizer pad_on_right ids seq_ids offs example s e.
Proof.
  intros H enc. unfold prepare_train_features in H. fold enc in H.
  apply bind_Ok in H as (labels & Hloop & [= <-]). simpl.
  apply (label_loop_spec (window_labels tokenizer pad_on_right examples enc))
    in Hloop as (Hlen1 & Hlen2 & Hall).
  split_and!; try done. intros i offs Hi.
  destruct (Hall i offs Hi) as (s & e & Hlab & Hs & He).
  apply window_labels_inv in Hlab
    as (ids & seq_ids & sample & example & ? & ? & ? & ? & ?).
  by exists ids, seq_ids, sample, example, s, e.
Qed.

(** X15. When no example of the batch has an answer, every window is labelled,
    start and end, with the first position of the CLS token in its token
    ids. *)
Theorem no_answer_sentinel (examples : list Example) (tokenizer : Tokenizer)
    (pad_on_right : bool) (max_length doc_stride : nat) (tf : TrainFeatures) :
  Forall (λ e, answer_start (answers e) = []) examples →
  prepare_train_features examples tokenizer pad_on_right max_length doc_stride
  = Ok tf →
  let enc := tokenize tokenizer examples pad_on_right max_length doc_stride in
  ∀ i, i < length (enc_offset_mapping enc) →
    ∃ ids cls,
      input_ids enc !! i = Some ids
      ∧ first_position ids (cls_token_id tokenizer) cls
      ∧ start_positions tf !! i = Some (Z.of_nat cls)
      ∧ end_positions tf !! i = Some (Z.of_nat cls).
Proof.
  intros Hnone H enc i Hi. unfold prepare_train_features in H. fold enc in H.
  apply bind_Ok in H as (labels & Hloop & [= <-]). simpl.
  apply (label_loop_spec (window_labels tokenizer pad_on_right examples enc))
    in Hloop as (_ & _ & Hall).
  destruct (lookup_lt_is_Some_2 _ _ Hi) as [offsets Hoffs].
  destruct (Hall i offsets Hoffs) as (s & e & Hlab & Hs & He).
  apply window_labels_inv in Hlab
    as (ids & seq_ids & sample & example & Hids & _ & _ & Hex & cls & Hcls & Hcases).
  exists ids, cls. split_and!; try done.
  - destruct Hcases as [(_ & -> & _)|(sc & txt & ts & te & Hsc & _)]; [done|].
    rewrite Forall_forall in Hnone.
    rewrite (Hnone example) in Hsc; [done|]. by eapply list_elem_of_lookup_2.
  - destruct Hcases as [(_ & _ & ->)|(sc & txt & ts & te & Hsc & _)]; [done|].
    rewrite Forall_forall in Hnone.
    rewrite (Hnone example) in Hsc; [done|]. by eapply list_elem_of_lookup_2.
Qed.

Lemma train_labels_witness :
  let enc := tokenize last_word_tokenizer [last_word_example] true 7 2 in
  let tf := {| train_input_ids := [[101; 2040; 102; 7592; 2088; 102; 0]%Z];
               start_positions := [6%Z]; end_positions := [4%Z] |} in
  train_input_ids tf = input_ids enc
  ∧ length (start_positions tf) = length (enc_offset_mapping enc)
  ∧ length (end_positions tf) = length (enc_offset_mapping enc)
  ∧ ∀ i offs, enc_offset_mapping enc !! i = Some offs →
      ∃ ids seq_ids sample example s e,
        input_ids enc !! i = Some ids
        ∧ sequence_ids enc !! i = Some seq_ids
        ∧ overflow_to_sample_mapping enc !! i = Some sample
        ∧ [last_word_example] !! sample = Some example
        ∧ start_positions tf !! i = Some s
        ∧ end_positions tf !! i = Some e
        ∧ labels_of last_word_tokenizer true ids seq_ids offs example s e.
Proof.
  apply (train_labels [last_word_example] last_word_tokenizer true 7 2
           {| train_input_ids := [[101; 2040; 102; 7592; 2088; 102; 0]%Z];
              start_positions := [6%Z]; end_positions := [4%Z] |}).
  vm_compute. reflexivity.
Defined.

Lemma no_answer_sentinel_witness :
  let enc := tokenize last_word_tokenizer [paris_example] true 7 2 in
  let tf := {| train_input_ids := [[101; 2040; 102; 7592; 2088; 102; 0]%Z];
               start_positions := [0%Z]; end_positions := [0%Z] |} in
  0 < length (enc_offset_mapping enc)
  ∧ ∃ ids cls,
      input_ids enc !! 0 = Some ids
      ∧ first_position ids (cls_token_id last_word_tokenizer) cls
      ∧ start_positions tf !! 0 = Some (Z.of_nat cls)
      ∧ end_positions tf !! 0 = Some (Z.of_nat cls).
Proof.
  split; [vm_compute; lia|].
  apply (no_answer_sentinel [paris_example] last_word_tokenizer true 7 2
           {| train_input_ids := [[101; 2040; 102; 7592; 2088; 102; 0]%Z];
              start_positions := [0%Z]; end_positions := [0%Z] |}).
  - by repeat constructor.
  - vm_compute. reflexivity.
  - vm_compute. lia.
Defined.

(** ** Validation windows and the decoder (source lines 67-92, 246-249) *)

Lemma mask_offsets_Ok (seq_ids : list (option nat)) (ctx : nat)
    (offs : list (nat * nat)) :
  length offs ≤ length seq_ids → ∃ masked, mask_offsets seq_ids ctx offs = Ok masked.
Proof.
  intros Hlen. unfold mask_offsets.
  destruct (for_each_total (mask_step seq_ids ctx) (λ _, True)
              (λ ko : nat * (nat * nat), ko.1 < length seq_ids)
              (imap (λ k o, (k, o)) offs) []) as (masked & Hrun & _); [| |done|eauto].
  - apply Forall_forall. intros [k o] (k' & o' & [= -> ->] & Hk)%elem_of_lookup_imap.
    simpl. apply lookup_lt_Some in Hk. lia.
  - intros acc [k o] Hk _. simpl in Hk. unfold mask_step. simpl.
    destruct (index_lt seq_ids k Hk) as (r & -> & _). simpl. eauto.
Qed.

Lemma validation_loop_known (pad_on_right : bool) (examples : list Example)
    (enc : BatchEncoding) (n : nat)
    (st : list string * list (list (option (nat * nat)))) :
  for_each (validation_step pad_on_right examples enc) (seq 0 n)
           ([], (λ offs : list (nat * nat), Some <$> offs) <$> enc_offset_mapping enc)
  = Ok st →
  Forall (λ k, k ∈ ex_id <$> examples) st.1.
Proof.
  intros Hrun. destruct (validation_loop_spec _ _ _ _ _ Hrun) as (Hlen & _ & Hdone).
  apply Forall_lookup. intros i k Hk. apply lookup_lt_Some in Hk as Hi.
  destruct (Hdone i ltac:(lia)) as (? & ? & ? & example & ? & _ & _ & _ & Hex & Hid & _).
  rewrite Hid in Hk. injection Hk as <-.
  apply list_elem_of_fmap. exists example. split; [done|].
  by eapply list_elem_of_lookup_2.
Qed.

(** X17. Validation-mode feature building returns for every encoding whose four
    columns have one entry per window, whose sample indexes point at
    examples and whose sequence roles cover the offsets of each window; the
    result has one example id and one offset mapping per window. *)
Theorem validation_returns (examples : list Example) (tokenizer : Tokenizer)
    (pad_on_right : bool) (max_length doc_stride : nat) :
  let enc := tokenize tokenizer examples pad_on_right max_length doc_stride in
  length (sequence_ids enc) = length (input_ids enc) →
  length (enc_offset_mapping enc) = length (input_ids enc) →
  length (overflow_to_sample_mapping enc) = length (input_ids enc) →
  Forall (λ sample, sample < length examples) (overflow_to_sample_mapping enc) →
  Forall2 (λ seq_ids offs, length offs ≤ length seq_ids)
          (sequence_ids enc) (enc_offset_mapping enc) →
  ∃ v,
    prepare_validation_features examples tokenizer pad_on_right max_length doc_stride
    = Ok v
    ∧ val_input_ids v = input_ids enc
    ∧ length (val_example_id v) = length (input_ids enc)
    ∧ length (val_offset_mapping v) = length (input_ids enc).
Proof.
  intros enc Hseq Hoffs Hsamples Hbound Hcover.
  unfold prepare_validation_features. fold enc.
  destruct (for_each_total (validation_step pad_on_right examples enc) (λ _, True)
              (λ i, i < length (input_ids enc)) (seq 0 (length (input_ids enc)))
              ([], (λ offs : list (nat * nat), Some <$> offs)
                   <$> enc_offset_mapping enc))
    as (st & Hrun & _); [| |done|].
  - apply Forall_forall. intros i Hi%elem_of_seq. lia.
  - intros st i Hi _. unfold validation_step.
    destruct (index_lt (sequence_ids enc) i ltac:(lia)) as (seq_ids & -> & Hs).
    destruct (index_lt (overflow_to_sample_mapping enc) i ltac:(lia))
      as (sample & -> & Hsample).
    simpl. rewrite Forall_forall in Hbound.
    apply list_elem_of_lookup_2, Hbound in Hsample.
    destruct (index_lt examples sample Hsample) as (example & -> & _).
    destruct (index_lt (enc_offset_mapping enc) i ltac:(lia)) as (offs & -> & Ho).
    simpl.
    destruct (mask_offsets_Ok seq_ids (if pad_on_right then 1 else 0) offs)
      as [masked ->].
    { by eapply (Forall2_lookup_lr _ _ _ i) in Hcover. }
    simpl. eauto.
  - rewrite Hrun. simpl.
    destruct (validation_loop_spec _ _ _ _ _ Hrun) as (Hlen1 & Hlen2 & _).
    eexists. split; [done|]. simpl. split_and!; [done|done|lia].
Qed.

Lemma validation_returns_witness :
  ∃ v,
    prepare_validation_features [last_word_example] last_word_tokenizer true 7 2
    = Ok v
    ∧ val_input_ids v
      = input_ids (tokenize last_word_tokenizer [last_word_example] true 7 2)
    ∧ length (val_example_id v)
      = length (input_ids (tokenize last_word_tokenizer [last_word_example] true 7 2))
    ∧ length (val_offset_mapping v)
      = length (input_ids (tokenize last_word_tokenizer [last_word_example] true 7 2)).
Proof.
  apply (validation_returns [last_word_example] last_word_tokenizer true 7 2).
  - reflexivity.
  - reflexivity.
  - reflexivity.
  - repeat constructor.
  - repeat constructor.
Defined.

(** X18. The windows that validation-mode feature building returns can be given
    to the decoder as they are: every one of them carries the id of one of
    the examples, so the grouping raises no KeyError, and outside version-2
    mode the decoder returns a mapping whenever the logits have one non-empty
    row per window. *)
Theorem validation_then_decode (args : Args) (examples : list Example)
    (tokenizer : Tokenizer) (pad_on_right : bool) (max_length doc_stride : nat)
    (v : ValidationFeatures) (all_start_logits all_end_logits : list (list Q)) :
  prepare_validation_features examples tokenizer pad_on_right max_length doc_stride
  = Ok v →
  version_2_with_negative args = false →
  length all_start_logits = length (feature_rows v) →
  length all_end_logits = length (feature_rows v) →
  Forall (λ row, row ≠ []) all_start_logits →
  Forall (λ row, row ≠ []) all_end_logits →
  Forall (λ f, example_id f ∈ ex_id <$> examples) (feature_rows v)
  ∧ ∃ m, postprocess_qa_predictions args examples (feature_rows v)
                                    [all_start_logits; all_end_logits] = Ok m.
Proof.
  intros Hval Hv1 Hsl Hel Hsrows Herows.
  assert (Hknown : Forall (λ f, example_id f ∈ ex_id <$> examples) (feature_rows v)).
  { unfold prepare_validation_features in Hval.
    apply bind_Ok in Hval as (st & Hloop & [= <-]).
    apply validation_loop_known in Hloop. unfold feature_rows. simpl.
    apply Forall_lookup. intros i f Hf.
    apply lookup_zip_with_Some in Hf as (k & om & -> & Hk & _). simpl.
    by eapply (Forall_lookup_1 _ _ _ _ Hloop). }
  split; [done|]. by apply postprocess_total.
Qed.

Lemma validation_then_decode_witness :
  Forall (λ f, example_id f ∈ ex_id <$> [last_word_example])
         (feature_rows last_word_validation)
  ∧ ∃ m, postprocess_qa_predictions (default_args false 0) [last_word_example]
           (feature_rows last_word_validation)
           [[[0; 0; 0; 1; 5; 0; 0]%Q]; [[0; 0; 0; 1; 5; 0; 0]%Q]] = Ok m.
Proof.
  apply (validation_then_decode (default_args false 0) [last_word_example]
           last_word_tokenizer true 7 2 last_word_validation
           [[0; 0; 0; 1; 5; 0; 0]%Q] [[0; 0; 0; 1; 5; 0; 0]%Q]).
  - vm_compute. reflexivity.
  - reflexivity.
  - reflexivity.
  - reflexivity.
  - by repeat constructor.
  - by repeat constructor.
Defined.

(** * Properties of the trainer *)

(** ** Dicts *)

Section Dict.
Context {V : Type}.
Implicit Types (d : list (string * V)) (k : string) (v : V).

Lemma dict_get_None d k : dict_get k d = None ↔ k ∉ d.*1.
Proof.
  induction d as [|[k' v'] d IH]; simpl.
  - split; [intros _; apply not_elem_of_nil | done].
  - destruct (String.eqb_spec k' k) as [->|Hne].
    + split; [done|]. intros H. exfalso. apply H. by left.
    + rewrite IH, not_elem_of_cons. split; [by split | by intros [_ ?]].
Qed.

Lemma dict_get_Some_key d k v : dict_get k d = Some v → k ∈ d.*1.
Proof.
  intros H. destruct (decide (k ∈ d.*1)) as [|Hne]; [done|].
  apply dict_get_None in Hne. congruence.
Qed.

Lemma dict_get_set d k k' v :
  dict_get k (dict_set k' v d) = if decide (k = k') then Some v else dict_get k d.
Proof.
  induction d as [|[k0 v0] d IH]; simpl.
  - destruct (String.eqb_spec k' k) as [->|Hne].
    + by rewrite decide_True.
    + by rewrite decide_False.
  - destruct (String.eqb_spec k0 k') as [->|Hne]; simpl.
    + destruct (String.eqb_spec k' k) as [->|Hne'].
      * by rewrite decide_True.
      * by rewrite decide_False.
    + rewrite IH. destruct (String.eqb_spec k0 k) as [->|Hne'].
      * by rewrite decide_False.
      * done.
Qed.

Lemma dict_set_keys d k v :
  (dict_set k v d).*1 = if decide (k ∈ d.*1) then d.*1 else d.*1 ++ [k].
Proof.
  induction d as [|[k0 v0] d IH]; [done|]. cbn [dict_set fst].
  destruct (String.eqb_spec k0 k) as [->|Hne]; rewrite !fmap_cons; cbn [fst].
  - rewrite decide_True; [done | by left].
  - rewrite IH. destruct (decide (k ∈ d.*1)) as [Hin|Hnin].
    + rewrite decide_True; [done | by right].
    + rewrite decide_False; [done|]. rewrite not_elem_of_cons. by split.
Qed.

Lemma dict_set_NoDup d k v : NoDup d.*1 → NoDup (dict_set k v d).*1.
Proof.
  intros Hnd. rewrite dict_set_keys. destruct (decide (k ∈ d.*1)); [done|].
  apply NoDup_app. split; [done|]. split; [|apply NoDup_singleton].
  intros x Hx Hx'%list_elem_of_singleton. by subst.
Qed.

Lemma dict_pop_spec d k v :
  NoDup d.*1 → dict_get k d = Some v →
  ∃ d', dict_pop k d = Ok (v, d')
        ∧ NoDup d'.*1
        ∧ (∀ k', k' ∈ d'.*1 ↔ k' ∈ d.*1 ∧ k' ≠ k)
        ∧ ∀ k', dict_get k' d' = if decide (k' = k) then None else dict_get k' d.
Proof.
  induction d as [|[k0 v0] d IH]; simpl; [done|]. intros Hnd Hget.
  apply NoDup_cons in Hnd as [Hk0 Hnd].
  destruct (String.eqb_spec k0 k) as [->|Hne].
  - injection Hget as ->. exists d. split_and!; try done.
    + intros k'. rewrite elem_of_cons. split.
      * intros Hk'. split; [by right|]. by intros ->.
      * intros [[->|Hk'] Hne]; done.
    + intros k'. destruct (decide (k' = k)) as [->|Hne'].
      * by apply dict_get_None.
      * by destruct (String.eqb_spec k k').
  - destruct (IH Hnd Hget) as (d' & -> & Hnd' & Hkeys & Hgets). simpl.
    exists ((k0, v0) :: d'). split_and!; try done.
    + simpl. apply NoDup_cons. split; [|done]. rewrite Hkeys. by intros [? _].
    + intros k'. simpl. rewrite !elem_of_cons, Hkeys. split.
      * intros [->|[Hk' Hne']]; (split; [by auto | done]).
      * intros [[->|Hk'] Hne']; [by left | by right].
    + intros k'. simpl. rewrite Hgets.
      destruct (String.eqb_spec k0 k') as [->|Hne'].
      * by rewrite decide_False.
      * done.
Qed.
End Dict.

Lemma prefix_eval (k : string) : String.prefix "eval_" ("eval_" ++ k) = true.
Proof. by destruct k. Qed.

Lemma prefixed_key_prefix (k : string) : String.prefix "eval_" (prefixed_key k) = true.
Proof.
  unfold prefixed_key. destruct (String.prefix "eval_" k) eqn:Hk; [done|].
  apply prefix_eval.
Qed.

Lemma prefixed_key_inj (k1 k2 : string) :
  String.prefix "eval_" k1 = false → String.prefix "eval_" k2 = false →
  prefixed_key k1 = prefixed_key k2 → k1 = k2.
Proof.
  unfold prefixed_key. intros -> -> H. cbv [String.append] in H. by simplify_eq.
Qed.

(** ** The prefix of the metric keys (source lines 176-178) *)

Lemma dict_get_key {V : Type} (d : list (string * V)) (k : string) :
  k ∈ d.*1 → ∃ v, dict_get k d = Some v.
Proof.
  intros Hk. destruct (dict_get k d) as [v|] eqn:Hget; [by exists v|].
  by apply dict_get_None in Hget.
Qed.

Lemma prefix_step_kept {V : Type} (d : list (string * V)) (key : string) :
  String.prefix "eval_" key = true → prefix_step d key = Ok d.
Proof. intros H. unfold prefix_step. by rewrite H. Qed.

Lemma prefix_step_renamed {V : Type} (d dp : list (string * V)) (key : string) (v : V) :
  String.prefix "eval_" key = false → dict_pop key d = Ok (v, dp) →
  prefix_step d key = Ok (dict_set ("eval_" ++ key)%string v dp).
Proof. intros H Hpop. unfold prefix_step. by rewrite H, Hpop. Qed.

Lemma prefix_loop_spec {V : Type} (ks : list string) (d : list (string * V)) :
  NoDup ks → NoDup d.*1 →
  (∀ k, k ∈ ks → String.prefix "eval_" k = false → k ∈ d.*1) →
  ∃ d',
    for_each prefix_step ks d = Ok d'
    ∧ NoDup d'.*1
    ∧ (∀ k0 v, k0 ∈ ks → String.prefix "eval_" k0 = false →
               dict_get k0 d = Some v → dict_get ("eval_" ++ k0) d' = Some v)
    ∧ (∀ k, k ∈ ks → String.prefix "eval_" k = false → dict_get k d' = None)
    ∧ (∀ k, ¬ (k ∈ ks ∧ String.prefix "eval_" k = false) →
            (∀ k0, k0 ∈ ks → String.prefix "eval_" k0 = false →
                   k ≠ ("eval_" ++ k0)%string) →
            dict_get k d' = dict_get k d).
Proof.
  revert d. induction ks as [|key ks IH]; intros d Hks Hd Hpresent.
  - exists d. split_and!; try done.
    + intros k0 v Hk0. by apply elem_of_nil in Hk0.
    + intros k Hk. by apply elem_of_nil in Hk.
  - apply NoDup_cons in Hks as [Hkey Hks]. rewrite for_each_cons.
    destruct (String.prefix "eval_" key) eqn:Hprefix.
    + rewrite (prefix_step_kept d key Hprefix).
      destruct (IH d Hks Hd) as (d' & Hrun & Hnd & R1 & R2 & R3).
      { intros k Hk. apply Hpresent. by right. }
      exists d'. split_and!; try done.
      * intros k0 v [->|Hk0]%elem_of_cons Hk0p; [congruence | by apply R1].
      * intros k [->|Hk]%elem_of_cons Hkp; [congruence | by apply R2].
      * intros k Hk Hne. apply R3.
        -- intros [Hin Hp]. apply Hk. split; [by right | done].
        -- intros k0 Hk0. apply Hne. by right.
    + destruct (dict_get_key d key) as [v0 Hv0].
      { apply Hpresent; [by left | done]. }
      destruct (dict_pop_spec d key v0 Hd Hv0) as (dp & Hpop & Hdp & _ & Hgets).
      rewrite (prefix_step_renamed d dp key v0 Hprefix Hpop).
      set (d1 := dict_set ("eval_" ++ key)%string v0 dp).
      assert (Hd1 : ∀ k, dict_get k d1
                         = if decide (k = ("eval_" ++ key)%string) then Some v0
                           else if decide (k = key) then None else dict_get k d).
      { intros k. unfold d1. rewrite dict_get_set. by rewrite Hgets. }
      assert (Hother : ∀ k, k ∈ ks → String.prefix "eval_" k = false →
                            dict_get k d1 = dict_get k d).
      { intros k Hk Hkp. rewrite Hd1.
        rewrite decide_False by (intros ->; by rewrite prefix_eval in Hkp).
        rewrite decide_False by (intros ->; done). done. }
      destruct (IH d1 Hks) as (d' & Hrun & Hnd & R1 & R2 & R3).
      { by apply dict_set_NoDup. }
      { intros k Hk Hkp. destruct (dict_get_key d k) as [v Hv].
        { apply Hpresent; [by right | done]. }
        apply (dict_get_Some_key d1 k v). by rewrite Hother. }
      assert (Hnew : dict_get ("eval_" ++ key) d' = Some v0).
      { rewrite R3.
        - rewrite Hd1. by rewrite decide_True.
        - intros [_ Hp]. by rewrite prefix_eval in Hp.
        - intros k0 Hk0 Hk0p Heq. cbv [String.append] in Heq.
          simplify_eq. done. }
      assert (Hgone : dict_get key d' = None).
      { rewrite R3.
        - rewrite Hd1.
          rewrite decide_False by (intros Heq; rewrite Heq, prefix_eval in Hprefix; done).
          by rewrite decide_True.
        - by intros [Hin _].
        - intros k0 _ _ Heq. by rewrite Heq, prefix_eval in Hprefix. }
      exists d'. split_and!; try done.
      * intros k0 v [->|Hk0]%elem_of_cons Hk0p Hv.
        -- rewrite Hv0 in Hv. by injection Hv as <-.
        -- apply R1; [done|done|]. by rewrite Hother.
      * intros k [->|Hk]%elem_of_cons Hkp; [done | by apply R2].
      * intros k Hk Hne. rewrite R3.
        -- rewrite Hd1.
           rewrite decide_False by (apply Hne; [by left | done]).
           rewrite decide_False; [done|]. intros ->. apply Hk. split; [by left | done].
        -- intros [Hin Hp]. apply Hk. split; [by right | done].
        -- intros k0 Hk0. apply Hne. by right.
Qed.

Lemma prefix_keys_spec {V : Type} (metrics : list (string * V)) :
  NoDup metrics.*1 →
  ∃ renamed,
    prefix_keys metrics = Ok renamed
    ∧ NoDup renamed.*1
    ∧ Forall (λ k, String.prefix "eval_" k = true) renamed.*1
    ∧ (∀ k v, dict_get k renamed = Some v →
              ∃ k0, k = prefixed_key k0 ∧ dict_get k0 metrics = Some v)
    ∧ (∀ k0 v, dict_get k0 metrics = Some v → String.prefix "eval_" k0 = false →
               dict_get ("eval_" ++ k0) renamed = Some v)
    ∧ (∀ k v, dict_get k metrics = Some v → String.prefix "eval_" k = true →
              (∀ k0, k0 ∈ metrics.*1 → String.prefix "eval_" k0 = false →
                     k ≠ ("eval_" ++ k0)%string) →
              dict_get k renamed = Some v).
Proof.
  intros Hnd. unfold prefix_keys.
  destruct (prefix_loop_spec metrics.*1 metrics Hnd Hnd)
    as (d' & Hrun & Hnd' & R1 & R2 & R3); [done|].
  exists d'. split_and!; try done.
  - apply Forall_forall. intros k Hk.
    destruct (String.prefix "eval_" k) eqn:Hp; [done|]. exfalso.
    apply dict_get_key in Hk as [v Hv].
    destruct (decide (k ∈ metrics.*1)) as [Hin|Hnin].
    + rewrite (R2 k Hin Hp) in Hv. done.
    + rewrite R3 in Hv.
      * apply dict_get_Some_key in Hv. done.
      * by intros [Hin _].
      * intros k0 _ _ Heq. by rewrite Heq, prefix_eval in Hp.
  - intros k v Hv.
    destruct (decide (Exists (λ k0, String.prefix "eval_" k0 = false
                                     ∧ k = ("eval_" ++ k0)%string) metrics.*1))
      as [Hex|Hnex].
    + apply Exists_exists in Hex as (k0 & Hk0 & Hk0p & ->).
      destruct (dict_get_key metrics k0 Hk0) as [v0 Hv0].
      rewrite (R1 k0 v0 Hk0 Hk0p Hv0) in Hv. injection Hv as <-.
      exists k0. split; [|done]. unfold prefixed_key. by rewrite Hk0p.
    + destruct (String.prefix "eval_" k) eqn:Hp.
      * rewrite R3 in Hv.
        -- exists k. split; [|done]. unfold prefixed_key. by rewrite Hp.
        -- intros [_ Hp']. congruence.
        -- intros k0 Hk0 Hk0p ->. apply Hnex, Exists_exists. by exists k0.
      * destruct (decide (k ∈ metrics.*1)) as [Hin|Hnin].
        -- rewrite (R2 k Hin Hp) in Hv. done.
        -- rewrite R3 in Hv.
           ++ apply dict_get_Some_key in Hv. done.
           ++ by intros [Hin _].
           ++ intros k0 _ _ Heq. by rewrite Heq, prefix_eval in Hp.
  - intros k0 v Hv Hp. apply R1; [|done|done]. by eapply dict_get_Some_key.
  - intros k v Hv Hp Hfree. rewrite R3; [done| |done].
    intros [_ Hp']. congruence.
Qed.

(** X19. The loop of lines 176-178 never raises on a dict. Every key of the
    result starts with ["eval_"]; every entry of the result is an entry of
    the input under its own key or under ["eval_"] plus its key; a metric
    whose key lacks the prefix is always kept, under the prefixed key, and a
    metric whose key has the prefix is kept unless another metric is renamed
    to that key, which then takes its place. *)
Theorem prefix_keys_renames {V : Type} (metrics : list (string * V)) :
  NoDup metrics.*1 →
  ∃ renamed,
    prefix_keys metrics = Ok renamed
    ∧ NoDup renamed.*1
    ∧ Forall (λ k, String.prefix "eval_" k = true) renamed.*1
    ∧ (∀ k v, dict_get k renamed = Some v →
              ∃ k0, k = prefixed_key k0 ∧ dict_get k0 metrics = Some v)
    ∧ (∀ k0 v, dict_get k0 metrics = Some v → String.prefix "eval_" k0 = false →
               dict_get ("eval_" ++ k0) renamed = Some v)
    ∧ (∀ k v, dict_get k metrics = Some v → String.prefix "eval_" k = true →
              (∀ k0, k0 ∈ metrics.*1 → String.prefix "eval_" k0 = false →
                     k ≠ ("eval_" ++ k0)%string) →
              dict_get k renamed = Some v).
Proof. apply prefix_keys_spec. Qed.

Lemma prefix_keys_renames_witness :
  ∃ renamed,
    prefix_keys [("exact_match", 80%Q); ("eval_f1", 85%Q); ("f1", 90%Q)] = Ok renamed
    ∧ NoDup renamed.*1
    ∧ Forall (λ k, String.prefix "eval_" k = true) renamed.*1
    ∧ (∀ k v, dict_get k renamed = Some v →
              ∃ k0, k = prefixed_key k0
                    ∧ dict_get k0 [("exact_match", 80%Q); ("eval_f1", 85%Q); ("f1", 90%Q)]
                      = Some v)
    ∧ (∀ k0 v, dict_get k0 [("exact_match", 80%Q); ("eval_f1", 85%Q); ("f1", 90%Q)]
               = Some v →
               String.prefix "eval_" k0 = false →
               dict_get ("eval_" ++ k0) renamed = Some v)
    ∧ (∀ k v, dict_get k [("exact_match", 80%Q); ("eval_f1", 85%Q); ("f1", 90%Q)]
              = Some v →
              String.prefix "eval_" k = true →
              (∀ k0, k0 ∈ [("exact_match", 80%Q); ("eval_f1", 85%Q); ("f1", 90%Q)].*1 →
                     String.prefix "eval_" k0 = false →
                     k ≠ ("eval_" ++ k0)%string) →
              dict_get k renamed = Some v).
Proof.
  apply (prefix_keys_renames [("exact_match", 80%Q); ("eval_f1", 85%Q); ("f1", 90%Q)]).
  apply (bool_decide_unpack _). vm_compute. exact I.
Defined.

(** ** The formatted predictions and the references (source lines 207-226) *)

Lemma postprocess_keys (args : Args) (examples : list Example)
    (features : list Feature) (predictions : list (list (list Q)))
    (m : list (string * string)) :
  NoDup (ex_id <$> examples) →
  postprocess_qa_predictions args examples features predictions = Ok m →
  m.*1 = ex_id <$> examples.
Proof.
  intros Hnd. unfold postprocess_qa_predictions.
  destruct predictions as [|sl [|el [|]]]; try done.
  destruct (negb _); [done|].
  destruct (features_per_example examples features) as [fpe|]; simpl; [|done].
  intros Hrun.
  assert (Hids : (λ r : nat * Example, ex_id r.2) <$> imap (λ i e, (i, e)) examples
                 = ex_id <$> examples).
  { rewrite <- (imap_snd examples 0) at 2. by rewrite <- list_fmap_compose. }
  apply example_loop_keys in Hrun; simpl in *; by rewrite Hids in *.
Qed.

Lemma post_process_spec (self : Trainer) (examples : list Example)
    (features : list Feature) (predictions : list (list (list Q)))
    (ep : EvalPrediction) :
  NoDup (ex_id <$> examples) →
  post_process_function self (Some examples) features predictions = Ok ep →
  fp_id <$> ep_predictions ep = ex_id <$> examples
  ∧ Forall (λ p, no_answer_probability p
                 = if version_2_with_negative (trainer_args self)
                   then Some 0%Q else None) (ep_predictions ep)
  ∧ (∃ own, trainer_eval_examples self = Some own
            ∧ ep_label_ids ep
              = (λ ex, {| ref_id := ex_id ex; ref_answers := answers ex |}) <$> own)
  ∧ (trainer_eval_examples self = Some examples →
     fp_id <$> ep_predictions ep = ref_id <$> ep_label_ids ep).
Proof.
  intros Hnd. unfold post_process_function, postprocess_examples. intros H.
  apply bind_Ok in H as (m & Hm & H).
  apply postprocess_keys in Hm; [|done].
  destruct (trainer_eval_examples self) as [own|]; [|done].
  injection H as <-. cbn [ep_predictions ep_label_ids]. split_and!.
  - rewrite <- Hm. destruct (version_2_with_negative _);
      rewrite <- !list_fmap_compose; by apply list_fmap_ext.
  - destruct (version_2_with_negative _); apply Forall_fmap, Forall_forall; by intros.
  - by exists own.
  - intros [= ->]. rewrite <- (list_fmap_compose _ ref_id).
    change (ref_id ∘ _) with ex_id. rewrite <- Hm. destruct (version_2_with_negative _);
      rewrite <- !list_fmap_compose; by apply list_fmap_ext.
Qed.

(** X20. When [_post_process_function] returns for examples with pairwise-distinct
    ids, the formatted predictions carry the example ids in the order of the
    examples; every one has the key ["no_answer_probability"], with the value
    0, in version-2 mode and none has it otherwise. The references are built
    from [self.eval_examples], which must not be [None], whatever examples
    were passed; the two lists are aligned id by id when the examples passed
    are the trainer's own. *)
Theorem post_process_aligned (self : Trainer) (examples : list Example)
    (features : list Feature) (predictions : list (list (list Q)))
    (ep : EvalPrediction) :
  NoDup (ex_id <$> examples) →
  post_process_function self (Some examples) features predictions = Ok ep →
  fp_id <$> ep_predictions ep = ex_id <$> examples
  ∧ Forall (λ p, no_answer_probability p
                 = if version_2_with_negative (trainer_args self)
                   then Some 0%Q else None) (ep_predictions ep)
  ∧ (∃ own, trainer_eval_examples self = Some own
            ∧ ep_label_ids ep
              = (λ ex, {| ref_id := ex_id ex; ref_answers := answers ex |}) <$> own)
  ∧ (trainer_eval_examples self = Some examples →
     fp_id <$> ep_predictions ep = ref_id <$> ep_label_ids ep).
Proof. apply post_process_spec. Qed.

Lemma post_process_aligned_witness :
  let self := {| trainer_args := default_args true 1;
                 trainer_eval_dataset := None;
                 trainer_eval_examples := Some [paris_example];
                 compute_metrics := None |} in
  let ep := {| ep_predictions :=
                 [ {| fp_id := "q1"; prediction_text := "Paris";
                      no_answer_probability := Some 0%Q |} ];
               ep_label_ids := [ {| ref_id := "q1"; ref_answers := no_answers |} ] |} in
  fp_id <$> ep_predictions ep = ex_id <$> [paris_example]
  ∧ Forall (λ p, no_answer_probability p
                 = if version_2_with_negative (trainer_args self)
                   then Some 0%Q else None) (ep_predictions ep)
  ∧ (∃ own, trainer_eval_examples self = Some own
            ∧ ep_label_ids ep
              = (λ ex, {| ref_id := ex_id ex; ref_answers := answers ex |}) <$> own)
  ∧ (trainer_eval_examples self = Some [paris_example] →
     fp_id <$> ep_predictions ep = ref_id <$> ep_label_ids ep).
Proof.
  apply (post_process_aligned
           {| trainer_args := default_args true 1;
              trainer_eval_dataset := None;
              trainer_eval_examples := Some [paris_example];
              compute_metrics := None |}
           [paris_example] [paris_window] [[paris_start_logits]; [paris_end_logits]]).
  - apply NoDup_singleton.
  - vm_compute. reflexivity.
Defined.

(** ** The metrics of an evaluation (source lines 146-181) *)



(** * What the decoder reads of an example *)

Lemma for_each_Forall2 {A S : Type} (body : S → A → result S) (R : A → A → Prop)
    (xs ys : list A) (acc : S) :
  (∀ s x y, R x y → body s x = body s y) →
  Forall2 R xs ys → for_each body xs acc = for_each body ys acc.
Proof.
  intros Hbody Hall. revert acc.
  induction Hall as [|x y xs ys Hxy _ IH]; intros acc; [done|].
  rewrite !for_each_cons, (Hbody acc x y Hxy).
  destruct (body acc y) as [acc'|]; simpl; [apply IH | done].
Qed.

Lemma decode_example_context (args : Args) (features : list Feature)
    (sl el : list (list Q)) (feature_indices : list nat) (e1 e2 : Example) :
  context e1 = context e2 →
  decode_example args features sl el feature_indices e1
  = decode_example args features sl el feature_indices e2.
Proof.
  intros Hctx. unfold decode_example, example_predictions, resolved_predictions.
  by rewrite Hctx.
Qed.

Lemma rows_agree (exs1 exs2 : list Example) (n : nat) :
  ex_id <$> exs1 = ex_id <$> exs2 → context <$> exs1 = context <$> exs2 →
  Forall2 (λ r1 r2 : nat * Example,
             r1.1 = r2.1 ∧ ex_id r1.2 = ex_id r2.2 ∧ context r1.2 = context r2.2)
          (imap (λ i e, (n + i, e)) exs1) (imap (λ i e, (n + i, e)) exs2).
Proof.
  revert exs2 n. induction exs1 as [|e1 exs1 IH]; intros [|e2 exs2] n Hid Hctx;
    try done.
  injection Hid as Hid1 Hid. injection Hctx as Hctx1 Hctx.
  simpl. constructor; [done|].
  rewrite (imap_ext _ (λ i e, (S n + i, e)) exs1)
    by (intros i e _; simpl; f_equal; lia).
  rewrite (imap_ext _ (λ i e, (S n + i, e)) exs2)
    by (intros i e _; simpl; f_equal; lia).
  by apply IH.
Qed.

(** X13. The decoder reads nothing of an example but its id and its context: two
    lists of examples with the same ids and the same contexts, whatever their
    questions and gold answers, give the same result, mapping or exception. *)
Theorem decoder_reads_id_and_context (args : Args) (exs1 exs2 : list Example)
    (features : list Feature) (predictions : list (list (list Q))) :
  ex_id <$> exs1 = ex_id <$> exs2 →
  context <$> exs1 = context <$> exs2 →
  postprocess_qa_predictions args exs1 features predictions
  = postprocess_qa_predictions args exs2 features predictions.
Proof.
  intros Hid Hctx. unfold postprocess_qa_predictions.
  destruct predictions as [|sl [|el [|]]]; try done.
  destruct (negb _); [done|].
  assert (Hindex : example_id_to_index exs1 = example_id_to_index exs2).
  { assert (Hids : ∀ exs, example_id_to_index exs
                          = foldl (λ m ik, <[ik.2 := ik.1]> m) ∅
                                  (imap (λ i k, (i, k)) (ex_id <$> exs))).
    { intros exs. by rewrite imap_fmap. }
    by rewrite !Hids, Hid. }
  unfold features_per_example. rewrite Hindex.
  destruct (for_each _ _ ∅) as [fpe|]; simpl; [|done].
  apply (for_each_Forall2 _ (λ r1 r2 : nat * Example,
           r1.1 = r2.1 ∧ ex_id r1.2 = ex_id r2.2 ∧ context r1.2 = context r2.2)).
  - intros acc [i e1] [j e2] (Hi & He & Hc). simpl in *. subst j.
    unfold example_step. simpl. rewrite He.
    by rewrite (decode_example_context _ _ _ _ _ e1 e2 Hc).
  - by apply (rows_agree exs1 exs2 0).
Qed.

Lemma decoder_reads_id_and_context_witness :
  postprocess_qa_predictions (default_args false 0) [paris_example] [paris_window]
    [[paris_start_logits]; [paris_end_logits]]
  = postprocess_qa_predictions (default_args false 0)
      [ {| ex_id := "q1"; question := ""; context := "Paris is big";
           answers := {| answer_start := [0]; answer_text := ["Paris"] |} |} ]
      [paris_window] [[paris_start_logits]; [paris_end_logits]].
Proof.
  apply (decoder_reads_id_and_context (default_args false 0) [paris_example]
           [ {| ex_id := "q1"; question := ""; context := "Paris is big";
                answers := {| answer_start := [0]; answer_text := ["Paris"] |} |} ]
           [paris_window] [[paris_start_logits]; [paris_end_logits]]).
  - reflexivity.
  - reflexivity.
Defined.

(** * The training labels under the tokenizer's contract *)

Section TightLabels.
Context (tokenizer : Tokenizer) (pad_on_right : bool) (examples : list Example)
  (enc : BatchEncoding) (i : nat) (offs : list (nat * nat))
  (ids : list Z) (seq_ids : list (option nat)) (sample : nat) (example : Example)
  (start_char : nat) (txt : string) (ts te : nat).

Let ctx : nat := if pad_on_right then 1 else 0.
Let end_char : nat := start_char + String.length txt.

(** The window and its example. *)
Hypothesis window_ids : input_ids enc !! i = Some ids.
Hypothesis window_roles : sequence_ids enc !! i = Some seq_ids.
Hypothesis window_sample : overflow_to_sample_mapping enc !! i = Some sample.
Hypothesis window_example : examples !! sample = Some example.
Hypothesis first_answer_start : answer_start (answers example) !! 0 = Some start_char.
Hypothesis first_answer_text : answer_text (answers example) !! 0 = Some txt.

(** The tokenizer's contract: one role per token, the context tokens are the
    positions [ts .. te], and over them the start offsets and the end offsets
    do not decrease. *)
Hypothesis roles_length : length seq_ids = length ids.
Hypothesis context_range : ∀ k, seq_ids !! k = Some (Some ctx) ↔ ts ≤ k ≤ te.
Hypothesis starts_monotone : ∀ k k' o o',
  ts ≤ k → k ≤ k' → k' ≤ te → offs !! k = Some o → offs !! k' = Some o' → o.1 ≤ o'.1.
Hypothesis ends_monotone : ∀ k k' o o',
  ts ≤ k → k ≤ k' → k' ≤ te → offs !! k = Some o → offs !! k' = Some o' → o.2 ≤ o'.2.

Lemma first_context_is_ts (ts' : nat) :
  ts ≤ te → first_position seq_ids (Some ctx) ts' → ts' = ts.
Proof.
  intros Hle [Hctx Hfirst]. apply context_range in Hctx.
  destruct (decide (ts' = ts)) as [|Hne]; [done|]. exfalso.
  apply (Hfirst ts); [lia|]. apply context_range. lia.
Qed.

Lemma last_context_is_te (te' : Z) :
  ts ≤ te →
  last_context seq_ids ctx (Z.of_nat (length ids) - 1) te' → te' = Z.of_nat te.
Proof.
  intros Hle (Hget & Htop & Habove).
  assert (Hte : seq_ids !! te = Some (Some ctx)) by (apply context_range; lia).
  apply lookup_lt_Some in Hte as Hlt. rewrite roles_length in Hlt.
  assert (Hge : (Z.of_nat te <= te')%Z).
  { destruct (decide (Z.of_nat te <= te')%Z) as [|Hlt']; [done|]. exfalso.
    destruct (Habove (Z.of_nat te) ltac:(lia)) as (r & Hr & Hne).
    unfold py_get in Hr. rewrite (proj2 (Z.leb_le 0 _)) in Hr by lia.
    rewrite Nat2Z.id in Hr. apply index_Ok in Hr. congruence. }
  unfold py_get in Hget. rewrite (proj2 (Z.leb_le 0 _)) in Hget by lia.
  apply index_Ok, context_range in Hget. lia.
Qed.

(** X16. When the first answer of the example lies inside the context tokens of
    the window, does not start in the last context token unless that is the
    last token of the window, and some token from just before the context on
    ends before the answer does, the labels that are returned are the
    tightest pair of context tokens that covers the answer. *)
Theorem contained_answer_tightest (s e : Z) :
  ts ≤ te →
  (∃ o_start o_end, offs !! ts = Some o_start ∧ offs !! te = Some o_end
                    ∧ o_start.1 ≤ start_char ∧ end_char ≤ o_end.2
                    ∧ (start_char < o_end.1 ∨ S te = length offs)) →
  (∃ k o, ts ≤ S k ∧ k < te ∧ offs !! k = Some o ∧ o.2 < end_char) →
  window_labels tokenizer pad_on_right examples enc i offs = Ok (s, e) →
  ∃ sn en,
    s = Z.of_nat sn ∧ e = Z.of_nat en
    ∧ tightest_pair seq_ids ctx offs start_char end_char sn en.
Proof.
  intros Hle (o_ts & o_te & Hots & Hote & Hin1 & Hin2 & Hlast)
         (kb & ob & Hkb1 & Hkb2 & Hob & Hob_lt) Hlab.
  apply window_labels_inv in Hlab
    as (ids' & seq' & sample' & example' & Hi1 & Hi2 & Hi3 & Hi4 & cls & _ & Hcases).
  rewrite window_ids in Hi1. injection Hi1 as <-.
  rewrite window_roles in Hi2. injection Hi2 as <-.
  rewrite window_sample in Hi3. injection Hi3 as <-.
  rewrite window_example in Hi4. injection Hi4 as <-.
  destruct Hcases as [(Hnone & _)|(sc & t & ts' & te' & Hsc & Ht & Hts' & Hte' & Hcases)].
  { rewrite Hnone in first_answer_start. done. }
  rewrite first_answer_start in Hsc. injection Hsc as <-.
  rewrite first_answer_text in Ht. injection Ht as <-.
  apply (first_context_is_ts _ Hle) in Hts'. subst ts'.
  apply (last_context_is_te _ Hle) in Hte'. subst te'.
  assert (Hget : ∀ k : nat, py_get offs (Z.of_nat k) = index offs k).
  { intros k. unfold py_get. rewrite (proj2 (Z.leb_le 0 _)) by lia.
    by rewrite Nat2Z.id. }
  assert (Hinside : answer_inside offs start_char end_char ts (Z.of_nat te)).
  { exists o_ts, o_te. rewrite Hget. split_and!; try done. by apply index_Ok. }
  fold ctx end_char in Hcases.
  destruct Hcases as [[Hnot _]|[_ Hrun]]; [done|].
  destruct Hrun as ((sn & -> & Hsn & Hrun_s & Hstop_s) & He_le & Hrun_e & (oe1 & Hoe1 & Hoe1_lt)).
  apply lookup_lt_Some in Hote as Hte_lt.
  (* the start label stays inside the context *)
  assert (Hsn_te : sn ≤ te).
  { destruct Hlast as [Hlt|Hend]; [|lia].
    destruct (decide (sn ≤ te)) as [|Hgt]; [done|]. exfalso.
    specialize (Hrun_s te o_te ltac:(lia) Hote). lia. }
  (* the end label stays inside the context *)
  assert (He_ts : (Z.of_nat ts <= e)%Z).
  { destruct (decide (Z.of_nat ts <= e)%Z) as [|Hlt]; [done|]. exfalso.
    destruct (Hrun_e (Z.of_nat kb) ltac:(lia)) as (o & Ho & Ho_ge).
    rewrite Hget in Ho. apply index_Ok in Ho. rewrite Hob in Ho.
    injection Ho as <-. lia. }
  exists sn, (Z.to_nat e). split; [done|]. split; [lia|].
  destruct (lookup_lt_is_Some_2 offs sn ltac:(lia)) as [o_sn Ho_sn].
  destruct (Hrun_e e ltac:(lia)) as (o_e & Ho_e & Ho_e_ge).
  rewrite <- (Z2Nat.id e) in Ho_e by lia. rewrite Hget in Ho_e. apply index_Ok in Ho_e.
  split.
  - split; [apply context_range; lia|]. split; [apply context_range; lia|].
    exists o_sn, o_e. split_and!; try done. apply (Hrun_s sn o_sn); [lia | done].
  - intros s' e' (Hs' & He' & os' & oe' & Hos' & Hoe' & Hs'_le & He'_ge).
    apply context_range in Hs', He'. split.
    + destruct (decide (s' ≤ sn)) as [|Hgt]; [done|]. exfalso.
      destruct (lookup_lt_is_Some_2 offs (S sn) ltac:(lia)) as [o_next Ho_next].
      pose proof (Hstop_s o_next Ho_next).
      pose proof (starts_monotone (S sn) s' o_next os' ltac:(lia) ltac:(lia)
                    ltac:(lia) Ho_next Hos'). lia.
    + destruct (decide (Z.to_nat e ≤ e')) as [|Hgt]; [done|]. exfalso.
      assert (Hprev : (e - 1 = Z.of_nat (Z.to_nat e - 1))%Z) by lia.
      rewrite Hprev, Hget in Hoe1. apply index_Ok in Hoe1.
      pose proof (ends_monotone e' (Z.to_nat e - 1) oe' oe1 ltac:(lia) ltac:(lia)
                    ltac:(lia) Hoe' Hoe1). lia.
Qed.
End TightLabels.

Lemma contained_answer_tightest_witness :
  ∃ sn en,
    3%Z = Z.of_nat sn ∧ 3%Z = Z.of_nat en
    ∧ tightest_pair [None; Some 0; None; Some 1; Some 1; None; None] 1
                    [(0, 0); (0, 3); (0, 0); (0, 5); (6, 11); (0, 0); (0, 0)]
                    0 5 sn en.
Proof.
  apply (contained_answer_tightest last_word_tokenizer true [first_word_example]
           last_word_encoding 0
           [(0, 0); (0, 3); (0, 0); (0, 5); (6, 11); (0, 0); (0, 0)]
           [101; 2040; 102; 7592; 2088; 102; 0]%Z
           [None; Some 0; None; Some 1; Some 1; None; None]
           0 first_word_example 0 "Hello" 3 4).
  all: try reflexivity.
  all: try (simpl; lia).
  - intros k. destruct k as [|[|[|[|[|[|[|k]]]]]]]; simpl; split;
      first [discriminate | lia | reflexivity].
  - intros k k' o o' H1 H2 H3.
    destruct k as [|[|[|[|[|k]]]]]; try lia;
      destruct k' as [|[|[|[|[|k']]]]]; try lia;
      simpl; intros [= <-] [= <-]; simpl; lia.
  - intros k k' o o' H1 H2 H3.
    destruct k as [|[|[|[|[|k]]]]]; try lia;
      destruct k' as [|[|[|[|[|k']]]]]; try lia;
      simpl; intros [= <-] [= <-]; simpl; lia.
  - exists (0, 5), (6, 11). simpl. split_and!; try reflexivity; lia.
  - exists 2, (0, 0). simpl. split_and!; try reflexivity; lia.
Defined.

(** * The decoder returns in version-2 mode *)

Lemma feature_loop_Ok (args : Args) (features : list Feature)
    (sl el : list (list Q)) (feature_indices : list nat) :
  length sl = length features → length el = length features →
  Forall (λ row, row ≠ []) sl → Forall (λ row, row ≠ []) el →
  Forall (λ i, i < length features) feature_indices →
  ∃ st, for_each (feature_step args features sl el) feature_indices (None, [])
        = Ok st.
Proof.
  intros Hsl Hel Hsrows Herows Hidx.
  destruct (for_each_total (feature_step args features sl el) (λ _, True)
              (λ i, i < length features) feature_indices (None, []) Hidx)
    as (st & Hloop & _); [|done|by exists st].
  intros st i Hi _. unfold feature_step.
  destruct (index_lt sl i ltac:(lia)) as (srow & -> & Hsrow).
  destruct (index_lt el i ltac:(lia)) as (erow & -> & Herow).
  destruct (index_lt features i Hi) as (f & -> & _). simpl.
  rewrite Forall_forall in Hsrows, Herows.
  apply list_elem_of_lookup_2, Hsrows in Hsrow.
  apply list_elem_of_lookup_2, Herows in Herow.
  destruct srow as [|s0 srow]; [done|]. destruct erow as [|e0 erow]; [done|].
  assert (Hnull : ∃ mn, update_min_null st.1 (s0 :: srow) (e0 :: erow) = Ok mn).
  { unfold update_min_null. simpl. destruct st.1; [destruct (Qltb _ _)|]; eauto. }
  destruct Hnull as [mn ->]. simpl.
  destruct (window_candidates_Ok args f (s0 :: srow) (e0 :: erow) st.2) as [r ->].
  simpl. eauto.
Qed.

Lemma window_candidates_texts (args : Args) (f : Feature) (sl el : list Q)
    (ctx : string) (prelim r : list Candidate) :
  spans_nonempty ctx f →
  Forall (λ c, py_slice ctx (offsets c).1 (offsets c).2 ≠ "") prelim →
  window_candidates args f sl el prelim = Ok r →
  Forall (λ c, py_slice ctx (offsets c).1 (offsets c).2 ≠ "") r.
Proof.
  intros Hspans Hprelim Hrun. unfold window_candidates in Hrun.
  destruct (start_loop_spec args f sl el (top_indexes sl (n_best_size args))
              (top_indexes el (n_best_size args)) prelim) as (cs & Hrun' & Hall).
  - apply Forall_forall. intros s. apply top_indexes_lt.
  - apply Forall_forall. intros e. apply top_indexes_lt.
  - rewrite Hrun' in Hrun. injection Hrun as <-. apply Forall_app. split; [done|].
    apply Forall_lookup. intros j c Hc.
    destruct (Forall2_lookup_r _ _ _ _ _ Hall Hc) as ([s e] & Hpair & Hcand).
    apply list_elem_of_lookup_2, list_elem_of_bind in Hpair as (s' & Hin & _).
    apply list_elem_of_fmap in Hin as (e' & [= -> ->] & He').
    apply list_elem_of_In, filter_In in He' as [_ Hacc].
    apply span_accepted_spec in Hacc as (_ & _ & _ & _ & Hle & _).
    destruct Hcand as (os & oe & a & b & Hos & Hoe & _ & _ & ->). simpl in *.
    by eapply Hspans.
Qed.

Lemma feature_loop_texts (args : Args) (features : list Feature)
    (sl el : list (list Q)) (feature_indices : list nat) (ctx : string)
    (st : option Candidate * list Candidate) :
  (∀ i f, i ∈ feature_indices → features !! i = Some f → spans_nonempty ctx f) →
  for_each (feature_step args features sl el) feature_indices (None, []) = Ok st →
  Forall (λ c, py_slice ctx (offsets c).1 (offsets c).2 ≠ "") st.2.
Proof.
  intros Hspans.
  apply (for_each_invariant _
           (λ st, Forall (λ c, py_slice ctx (offsets c).1 (offsets c).2 ≠ "") st.2));
    [|constructor].
  intros s i s' Hi Hprelim Hstep. unfold feature_step in Hstep.
  apply bind_Ok in Hstep as (srow & _ & Hstep).
  apply bind_Ok in Hstep as (erow & _ & Hstep).
  apply bind_Ok in Hstep as (f & Hf%index_Ok & Hstep).
  apply bind_Ok in Hstep as (mn & _ & Hstep).
  apply bind_Ok in Hstep as (prelim & Hwin & [= <-]). simpl.
  eapply window_candidates_texts; [|exact Hprelim|exact Hwin]. by eapply Hspans.
Qed.

Lemma filter_take_length {A : Type} (P : A → Prop) `{∀ x, Decision (P x)}
    (l : list A) (n : nat) :
  length (filter P (take n l)) ≤ length (filter P l).
Proof.
  revert n. induction l as [|x l IH]; intros [|n]; simpl; try lia.
  rewrite !filter_cons. specialize (IH n). destruct (decide (P x)); simpl; lia.
Qed.

Lemma filter_all {A : Type} (P : A → Prop) `{∀ x, Decision (P x)} (l : list A) :
  Forall P l → filter P l = l.
Proof.
  induction 1 as [|x l Hx _ IH]; [done|]. by rewrite filter_cons_True, IH.
Qed.

Lemma filter_none {A : Type} (P : A → Prop) `{∀ x, Decision (P x)} (l : list A) :
  Forall (λ x, ¬ P x) l → filter P l = [].
Proof.
  induction 1 as [|x l Hx _ IH]; [done|]. by rewrite filter_cons_False.
Qed.

(** With texts that are all empty, the cut list has at most the null
    candidate. *)
Lemma rank_empty_texts (args : Args) (ctx : string) (prelim : list Candidate)
    (m : Candidate) :
  Forall (λ c, py_slice ctx (offsets c).1 (offsets c).2 ≠ "") prelim →
  Forall (λ c, py_slice ctx (offsets c).1 (offsets c).2 = "") (rank args (prelim ++ [m])) →
  length (rank args (prelim ++ [m])) ≤ 1.
Proof.
  intros Hprelim Hempty.
  rewrite <- (filter_all _ _ Hempty). unfold rank.
  etrans; [apply filter_take_length|].
  rewrite stable_sort_perm, filter_app, (filter_none _ prelim).
  - simpl. rewrite filter_cons, filter_nil. destruct (decide _); simpl; lia.
  - eapply Forall_impl; [exact Hprelim|]. by intros c Hc.
Qed.

Lemma decode_example_v2_Ok (args : Args) (features : list Feature)
    (sl el : list (list Q)) (feature_indices : list nat) (example : Example) :
  version_2_with_negative args = true →
  length sl = length features → length el = length features →
  Forall (λ row, row ≠ []) sl → Forall (λ row, row ≠ []) el →
  Forall (λ i, i < length features) feature_indices →
  feature_indices ≠ [] →
  (∀ i f, i ∈ feature_indices → features !! i = Some f →
          spans_nonempty (context example) f) →
  ∃ answer, decode_example args features sl el feature_indices example = Ok answer.
Proof.
  intros Hv2 Hsl Hel Hsrows Herows Hidx Hne Hspans.
  destruct (feature_loop_Ok args features sl el feature_indices)
    as [st Hloop]; try done.
  pose proof (feature_loop_texts _ _ _ _ _ _ _ Hspans Hloop) as Htexts.
  destruct (feature_loop_scores _ _ _ _ _ _ Hloop) as [_ Hnull].
  pose proof (min_null_loop _ _ _ _ _ _ Hloop) as Hmin.
  destruct feature_indices as [|i0 idxs]; [done|].
  destruct Hmin as (m & Hm & _). destruct (Hnull m Hm) as [_ Hoff].
  set (ctx := context example) in *.
  set (R := rank args (st.2 ++ [m])).
  remember (if has_null R then R else R ++ [m]) as L eqn:HL.
  assert (Hpred : example_predictions args features sl el (i0 :: idxs) example
                  = Ok (insert_placeholder (resolve_text ctx <$> L), Some (score m))).
  { unfold example_predictions, resolved_predictions. rewrite Hloop, Hv2. simpl.
    rewrite Hm. simpl. fold R. destruct (has_null R) eqn:Hhas; simpl.
    - by subst L.
    - by subst L. }
  assert (Hsurvivor : ∃ p, p ∈ insert_placeholder (resolve_text ctx <$> L)
                           ∧ text p ≠ "").
  { destruct (decide (Exists (λ c, py_slice ctx (offsets c).1 (offsets c).2 ≠ "") L))
      as [Hex|Hnex].
    - apply Exists_exists in Hex as (c & Hc & Hctext).
      exists (resolve_text ctx c). split; [|done].
      apply elem_of_insert_placeholder. by apply list_elem_of_fmap_2.
    - exists placeholder. split; [|done].
      apply not_Exists_Forall in Hnex; [|intros c; apply _].
      assert (Hempty : Forall (λ c, py_slice ctx (offsets c).1 (offsets c).2 = "") L).
      { eapply Forall_impl; [exact Hnex|]. intros c Hc. simpl in Hc.
        by destruct (decide (py_slice ctx (offsets c).1 (offsets c).2 = "")). }
      assert (HR : Forall (λ c, py_slice ctx (offsets c).1 (offsets c).2 = "") R).
      { rewrite HL in Hempty. destruct (has_null R); [done|].
        by apply Forall_app in Hempty as [? _]. }
      pose proof (rank_empty_texts args ctx st.2 m Htexts HR) as Hlen. fold R in Hlen.
      assert (Hsingle : ∃ c, L = [c] ∧ py_slice ctx (offsets c).1 (offsets c).2 = "").
      { clear Hpred. destruct (has_null R) eqn:Hhas; subst L.
        - destruct R as [|c [|c2 R']]; simpl in Hlen; [done| |lia].
          exists c. split; [done|]. by apply Forall_cons in HR as [? _].
        - destruct R as [|c [|c2 R']] eqn:HR'; simpl in Hlen; [| |lia].
          + exists m. split; [done|]. rewrite Hoff. apply py_slice_empty.
          + exfalso. assert (Hc : c ∈ st.2 ++ [m]).
            { apply (rank_sublist args). fold R. rewrite HR'. by left. }
            apply Forall_cons in HR as [Hctext _].
            apply elem_of_app in Hc as [Hc|Hc%list_elem_of_singleton].
            * rewrite Forall_forall in Htexts. by apply (Htexts c).
            * subst c. simpl in Hhas. rewrite bool_decide_eq_true_2 in Hhas; done. }
      destruct Hsingle as (c & -> & Hctext).
      unfold insert_placeholder, needs_placeholder. simpl. rewrite Hctext. simpl.
      by left. }
  destruct (skip_empty_spec _ 0 Hsurvivor) as (k & best & Hskip & Hk & _ & _).
  destruct (probabilities_Ok (insert_placeholder (resolve_text ctx <$> L)))
    as [probs Hprobs]; [apply insert_placeholder_nonempty|].
  unfold decode_example. rewrite Hpred. simpl. rewrite Hprobs. simpl.
  unfold select_answer. rewrite Hv2, Hskip. simpl. unfold index. rewrite Hk. simpl.
  destruct (Qltb _ _); eauto.
Qed.

(** X12. In version-2 mode the decoder returns a mapping for every well-shaped
    input in which every example owns a window and, in its windows, every
    span from one present offset to a later one is a non-empty piece of the
    example's context: then the loop that skips the empty texts finds an
    entry. *)
Theorem decode_returns_v2 (args : Args) (examples : list Example)
    (features : list Feature) (all_start_logits all_end_logits : list (list Q)) :
  version_2_with_negative args = true →
  well_shaped examples features all_start_logits all_end_logits →
  (∀ i e, examples !! i = Some e → windows_of examples features i ≠ []) →
  (∀ i e j f, examples !! i = Some e → j ∈ windows_of examples features i →
              features !! j = Some f → spans_nonempty (context e) f) →
  ∃ m, postprocess_qa_predictions args examples features
                                  [all_start_logits; all_end_logits] = Ok m.
Proof.
  intros Hv2 (Hsl & Hel & Hknown & Hsrows & Herows) Howns Hspans.
  unfold postprocess_qa_predictions.
  apply Nat.eqb_eq in Hsl as Hsl'. rewrite Hsl'. simpl.
  destruct (features_per_example_Ok examples features Hknown) as (fpe & Hfpe & Hbound).
  rewrite Hfpe. simpl.
  pose proof (features_per_example_windows _ _ _ Hfpe) as Hgroups.
  destruct (for_each_total
              (example_step args features all_start_logits all_end_logits fpe)
              (λ _, True) (λ r : nat * Example, examples !! r.1 = Some r.2)
              (imap (λ i e, (i, e)) examples) [])
    as (m & Hrun & _); [| |done|by exists m].
  - apply Forall_forall. by intros [i e] (j & e' & [= -> ->] & He)%elem_of_lookup_imap.
  - intros acc [i ex] Hex _. simpl in Hex. unfold example_step. simpl.
    destruct (decode_example_v2_Ok args features all_start_logits all_end_logits
                (default [] (fpe !! i)) ex) as [answer ->]; try done.
    + destruct (fpe !! i) as [l|] eqn:Hl; simpl; [by eapply Hbound | constructor].
    + rewrite Hgroups. by eapply Howns.
    + intros j f Hj Hf. rewrite Hgroups in Hj. by eapply Hspans.
    + simpl. eauto.
Qed.

Lemma decode_returns_v2_witness :
  ∃ m, postprocess_qa_predictions (default_args true 0) [paris_example]
         [paris_window] [[paris_start_logits]; [paris_end_logits]] = Ok m.
Proof.
  apply (decode_returns_v2 (default_args true 0) [paris_example] [paris_window]
           [paris_start_logits] [paris_end_logits]).
  - reflexivity.
  - unfold well_shaped. split_and!; try reflexivity.
    + repeat constructor.
    + by repeat constructor.
    + by repeat constructor.
  - intros [|i] e He; [|done]. vm_compute. discriminate.
  - intros [|i] e j f He Hj Hf; [|done]. injection He as <-.
    destruct j as [|j]; [|done]. injection Hf as <-.
    intros s t os ot Hst Hs Ht.
    destruct s as [|[|[|[|[|s]]]]]; try discriminate Hs;
      destruct t as [|[|[|[|[|t]]]]]; try discriminate Ht; try lia;
      injection Hs as <-; injection Ht as <-; vm_compute; discriminate.
Defined.

(** * What [predict] returns (source lines 183-204) *)

(** X22. Without [compute_metrics], [predict] returns the output of the
    prediction loop as it is. With it, and test examples with
    pairwise-distinct ids, the predictions carry the ids of the test
    examples, in order, but the references are those of the trainer's own
    [eval_examples], which must not be [None]: the metrics compare the test
    predictions with the evaluation set's answers. *)
Theorem predict_references (self : Trainer)
    (prediction_loop : list Feature → result (list (list (list Q))))
    (test_dataset : list Feature) (test_examples : list Example)
    (out : PredictionOutput) :
  NoDup (ex_id <$> test_examples) →
  predict self prediction_loop test_dataset (Some test_examples) = Ok out →
  ∃ output,
    prediction_loop test_dataset = Ok output
    ∧ match compute_metrics self with
      | None => out = RawOutput output
      | Some compute =>
          ∃ own ep,
            trainer_eval_examples self = Some own
            ∧ out = ProcessedOutput (ep_predictions ep) (ep_label_ids ep) (compute ep)
            ∧ fp_id <$> ep_predictions ep = ex_id <$> test_examples
            ∧ ref_id <$> ep_label_ids ep = ex_id <$> own
            ∧ ref_answers <$> ep_label_ids ep = answers <$> own
      end.
Proof.
  intros Hnd. unfold predict. intros H.
  apply bind_Ok in H as (output & Hloop & H). exists output. split; [done|].
  destruct (compute_metrics self) as [compute|]; [|by injection H as <-].
  apply bind_Ok in H as (ep & Hep & [= <-]).
  destruct (post_process_spec _ _ _ _ _ Hnd Hep) as (Hids & _ & (own & Hown & Hrefs) & _).
  exists own, ep. split_and!; try done.
  - rewrite Hrefs, <- list_fmap_compose. by apply list_fmap_ext.
  - rewrite Hrefs, <- list_fmap_compose. by apply list_fmap_ext.
Qed.

Lemma predict_references_witness :
  let compute := λ _ : EvalPrediction, [("f1", MetricNumber 1)] in
  let self := {| trainer_args := default_args false 0;
                 trainer_eval_dataset := None;
                 trainer_eval_examples := Some [last_word_example; first_word_example];
                 compute_metrics := Some compute |} in
  let loop := λ _ : list Feature, Ok [[paris_start_logits]; [paris_end_logits]] in
  let ep := {| ep_predictions :=
                 [ {| fp_id := "q1"; prediction_text := "Paris";
                      no_answer_probability := None |} ];
               ep_label_ids :=
                 [ {| ref_id := "q1"; ref_answers := answers last_word_example |};
                   {| ref_id := "q1"; ref_answers := answers first_word_example |} ] |} in
  ∃ output,
    loop [paris_window] = Ok output
    ∧ ∃ own ep',
        trainer_eval_examples self = Some own
        ∧ ProcessedOutput (ep_predictions ep) (ep_label_ids ep) (compute ep)
          = ProcessedOutput (ep_predictions ep') (ep_label_ids ep') (compute ep')
        ∧ fp_id <$> ep_predictions ep' = ex_id <$> [paris_example]
        ∧ ref_id <$> ep_label_ids ep' = ex_id <$> own
        ∧ ref_answers <$> ep_label_ids ep' = answers <$> own.
Proof.
  apply (predict_references
           {| trainer_args := default_args false 0;
              trainer_eval_dataset := None;
              trainer_eval_examples := Some [last_word_example; first_word_example];
              compute_metrics := Some (λ _, [("f1", MetricNumber 1)]) |}
           (λ _, Ok [[paris_start_logits]; [paris_end_logits]])
           [paris_window] [paris_example]).
  - apply NoDup_singleton.
  - vm_compute. reflexivity.
Defined.
